(** * Vinegere: Kasiski examination and Vigenere key recovery

    A shallow embedding of [kasiski.js] and [vigenere.js] (and of the bundled
    variant that carries both in one file), with the properties of the
    natural-language specification stated and settled against it.

    Conventions of the embedding.
    - A JavaScript string is a [string]; the texts are ASCII, and
      [toUpperCase] acts on the letters a-z.
    - A value that may be [undefined] is an [option]; [x || d] on strings is
      [orElse], on numbers [orElseNum] (the empty string and 0 are falsy).
    - An uncaught exception is the [Throw] outcome of [completion].
    - A JavaScript array with holes is a [list (option A)] ([JsArray]).
    - A JavaScript number that holds a count or an index is a [nat]; a score
      is a [num]: an exact rational, an infinity or NaN.  Rounding of doubles
      is not modelled. *)

From Stdlib Require Import ZArith NArith Arith List String Ascii Bool Lia.
From Stdlib Require Import QArith Qabs Permutation Sorted.
Import ListNotations.

Local Open Scope string_scope.
Local Open Scope nat_scope.

(** ** JavaScript strings *)

Module JsString.

(** [s.charAt(i)]: the one-character string at [i], or the empty string. *)
Definition charAt (s : string) (i : nat) : string :=
  match String.get i s with
  | Some a => String a EmptyString
  | None => EmptyString
  end.

(** The code unit of a character. *)
Definition code (a : ascii) : Z := Z.of_N (N_of_ascii a).

(** [String.fromCharCode(z)] for a code below 256. *)
Definition fromCharCode (z : Z) : string :=
  String (ascii_of_N (Z.to_N z)) EmptyString.

Definition upperChar (a : ascii) : ascii :=
  if (97 <=? code a)%Z && (code a <=? 122)%Z
  then ascii_of_N (Z.to_N (code a - 32))
  else a.

(** [s.toUpperCase()] on ASCII text. *)
Fixpoint toUpperCase (s : string) : string :=
  match s with
  | EmptyString => EmptyString
  | String a r => String (upperChar a) (toUpperCase r)
  end.

(** [s.substring(a, b)]: both ends clamped to the length, then ordered. *)
Definition substring (s : string) (a b : nat) : string :=
  let a' := Nat.min a (String.length s) in
  let b' := Nat.min b (String.length s) in
  String.substring (Nat.min a' b') (Nat.max a' b' - Nat.min a' b') s.

(** [s.indexOf(t, from)] by scanning; [None] stands for -1. *)
Fixpoint indexOfFrom (t s : string) (pos skip : nat) : option nat :=
  match skip with
  | S skip' =>
      match s with
      | EmptyString => if String.prefix t s then Some pos else None
      | String _ r => indexOfFrom t r (S pos) skip'
      end
  | O =>
      if String.prefix t s then Some pos
      else match s with
           | EmptyString => None
           | String _ r => indexOfFrom t r (S pos) O
           end
  end.

Definition indexOf (s t : string) (from : nat) : option nat :=
  indexOfFrom t s 0 from.

(** [x || d] for a string that may be undefined. *)
Definition orElse (v : option string) (d : string) : string :=
  match v with
  | Some s => if (s =? "")%string then d else s
  | None => d
  end.

(** The accumulation [for (i = 0; i < n; i++) acc += f(i)]. *)
Definition build (f : nat -> string) (n : nat) : string :=
  fold_left (fun acc i => acc ++ f i) (seq 0 n) "".

End JsString.

Import JsString.

(** ** vigenere.js: modular alphabet arithmetic *)

(** [s.match(/^[A-Z]$/)]: exactly one character, an upper-case letter. *)
Definition isUpper (a : ascii) : bool :=
  (65 <=? code a)%Z && (code a <=? 90)%Z.

Definition matchesLetter (s : string) : bool :=
  match s with
  | String a EmptyString => isUpper a
  | _ => false
  end.

(** [x.charCodeAt(0)]; only evaluated once [matchesLetter x] holds. *)
Definition charCodeAt0 (s : string) : Z :=
  match s with
  | String a _ => code a
  | EmptyString => 0%Z
  end.

Definition cyclicPlus (x c : string) : string :=
  if matchesLetter x && matchesLetter c
  then fromCharCode (Z.rem (charCodeAt0 x + charCodeAt0 c - 65 * 2) 26 + 65)
  else x.

Definition cyclicMinus (x c : string) : string :=
  if matchesLetter x && matchesLetter c
  then fromCharCode (Z.rem (charCodeAt0 x - charCodeAt0 c + 26) 26 + 65)
  else x.

(** ** vigenere.js: the engine *)

Record Vigenere : Type := mkVigenere {
  key : string;
  cryptotext : string;
  plaintext : option string;
  ciphertext : option string
}.

(** [new Vigenere(cryptotext, key)]. *)
Definition newVigenere (text k : option string) : Vigenere :=
  {| key := toUpperCase (orElse k " ");
     cryptotext := toUpperCase (orElse text " ");
     plaintext := text;
     ciphertext := text |}.

Definition setText (e : Vigenere) (text : string) : Vigenere :=
  {| key := key e; cryptotext := text;
     plaintext := plaintext e; ciphertext := ciphertext e |}.

Definition setKey (e : Vigenere) (k : option string) : Vigenere :=
  {| key := toUpperCase (orElse k " "); cryptotext := cryptotext e;
     plaintext := plaintext e; ciphertext := ciphertext e |}.

Definition reset (e : Vigenere) : Vigenere :=
  {| key := key e; cryptotext := cryptotext e;
     plaintext := Some (cryptotext e); ciphertext := Some (cryptotext e) |}.

(** The loop body shared by [encrypt] and [decrypt]: the character of the
    text at [i] combined with the key character at [i % key.length]. *)
Definition combineAt (op : string -> string -> string) (text k : string)
    (i : nat) : string :=
  op (charAt text i) (charAt k (i mod String.length k)).

(** [encrypt(newKey)]: the returned text and the engine afterwards. *)
Definition encrypt (e : Vigenere) (newKey : option string)
    : string * Vigenere :=
  let k := orElse newKey (key e) in
  let out := build (combineAt cyclicPlus (cryptotext e) k)
                   (String.length (cryptotext e)) in
  (out, {| key := key e; cryptotext := cryptotext e;
           plaintext := plaintext e; ciphertext := Some out |}).

(** [decrypt(newKey)]: the returned text and the engine afterwards. *)
Definition decrypt (e : Vigenere) (newKey : option string)
    : string * Vigenere :=
  let k := orElse newKey (key e) in
  let out := build (combineAt cyclicMinus (cryptotext e) k)
                   (String.length (cryptotext e)) in
  (out, {| key := key e; cryptotext := cryptotext e;
           plaintext := Some out; ciphertext := ciphertext e |}).

(** ** JavaScript arrays with holes, outcomes, numbers *)

Module JsArray.

Definition t (A : Type) : Type := list (option A).

(** [arr[i]]: [None] is [undefined] (a hole, or past the end). *)
Definition get {A : Type} (arr : t A) (i : nat) : option A :=
  match nth_error arr i with
  | Some v => v
  | None => None
  end.

(** [arr[i] = v]: writing past the end extends the array with holes. *)
Fixpoint set {A : Type} (arr : t A) (i : nat) (v : A) : t A :=
  match i, arr with
  | O, [] => [Some v]
  | O, _ :: r => Some v :: r
  | S i', [] => None :: set [] i' v
  | S i', x :: r => x :: set r i' v
  end.

(** The elements that are present, with their indices, by ascending
    index: the order of [for (i in arr)] and the order in which [sort]
    collects the elements. *)
Fixpoint entriesFrom {A : Type} (base : nat) (arr : t A) : list (nat * A) :=
  match arr with
  | [] => []
  | Some v :: r => (base, v) :: entriesFrom (S base) r
  | None :: r => entriesFrom (S base) r
  end.

Definition entries {A : Type} (arr : t A) : list (nat * A) :=
  entriesFrom 0 arr.

Definition keys {A : Type} (arr : t A) : list nat := map fst (entries arr).

Definition values {A : Type} (arr : t A) : list A := map snd (entries arr).

(** A stable sort by insertion; [after x y] is [comparefn(x, y) > 0].
    For a consistent comparison every stable sort gives this result. *)
Fixpoint insert {A : Type} (after : A -> A -> bool) (x : A) (l : list A)
    : list A :=
  match l with
  | [] => [x]
  | y :: r => if after x y then y :: insert after x r else x :: l
  end.

Fixpoint sortList {A : Type} (after : A -> A -> bool) (l : list A)
    : list A :=
  match l with
  | [] => []
  | x :: r => insert after x (sortList after r)
  end.

(** [arr.sort(comparefn)]: the present elements sorted to the front, the
    holes moved to the end, the length kept. *)
Definition sort {A : Type} (after : A -> A -> bool) (arr : t A) : t A :=
  let vs := values arr in
  (map Some (sortList after vs)
   ++ repeat None (List.length arr - List.length vs))%list.

End JsArray.

Inductive error : Type :=
| TypeError.

(** The outcome of a call: a value, an uncaught exception, or a loop whose
    fuel ran out (shown below not to happen). *)
Inductive completion (A : Type) : Type :=
| Normal (a : A)
| Throw (e : error)
| Diverge.

Arguments Normal {A} a.
Arguments Throw {A} e.
Arguments Diverge {A}.

Definition bind {A B : Type} (c : completion A) (f : A -> completion B)
    : completion B :=
  match c with
  | Normal a => f a
  | Throw e => Throw e
  | Diverge => Diverge
  end.

Notation "x <- c ;; k" := (bind c (fun x => k))
  (at level 61, c at next level, right associativity).

(** [for (i of xs) body(i)] over a state, stopping at the first exception. *)
Fixpoint forEach {I S : Type} (xs : list I) (body : I -> S -> completion S)
    (s : S) : completion S :=
  match xs with
  | [] => Normal s
  | i :: r => s' <- body i s ;; forEach r body s'
  end.

Module JsNum.

(** A number that is not a count: an exact rational, an infinity or NaN.
    The sign of zero is not kept. *)
Inductive num : Type :=
| NaN
| PInf
| NInf
| Fin (q : Q).

Definition ofNat (n : nat) : num := Fin (inject_Z (Z.of_nat n)).

Definition neg (x : num) : num :=
  match x with
  | NaN => NaN
  | PInf => NInf
  | NInf => PInf
  | Fin a => Fin (Qred (- a))
  end.

Definition add (x y : num) : num :=
  match x, y with
  | NaN, _ | _, NaN => NaN
  | PInf, NInf | NInf, PInf => NaN
  | PInf, _ | _, PInf => PInf
  | NInf, _ | _, NInf => NInf
  | Fin a, Fin b => Fin (Qred (a + b))
  end.

Definition sub (x y : num) : num := add x (neg y).

Definition isZero (q : Q) : bool := Qeq_bool q 0.

Definition isNeg (q : Q) : bool := negb (Qle_bool 0 q).

Definition mul (x y : num) : num :=
  match x, y with
  | NaN, _ | _, NaN => NaN
  | Fin a, Fin b => Fin (Qred (a * b))
  | Fin a, PInf | PInf, Fin a =>
      if isZero a then NaN else if isNeg a then NInf else PInf
  | Fin a, NInf | NInf, Fin a =>
      if isZero a then NaN else if isNeg a then PInf else NInf
  | PInf, PInf | NInf, NInf => PInf
  | PInf, NInf | NInf, PInf => NInf
  end.

Definition div (x y : num) : num :=
  match x, y with
  | NaN, _ | _, NaN => NaN
  | Fin a, Fin b =>
      if isZero b
      then if isZero a then NaN else if isNeg a then NInf else PInf
      else Fin (Qred (a / b))
  | Fin _, _ => Fin 0
  | PInf, Fin b => if isNeg b then NInf else PInf
  | NInf, Fin b => if isNeg b then PInf else NInf
  | _, _ => NaN
  end.

(** [Math.pow(x, 2)]. *)
Definition pow2 (x : num) : num := mul x x.

(** [v > 0]; false for NaN. *)
Definition positive (v : num) : bool :=
  match v with
  | PInf => true
  | Fin a => negb (Qle_bool a 0)
  | _ => false
  end.

Definition isNaN (v : num) : bool :=
  match v with
  | NaN => true
  | _ => false
  end.

(** [x || d] for a count that may be undefined: 0 is falsy. *)
Definition orElseNum (v : option nat) (d : nat) : nat :=
  match v with
  | Some O | None => d
  | Some n => n
  end.

End JsNum.

Import JsNum.

(** ** kasiski.js *)

Record FactorEntry : Type := mkFactorEntry {
  frequency : nat;
  factorList : JsArray.t bool
}.

Definition FactorTable : Type := JsArray.t FactorEntry.

(** The factor loop of [factorGap]: [i] runs from 2 while
    [i <= Math.sqrt(n)], that is up to the integer square root. *)
Definition factorsOf (n : nat) : JsArray.t bool :=
  fold_left (fun fl i => if n mod i =? 0 then JsArray.set fl i true else fl)
            (seq 2 (Nat.sqrt n - 1)) [].

Definition factorGap (n : nat) (factorTable : FactorTable) : FactorTable :=
  match JsArray.get factorTable n with
  | Some entry =>
      JsArray.set factorTable n
        {| frequency := S (frequency entry); factorList := factorList entry |}
  | None =>
      JsArray.set factorTable n
        {| frequency := 1; factorList := factorsOf n |}
  end.

Record Occurrence : Type := mkOccurrence {
  indexOfAppearance : nat;
  gapToNextAppearance : nat
}.

(** [substringTable] is a plain object: its own properties, in the order
    in which they were created. *)
Definition SubstringTable : Type := list (string * list Occurrence).

(** The properties a plain object inherits from [Object.prototype]: reading
    one of them from [substringTable] gives a value that is truthy and has
    no [push]. *)
Definition inheritedProperties : list string :=
  [ "constructor"; "hasOwnProperty"; "isPrototypeOf"; "propertyIsEnumerable";
    "toLocaleString"; "toString"; "valueOf"; "__proto__";
    "__defineGetter__"; "__defineSetter__"; "__lookupGetter__";
    "__lookupSetter__" ].

Definition inherited (name : string) : bool :=
  existsb (String.eqb name) inheritedProperties.

Fixpoint pushOwn (name : string) (o : Occurrence) (table : SubstringTable)
    : SubstringTable :=
  match table with
  | [] => [(name, [o])]
  | (n, os) :: r =>
      if (n =? name)%string then (n, (os ++ [o])%list) :: r
      else (n, os) :: pushOwn name o r
  end.

(** [if (!substringTable[candidate]) substringTable[candidate] = [];
     substringTable[candidate].push(o)]. *)
Definition record (candidate : string) (o : Occurrence)
    (table : SubstringTable) : completion SubstringTable :=
  if inherited candidate then Throw TypeError
  else Normal (pushOwn candidate o table).

(** The [do ... while (nextIndex > -1)] loop of [recurrenceSearch]. *)
Fixpoint chain (fuel : nat) (ciphertext candidate : string)
    (k startIndex searchIndex : nat) (tables : SubstringTable * FactorTable)
    : completion (SubstringTable * FactorTable) :=
  match indexOf ciphertext candidate searchIndex with
  | None => Normal tables
  | Some nextIndex =>
      let gap := nextIndex - startIndex in
      substringTable <-
        record candidate
          {| indexOfAppearance := startIndex; gapToNextAppearance := gap |}
          (fst tables) ;;
      let factorTable := factorGap gap (snd tables) in
      match fuel with
      | O => Diverge
      | S fuel' =>
          chain fuel' ciphertext candidate k startIndex (nextIndex + k)
                (substringTable, factorTable)
      end
  end.

Definition recurrenceSearch (ciphertext : string)
    : completion (SubstringTable * FactorTable) :=
  let len := String.length ciphertext in
  forEach (seq 2 (len / 2 - 2))
    (fun k =>
       forEach (seq 0 (len - 2 * k))
         (fun startIndex tables =>
            let candidate := substring ciphertext startIndex (startIndex + k) in
            chain len ciphertext candidate k startIndex (startIndex + k)
                  tables))
    ([], []).

(** A candidate object [{factor, frequency}].  The same object is reachable
    from [candidateFreqs] and from [frequencyRanks], so both arrays hold
    references into one store. *)
Record Candidate : Type := mkCandidate {
  factor : nat;
  weight : nat  (* the field [frequency] of the candidate object *)
}.

Definition ref : Type := nat.

Record Ranking : Type := mkRanking {
  objects : list Candidate;
  candidateFreqs : JsArray.t ref;
  frequencyRanks : JsArray.t ref;
  factorCount : nat
}.

Definition deref (store : list Candidate) (r : ref) : Candidate :=
  nth r store {| factor := 0; weight := 0 |}.

(** [store[r].frequency += f]. *)
Fixpoint addWeight (store : list Candidate) (r : ref) (f : nat)
    : list Candidate :=
  match store, r with
  | [], _ => []
  | c :: rest, O => {| factor := factor c; weight := weight c + f |} :: rest
  | c :: rest, S r' => c :: addWeight rest r' f
  end.

(** The body of the inner [for (factor in factorList)] loop. *)
Definition countFactor (f : nat) (fac : nat) (rk : Ranking) : Ranking :=
  match JsArray.get (candidateFreqs rk) fac with
  | None =>
      let r := List.length (objects rk) in
      {| objects := (objects rk ++ [{| factor := fac; weight := f |}])%list;
         candidateFreqs := JsArray.set (candidateFreqs rk) fac r;
         frequencyRanks := JsArray.set (frequencyRanks rk) fac r;
         factorCount := S (factorCount rk) |}
  | Some r =>
      {| objects := addWeight (objects rk) r f;
         candidateFreqs := candidateFreqs rk;
         frequencyRanks := frequencyRanks rk;
         factorCount := factorCount rk |}
  end.

(** The two nested [for ... in] loops of [kasiskiExamination]. *)
Definition tally (factorTable : FactorTable) : Ranking :=
  fold_left
    (fun rk ge =>
       fold_left (fun rk' fac => countFactor (frequency (snd ge)) fac rk')
                 (JsArray.keys (factorList (snd ge))) rk)
    (JsArray.entries factorTable)
    {| objects := []; candidateFreqs := []; frequencyRanks := [];
       factorCount := 0 |}.

(** [compare(x, y) > 0] for [compare(x, y) = y.frequency - x.frequency]. *)
Definition rankedAfter (store : list Candidate) (x y : ref) : bool :=
  (0 <? Z.of_nat (weight (deref store y)) - Z.of_nat (weight (deref store x)))%Z.

Definition rank (factorTable : FactorTable) : Ranking :=
  let rk := tally factorTable in
  {| objects := objects rk;
     candidateFreqs := candidateFreqs rk;
     frequencyRanks := JsArray.sort (rankedAfter (objects rk))
                                    (frequencyRanks rk);
     factorCount := factorCount rk |}.

(** [while (frequencyRanks[i].factor < 4) i++], reading the array from
    [i] on; a hole or the end of the array is [undefined], whose [factor]
    cannot be read. *)
Fixpoint firstLongEnough (store : list Candidate) (rest : JsArray.t ref)
    (i : nat) : completion nat :=
  match rest with
  | Some r :: rest' =>
      if factor (deref store r) <? 4
      then firstLongEnough store rest' (S i)
      else Normal i
  | None :: _ => Throw TypeError
  | [] => Throw TypeError
  end.

Record Examination : Type := mkExamination {
  substringTable : SubstringTable;
  factorTable : FactorTable;
  ranking : Ranking;
  firstKeyLength : nat
}.

(** [frequencyRanks[i].factor]. *)
Definition factorAt (rk : Ranking) (i : nat) : completion nat :=
  match JsArray.get (frequencyRanks rk) i with
  | Some r => Normal (factor (deref (objects rk) r))
  | None => Throw TypeError
  end.

Definition kasiskiExamination (ciphertext : string)
    : completion Examination :=
  results <- recurrenceSearch ciphertext ;;
  let rk := rank (snd results) in
  firstKeyLengthIndex <- firstLongEnough (objects rk) (frequencyRanks rk) 0 ;;
  len <- factorAt rk firstKeyLengthIndex ;;
  Normal {| substringTable := fst results; factorTable := snd results;
            ranking := rk; firstKeyLength := len |}.

(** The bundled variant of the library takes the first ranked entry. *)
Module Bundled.

Definition kasiskiExamination (ciphertext : string)
    : completion Examination :=
  results <- recurrenceSearch ciphertext ;;
  let rk := rank (snd results) in
  len <- factorAt rk 0 ;;
  Normal {| substringTable := fst results; factorTable := snd results;
            ranking := rk; firstKeyLength := len |}.

End Bundled.

(** ** vigenere.js: frequency analysis and key recovery *)

(** The table of expected letter frequencies, in the order of its keys. *)
Definition letterFrequencies : list (string * Q) :=
  [ ("A", 8000395 # 100000000); ("B", 1535701 # 100000000);
    ("C", 2575785 # 100000000); ("D", 4317924 # 100000000);
    ("E", 12575645 # 100000000); ("F", 2350463 # 100000000);
    ("G", 1982677 # 100000000); ("H", 6236609 # 100000000);
    ("I", 6920007 # 100000000); ("J", 145188 # 100000000);
    ("K", 739906 # 100000000); ("L", 4057231 # 100000000);
    ("M", 2560994 # 100000000); ("N", 6903785 # 100000000);
    ("O", 7591270 # 100000000); ("P", 1795742 # 100000000);
    ("Q", 117571 # 100000000); ("R", 5959034 # 100000000);
    ("S", 6340880 # 100000000); ("T", 9085226 # 100000000);
    ("U", 2841783 # 100000000); ("V", 981717 # 100000000);
    ("W", 2224893 # 100000000); ("X", 179556 # 100000000);
    ("Y", 1900888 # 100000000); ("Z", 79130 # 100000000) ]%Q.

(** A column while its letters are being counted. *)
Record Tally : Type := mkTally {
  count : list (string * nat);
  seen : nat  (* the field [total] during the counting loop *)
}.

(** A column of the result: [total], the 26 proportions, [score]. *)
Record ColumnFrequency : Type := mkColumnFrequency {
  total : nat;
  proportion : list (string * num);
  score : num
}.

Definition emptyTally : Tally :=
  {| count := map (fun lf => (fst lf, 0)) letterFrequencies; seen := 0 |}.

(** [column[letter]++; column.total++]. *)
Definition countLetter (letter : string) (c : Tally) : Tally :=
  {| count := map (fun kv => if (fst kv =? letter)%string
                             then (fst kv, S (snd kv)) else kv) (count c);
     seen := S (seen c) |}.

Fixpoint updateAt {A : Type} (i : nat) (f : A -> A) (l : list A) : list A :=
  match l, i with
  | [], _ => []
  | x :: r, O => f x :: r
  | x :: r, S i' => x :: updateAt i' f r
  end.

(** The counting loop of [frequencies]; [i % columns] is always a column. *)
Definition countColumns (columns : nat) (text : string) : list Tally :=
  fold_left
    (fun cols i =>
       let column := i mod columns in
       let letter := charAt text i in
       if negb (matchesLetter letter) then cols
       else updateAt column (countLetter letter) cols)
    (seq 0 (String.length text))
    (repeat emptyTally columns).

Definition countOf (c : Tally) (letter : string) : nat :=
  match find (fun kv => (fst kv =? letter)%string) (count c) with
  | Some kv => snd kv
  | None => 0
  end.

(** The scoring loop of [frequencies] on one column. *)
Definition scoreColumn (c : Tally) : ColumnFrequency :=
  let step (acc : list (string * num) * num) (lf : string * Q) :=
    let p := div (ofNat (countOf c (fst lf))) (ofNat (seen c)) in
    ((fst acc ++ [(fst lf, p)])%list,
     add (snd acc) (div (pow2 (sub p (Fin (snd lf)))) (Fin (snd lf)))) in
  let r := fold_left step letterFrequencies ([], Fin 0) in
  {| total := seen c; proportion := fst r; score := snd r |}.

(** [frequencies(columns, cryptotext)]. *)
Definition frequencies (e : Vigenere) (columns : option nat)
    (text : option string) : list ColumnFrequency :=
  let columns := orElseNum columns 1 in
  let text := orElse text (cryptotext e) in
  map scoreColumn (countColumns columns text).

Record Scored : Type := mkScored {
  letter : string;
  letterScore : num  (* the field [score] of a candidate *)
}.

Record Smash : Type := mkSmash {
  candidateTable : list (list Scored);
  firstKey : string
}.

(** [compare(x, y) > 0] for [compare(x, y) = x.score - y.score]. *)
Definition scoredAfter (x y : Scored) : bool :=
  positive (sub (letterScore x) (letterScore y)).

(** The loop that pushes the candidate of letter [l] on every column:
    [candidateTable[column].push({letter, score: frequencies[column].score})]. *)
Definition pushScores (len : nat) (l : string) (fs : list ColumnFrequency)
    (table : list (list Scored)) : completion (list (list Scored)) :=
  forEach (seq 0 len)
    (fun column table =>
       match nth_error fs column, nth_error table column with
       | Some f, Some _ =>
           Normal (updateAt column
                     (fun col =>
                        (col ++ [{| letter := l; letterScore := score f |}])%list)
                     table)
       | _, _ => Throw TypeError
       end)
    table.

(** One round of the loop over the letters: decrypt under the letter,
    score the columns, push one candidate on every column.  The engine
    changes because [decrypt] stores its result. *)
Definition tryLetter (len : nat) (l : string)
    (st : Vigenere * list (list Scored))
    : completion (Vigenere * list (list Scored)) :=
  let (shiftedText, e') := decrypt (fst st) (Some l) in
  let fs := frequencies e' (Some len) (Some shiftedText) in
  table <- pushScores len l fs (snd st) ;;
  Normal (e', table).

(** The loop that sorts every column and collects the best letters:
    [candidateTable[column].sort(compare);
     firstKey += candidateTable[column][0].letter]. *)
Definition sortColumns (len : nat) (table : list (list Scored))
    : completion (list (list Scored) * string) :=
  forEach (seq 0 len)
    (fun column st =>
       match nth_error (fst st) column with
       | None => Throw TypeError
       | Some col =>
           match JsArray.sortList scoredAfter col with
           | [] => Throw TypeError
           | best :: others =>
               Normal (updateAt column (fun _ => best :: others) (fst st),
                       snd st ++ letter best)
           end
       end)
    (table, "").

(** [smashKey(length, options)] with kasiski.js loaded.  An exception can
    only come from the Kasiski examination, before the engine is touched. *)
Definition smashKey (e : Vigenere) (length options : option nat)
    : completion (Smash * Vigenere) :=
  len <- match length with
         | Some (S n) => Normal (S n)
         | _ => x <- kasiskiExamination (cryptotext e) ;;
                Normal (orElseNum (Some (firstKeyLength x)) 1)
         end ;;
  let options := Nat.min (orElseNum options 3) 26 in
  st <- forEach (map fst letterFrequencies) (tryLetter len)
                (e, repeat [] len) ;;
  sorted <- sortColumns len (snd st) ;;
  Normal ({| candidateTable := fst sorted; firstKey := snd sorted |}, fst st).

(** [result.assemble(combination)]. *)
Definition assemble (result : Smash) (combination : list nat)
    : completion string :=
  forEach (seq 0 (List.length (candidateTable result)))
    (fun column newKey =>
       match nth_error (candidateTable result) column,
             nth_error combination column with
       | Some col, Some choice =>
           match nth_error col choice with
           | Some c => Normal (newKey ++ letter c)
           | None => Throw TypeError
           end
       | _, _ => Throw TypeError
       end)
    "".


(** ** Vocabulary of the specification *)

(** The position of a letter in the alphabet, and the letter at a position. *)
Definition index (a : ascii) : Z := (code a - 65)%Z.

Definition letterAt (i : Z) : ascii := ascii_of_N (Z.to_N (i + 65)).

Definition single (a : ascii) : string := String a "".

Definition lettersOnly (k : string) : bool :=
  forallb isUpper (list_ascii_of_string k).

(** The round trip of the specification: one engine encrypts the text, a
    second engine, built from the result and the same key, decrypts it. *)
Definition roundTrip (T K : string) : string :=
  let c := fst (encrypt (newVigenere (Some T) (Some K)) None) in
  fst (decrypt (newVigenere (Some c) (Some K)) None).

(** The same round trip on one engine: the result of [encrypt(K)] is made
    the working text with [setText] before [decrypt(K)]. *)
Definition roundTripSetText (T K : string) : string :=
  let e := newVigenere (Some T) None in
  let (c, e1) := encrypt e (Some K) in
  fst (decrypt (setText e1 c) (Some K)).

(** The factor tables that [factorGap] builds from the empty table. *)
Inductive Recorded : FactorTable -> Prop :=
| Recorded_empty : Recorded []
| Recorded_gap (n : nat) (ft : FactorTable) :
    Recorded ft -> Recorded (factorGap n ft).

(** [i] is listed as a factor in the entry [e]. *)
Definition listed (e : FactorEntry) (i : nat) : Prop :=
  In i (JsArray.keys (factorList e)).

(** The aggregate frequency of a factor: the frequencies of the gaps that
    list it, added up. *)
Definition aggregateFrequency (ft : FactorTable) (f : nat) : nat :=
  list_sum
    (map (fun ge =>
            if existsb (Nat.eqb f) (JsArray.keys (factorList (snd ge)))
            then frequency (snd ge) else 0)
         (JsArray.entries ft)).

(** A candidate key length: a factor that some recorded gap lists. *)
Definition candidateFactor (ft : FactorTable) (f : nat) : Prop :=
  exists n e, JsArray.get ft n = Some e /\ listed e f.

(** The ranking order: the larger aggregate frequency first; on a tie the
    factors keep the order they had in the array, which is by index. *)
Definition ranksBefore (ft : FactorTable) (f g : nat) : Prop :=
  aggregateFrequency ft g < aggregateFrequency ft f
  \/ (aggregateFrequency ft f = aggregateFrequency ft g /\ f < g).

(** The candidate objects of [frequencyRanks], in the order of the array. *)
Definition rankedCandidates (rk : Ranking) : list Candidate :=
  map (deref (objects rk)) (JsArray.values (frequencyRanks rk)).

Definition rankedFactors (x : Examination) : list nat :=
  map factor (rankedCandidates (ranking x)).

(** ** Auxiliary definitions of the proofs *)

(** The (frequency, factor) pairs in the order in which the two nested
    loops of [kasiskiExamination] visit them. *)
Definition visits (ft : FactorTable) : list (nat * nat) :=
  flat_map (fun ge => map (fun fac => (frequency (snd ge), fac))
                          (JsArray.keys (factorList (snd ge))))
           (JsArray.entries ft).

Definition emptyRanking : Ranking :=
  {| objects := []; candidateFreqs := []; frequencyRanks := [];
     factorCount := 0 |}.

(** The weight that the visits made so far give to a factor. *)
Definition weightAfter (done : list (nat * nat)) (f : nat) : nat :=
  list_sum (map (fun p => if f =? snd p then fst p else 0) done).

(** What holds of the ranking between two visits. *)
Record TallyInv (done : list (nat * nat)) (rk : Ranking) : Prop := {
  inv_shared : frequencyRanks rk = candidateFreqs rk;
  inv_object : forall f r,
      JsArray.get (candidateFreqs rk) f = Some r ->
      r < List.length (objects rk)
      /\ deref (objects rk) r
         = {| factor := f; weight := weightAfter done f |};
  inv_seen : forall f,
      (exists r, JsArray.get (candidateFreqs rk) f = Some r)
      <-> In f (map snd done)
}.

(** The loop of [pushScores] as a recursion over the columns that are
    still to be visited, with the scores that belong to them. *)
Fixpoint pushAll (l : string) (fs : list ColumnFrequency)
    (todo : list (list Scored)) : completion (list (list Scored)) :=
  match todo, fs with
  | [], _ => Normal []
  | col :: todo', f :: fs' =>
      rest <- pushAll l fs' todo' ;;
      Normal ((col ++ [{| letter := l; letterScore := score f |}])%list
              :: rest)
  | _ :: _, [] => Throw TypeError
  end.

(** The loop of [sortColumns] as a recursion over the columns that are
    still to be sorted. *)
Fixpoint sortAll (todo : list (list Scored)) (acc : string)
    : completion (list (list Scored) * string) :=
  match todo with
  | [] => Normal ([], acc)
  | col :: todo' =>
      match JsArray.sortList scoredAfter col with
      | [] => Throw TypeError
      | best :: others =>
          rest <- sortAll todo' (acc ++ letter best) ;;
          Normal ((best :: others) :: fst rest, snd rest)
      end
  end.

(** The best letters of a sorted table, concatenated. *)
Definition bestLetters (table : list (list Scored)) : string :=
  fold_left (fun acc col => acc ++ match col with
                                   | c :: _ => letter c
                                   | [] => ""
                                   end)
            table "".

(** [smashKey] once the key length is settled. *)
Definition recoverKey (e : Vigenere) (len : nat)
    : completion (Smash * Vigenere) :=
  st <- forEach (map fst letterFrequencies) (tryLetter len)
                (e, repeat [] len) ;;
  sorted <- sortColumns len (snd st) ;;
  Normal ({| candidateTable := fst sorted; firstKey := snd sorted |}, fst st).

(** The engine that [smashKey] leaves behind: the stored plaintext is the
    decryption under Z, the last letter tried. *)
Definition afterSmash (e : Vigenere) : Vigenere :=
  {| key := key e; cryptotext := cryptotext e;
     plaintext := Some (fst (decrypt e (Some "Z")));
     ciphertext := ciphertext e |}.

(** An engine that differs from [e] at most in its stored plaintext. *)
Definition sameButPlaintext (e e' : Vigenere) : Prop :=
  key e' = key e /\ cryptotext e' = cryptotext e
  /\ ciphertext e' = ciphertext e.

(** The comparison of the ranking sort, by weight: [x] goes after [y] when
    its weight is smaller. *)
Definition lighterThan {A : Type} (w : A -> nat) (x y : A) : bool :=
  w x <? w y.

(** The order the ranking sort produces from weights [w] and original
    positions [p]: the larger weight first, equal weights by position. *)
Definition heavierFirst {A : Type} (w p : A -> nat) (x y : A) : Prop :=
  w y < w x \/ (w x = w y /\ p x < p y).

(** A score that is a number, and the order of two such scores. *)
Definition isNumber (v : num) : Prop := exists q, v = Fin q.

Definition scoreLe (x y : Scored) : Prop :=
  match letterScore x, letterScore y with
  | Fin a, Fin b => (a <= b)%Q
  | _, _ => False
  end.

(** A text without lower-case letters, as the constructor stores it. *)
Definition isLower (a : ascii) : bool :=
  (97 <=? code a)%Z && (code a <=? 122)%Z.

Definition noLower (s : string) : Prop :=
  Forall (fun a => isLower a = false) (list_ascii_of_string s).

(** ** Definitions for further properties of the code *)

(** [Vigenere.prototype.kasiskiExamination], attached when kasiski.js is
    loaded: the examination of the working text. *)
Definition engineExamination (e : Vigenere) : completion Examination :=
  kasiskiExamination (cryptotext e).

(** A string without upper-case letters. *)
Definition noUpper (s : string) : Prop :=
  Forall (fun a => isUpper a = false) (list_ascii_of_string s).

(** An occurrence recorded under the substring [s] is a real repeat of
    [s] in the text: [s] stands at the recorded index and again, without
    overlap, one gap further. *)
Definition genuine (ct s : string) (o : Occurrence) : Prop :=
  2 <= String.length s
  /\ substring ct (indexOfAppearance o)
                  (indexOfAppearance o + String.length s) = s
  /\ String.length s <= gapToNextAppearance o
  /\ substring ct (indexOfAppearance o + gapToNextAppearance o)
                  (indexOfAppearance o + gapToNextAppearance o
                   + String.length s) = s
  /\ indexOfAppearance o + gapToNextAppearance o + String.length s
     <= String.length ct.

(** The number of recorded occurrences whose gap is [n]. *)
Definition occurrencesWithGap (n : nat) (st : SubstringTable) : nat :=
  list_sum
    (map (fun entry =>
            List.length (filter (fun o => gapToNextAppearance o =? n)
                                (snd entry)))
         st).

(** What the two tables of the search have to do with the text and with
    each other, at every point of the search. *)
Definition SearchInv (ct : string) (tables : SubstringTable * FactorTable)
    : Prop :=
  (forall s occs o, In (s, occs) (fst tables) -> In o occs -> genuine ct s o)
  /\ (forall n,
        match JsArray.get (snd tables) n with
        | Some e => frequency e = occurrencesWithGap n (fst tables)
                    /\ 1 <= frequency e
        | None => occurrencesWithGap n (fst tables) = 0
        end).

(** The number of upper-case letters of [text] in column [c], and the
    number of times the letter [l] stands in that column. *)
Definition lettersInColumn (columns : nat) (text : string) (c : nat) : nat :=
  List.length
    (filter (fun i => (i mod columns =? c) && matchesLetter (charAt text i))
            (seq 0 (String.length text))).

Definition occurrencesInColumn (columns : nat) (text : string) (c : nat)
    (l : string) : nat :=
  List.length
    (filter (fun i => (i mod columns =? c) && (charAt text i =? l)%string)
            (seq 0 (String.length text))).

(** The tally of column [c] after the first [m] positions of the text. *)
Definition tallyBelow (columns : nat) (text : string) (c m : nat) : Tally :=
  {| count :=
       map (fun lf =>
              (fst lf,
               List.length
                 (filter (fun i => (i mod columns =? c)
                                   && (charAt text i =? fst lf)%string)
                         (seq 0 m))))
           letterFrequencies;
     seen :=
       List.length
         (filter (fun i => (i mod columns =? c)
                           && matchesLetter (charAt text i))
                 (seq 0 m)) |}.

(** One term of the chi-squared sum. *)
Definition chiTerm (p : num) (expected : Q) : num :=
  div (pow2 (sub p (Fin expected))) (Fin expected).

(** The score that [smashKey] gives the letter [l] in column [c]: the
    score of that column of the working text decrypted under [l]. *)
Definition trialScore (e : Vigenere) (len : nat) (l : string) (c : nat)
    : num :=
  nth c (map score
             (frequencies e (Some len) (Some (fst (decrypt e (Some l))))))
      NaN.

(** The 26 candidates of column [c], in the order of the alphabet. *)
Definition trials (e : Vigenere) (len c : nat) : list Scored :=
  map (fun l => {| letter := l; letterScore := trialScore e len l c |})
      (map fst letterFrequencies).

(** The loop of [assemble] as a recursion over the columns and the
    choices that are still to be read. *)
Fixpoint pickAll (cols : list (list Scored)) (choices : list nat)
    (acc : string) : completion string :=
  match cols with
  | [] => Normal acc
  | col :: cols' =>
      match choices with
      | [] => Throw TypeError
      | choice :: choices' =>
          match nth_error col choice with
          | Some c => pickAll cols' choices' (acc ++ letter c)
          | None => Throw TypeError
          end
      end
  end.

(** A combination that [assemble] can read for a table of [len] columns:
    it has an index for every column, and each index is below 26. *)
Definition validCombination (len : nat) (combination : list nat) : bool :=
  (len <=? List.length combination)
  && forallb (fun i => i <? 26) (firstn len combination).

(** The keys of the frequency table: the alphabet. *)
Definition alphabet : list string := map fst letterFrequencies.

(** * Properties *)

(** ** Strings built by a loop *)

Section BuildFacts.

Lemma get_some_lt (s : string) (i : nat) (a : ascii) :
  String.get i s = Some a -> i < String.length s.
Proof.
  revert i; induction s as [|b r IH]; intros [|i] H; simpl in *;
    try discriminate; try lia.
  apply IH in H. lia.
Qed.

Lemma get_lt_some (s : string) (i : nat) :
  i < String.length s -> exists a, String.get i s = Some a.
Proof.
  revert i; induction s as [|b r IH]; intros [|i] H; simpl in *; try lia.
  - now exists b.
  - apply IH. lia.
Qed.

Lemma get_none_ge (s : string) (i : nat) :
  String.length s <= i -> String.get i s = None.
Proof.
  revert i; induction s as [|b r IH]; intros [|i] H; simpl in *;
    try reflexivity; try lia.
  apply IH. lia.
Qed.

Lemma string_length_app (s1 s2 : string) :
  String.length (s1 ++ s2) = String.length s1 + String.length s2.
Proof. induction s1; simpl; congruence. Qed.

Lemma get_app_left (s1 s2 : string) (i : nat) :
  i < String.length s1 -> String.get i (s1 ++ s2) = String.get i s1.
Proof.
  revert i; induction s1 as [|b r IH]; intros [|i] H; simpl in *;
    try lia; try reflexivity.
  apply IH. lia.
Qed.

Lemma get_app_right (s1 s2 : string) (i : nat) :
  String.get (String.length s1 + i) (s1 ++ s2) = String.get i s2.
Proof. induction s1; simpl; auto. Qed.

Lemma app_empty_r (s : string) : s ++ "" = s.
Proof. induction s; simpl; congruence. Qed.

Lemma app_assoc_str (a b c : string) : (a ++ b) ++ c = a ++ (b ++ c).
Proof. induction a; simpl; congruence. Qed.

Lemma charAt_length (s : string) (i : nat) :
  i < String.length s -> String.length (charAt s i) = 1.
Proof.
  intros H. unfold charAt. destruct (get_lt_some s i H) as [a ->].
  reflexivity.
Qed.

Lemma charAt_outside (s : string) (i : nat) :
  String.length s <= i -> charAt s i = "".
Proof. intros H. unfold charAt. now rewrite get_none_ge. Qed.

Lemma charAt_single (s : string) :
  String.length s = 1 -> charAt s 0 = s.
Proof. destruct s as [|a [|b r]]; simpl; try discriminate; reflexivity. Qed.

Lemma build_S (f : nat -> string) (n : nat) :
  build f (S n) = build f n ++ f n.
Proof.
  unfold build. rewrite seq_S, fold_left_app. reflexivity.
Qed.

Lemma build_length (f : nat -> string) (n : nat) :
  (forall i, i < n -> String.length (f i) = 1) ->
  String.length (build f n) = n.
Proof.
  induction n as [|n IH]; intros H; [reflexivity|].
  rewrite build_S, string_length_app, IH, H by auto. lia.
Qed.

Lemma charAt_build (f : nat -> string) (n i : nat) :
  (forall j, j < n -> String.length (f j) = 1) ->
  i < n -> charAt (build f n) i = f i.
Proof.
  induction n as [|n IH]; intros H Hi; [lia|].
  rewrite build_S. unfold charAt.
  destruct (Nat.eq_dec i n) as [->|Hne].
  - pose proof (build_length f n (fun j Hj => H j (Nat.lt_lt_succ_r _ _ Hj)))
      as Hlen.
    replace n with (String.length (build f n) + 0) at 1 by lia.
    rewrite get_app_right. apply (charAt_single (f n)). apply H. lia.
  - rewrite get_app_left.
    + apply IH; [intros; apply H|]; lia.
    + rewrite build_length; [lia|]. intros; apply H; lia.
Qed.

Lemma build_ext (f g : nat -> string) (n : nat) :
  (forall i, i < n -> f i = g i) -> build f n = build g n.
Proof.
  induction n as [|n IH]; intros H; [reflexivity|].
  rewrite !build_S, IH, H by auto. reflexivity.
Qed.

Lemma build_charAt (s : string) : build (charAt s) (String.length s) = s.
Proof.
  assert (G : forall p r, build (charAt (p ++ r)) (String.length p) = p).
  { intros p r. remember (String.length p) as n eqn:Hn.
    revert p r Hn. induction n as [|n IH]; intros p r Hn.
    - destruct p; [reflexivity|discriminate].
    - (* split the last character off [p] *)
      assert (exists q a, p = q ++ String a "" /\ String.length q = n)
        as (q & a & -> & Hq).
      { clear IH r. revert n Hn. induction p as [|b p IHp]; intros n Hn;
          [discriminate|].
        destruct p as [|c p'].
        - exists "", b. simpl in *. split; [reflexivity|lia].
        - destruct n as [|n]; [discriminate|].
          destruct (IHp n) as (q & a & Hqa & Hq); [simpl in *; lia|].
          exists (String b q), a. simpl. rewrite <- Hqa.
          split; [reflexivity|simpl; lia]. }
      rewrite build_S, app_assoc_str, (IH q) by auto.
      f_equal. unfold charAt.
      replace n with (String.length q + 0) by lia.
      rewrite get_app_right. reflexivity. }
  specialize (G s ""). now rewrite app_empty_r in G.
Qed.

End BuildFacts.

(** ** Alphabet arithmetic *)

Lemma code_range (a : ascii) : (0 <= code a < 256)%Z.
Proof.
  unfold code. pose proof (N_ascii_bounded a). lia.
Qed.

Lemma code_ascii_of (z : Z) :
  (0 <= z < 256)%Z -> code (ascii_of_N (Z.to_N z)) = z.
Proof.
  intros H. unfold code. rewrite N_ascii_embedding by lia. lia.
Qed.

Lemma code_inj (a b : ascii) : code a = code b -> a = b.
Proof.
  unfold code. intros H.
  rewrite <- (ascii_N_embedding a), <- (ascii_N_embedding b).
  f_equal. lia.
Qed.

Lemma isUpper_range (a : ascii) :
  isUpper a = true <-> (65 <= code a <= 90)%Z.
Proof. unfold isUpper. rewrite andb_true_iff, !Z.leb_le. tauto. Qed.

Lemma matchesLetter_inv (s : string) :
  matchesLetter s = true ->
  exists a, s = String a "" /\ isUpper a = true.
Proof.
  destruct s as [|a [|b r]]; simpl; try discriminate. intros H. now exists a.
Qed.

Lemma cyclicPlus_length (x c : string) :
  String.length (cyclicPlus x c) = String.length x.
Proof.
  unfold cyclicPlus. destruct (matchesLetter x) eqn:Hx; simpl; auto.
  destruct (matchesLetter c); auto.
  apply matchesLetter_inv in Hx as (a & -> & _). reflexivity.
Qed.

Lemma cyclicMinus_length (x c : string) :
  String.length (cyclicMinus x c) = String.length x.
Proof.
  unfold cyclicMinus. destruct (matchesLetter x) eqn:Hx; simpl; auto.
  destruct (matchesLetter c); auto.
  apply matchesLetter_inv in Hx as (a & -> & _). reflexivity.
Qed.

Lemma cyclicPlus_letters (a b : ascii) :
  isUpper a = true -> isUpper b = true ->
  exists y, cyclicPlus (single a) (single b) = single y
            /\ code y = ((index a + index b) mod 26 + 65)%Z.
Proof.
  intros Ha Hb. unfold cyclicPlus, single. simpl. rewrite Ha, Hb. simpl.
  apply isUpper_range in Ha, Hb.
  eexists. split; [reflexivity|].
  rewrite Z.rem_mod_nonneg by lia.
  unfold index.
  replace (code a + code b - 130)%Z with (code a - 65 + (code b - 65))%Z
    by lia.
  apply code_ascii_of.
  pose proof (Z.mod_pos_bound (code a - 65 + (code b - 65)) 26). lia.
Qed.

Lemma cyclicMinus_letters (a b : ascii) :
  isUpper a = true -> isUpper b = true ->
  exists y, cyclicMinus (single a) (single b) = single y
            /\ code y = ((index a - index b) mod 26 + 65)%Z.
Proof.
  intros Ha Hb. unfold cyclicMinus, single. simpl. rewrite Ha, Hb. simpl.
  apply isUpper_range in Ha, Hb.
  eexists. split; [reflexivity|].
  rewrite Z.rem_mod_nonneg by lia.
  unfold index.
  replace (code a - code b + 26)%Z
    with (code a - 65 - (code b - 65) + 1 * 26)%Z by lia.
  rewrite Z.mod_add by lia.
  apply code_ascii_of.
  pose proof (Z.mod_pos_bound (code a - 65 - (code b - 65)) 26). lia.
Qed.

(** C6: on two upper-case letters [cyclicPlus] and [cyclicMinus] return the
    letter at position (index x + index c) mod 26, respectively
    (index x - index c) mod 26, counting from A = 0; when either character
    is not an upper-case letter both return [x] unchanged.  Both are total:
    no input raises an error. *)
Theorem cyclic_arithmetic (x c : ascii) :
  cyclicPlus (single x) (single c)
  = (if isUpper x && isUpper c
     then single (letterAt ((index x + index c) mod 26))
     else single x)
  /\ cyclicMinus (single x) (single c)
     = (if isUpper x && isUpper c
        then single (letterAt ((index x - index c) mod 26))
        else single x).
Proof.
  destruct (isUpper x) eqn:Hx, (isUpper c) eqn:Hc; simpl;
    try (unfold cyclicPlus, cyclicMinus; simpl; rewrite Hx, ?Hc; simpl;
         now rewrite ?andb_false_r).
  destruct (cyclicPlus_letters x c Hx Hc) as (y & -> & Hy).
  destruct (cyclicMinus_letters x c Hx Hc) as (z & -> & Hz).
  split; unfold single, letterAt; f_equal; apply code_inj;
    rewrite code_ascii_of; auto.
  - pose proof (Z.mod_pos_bound (index x + index c) 26). lia.
  - pose proof (Z.mod_pos_bound (index x - index c) 26). lia.
Qed.

(** Anything that is not a single upper-case letter (the empty string that
    [charAt] returns past the end included) passes through. *)
Lemma cyclic_pass_through (x c : string) :
  matchesLetter x && matchesLetter c = false ->
  cyclicPlus x c = x /\ cyclicMinus x c = x.
Proof. intros H. unfold cyclicPlus, cyclicMinus. now rewrite H. Qed.

Lemma cyclicMinus_cyclicPlus (x c : string) :
  cyclicMinus (cyclicPlus x c) c = x.
Proof.
  destruct (matchesLetter x && matchesLetter c) eqn:H.
  - apply andb_true_iff in H as [Hx Hc].
    apply matchesLetter_inv in Hx as (a & -> & Ha).
    apply matchesLetter_inv in Hc as (b & -> & Hb).
    destruct (cyclicPlus_letters a b Ha Hb) as (y & Hy & Hcy).
    fold (single a) (single b). rewrite Hy.
    assert (Huy : isUpper y = true).
    { apply isUpper_range.
      pose proof (Z.mod_pos_bound (index a + index b) 26). lia. }
    destruct (cyclicMinus_letters y b Huy Hb) as (z & -> & Hz).
    unfold single. f_equal. apply code_inj. rewrite Hz.
    apply isUpper_range in Ha, Hb. unfold index in *. rewrite Hcy.
    replace ((code a - 65 + (code b - 65)) mod 26 + 65 - 65
             - (code b - 65))%Z
      with ((code a - 65 + (code b - 65)) mod 26 - (code b - 65))%Z by lia.
    rewrite Zminus_mod_idemp_l.
    replace (code a - 65 + (code b - 65) - (code b - 65))%Z
      with (code a - 65)%Z by lia.
    rewrite Z.mod_small by lia. lia.
  - destruct (cyclic_pass_through x c H) as [-> _].
    now destruct (cyclic_pass_through x c H) as [_ ->].
Qed.

(** ** Encryption and decryption of a text *)

Lemma combineAt_length op (text k : string) (i : nat) :
  (forall x c, String.length (op x c) = String.length x) ->
  i < String.length text ->
  String.length (combineAt op text k i) = 1.
Proof.
  intros Hop Hi. unfold combineAt. rewrite Hop. now apply charAt_length.
Qed.

Lemma encrypt_output (e : Vigenere) (k : option string) :
  let out := fst (encrypt e k) in
  String.length out = String.length (cryptotext e)
  /\ forall i, i < String.length (cryptotext e) ->
       charAt out i = combineAt cyclicPlus (cryptotext e) (orElse k (key e)) i.
Proof.
  simpl. split.
  - apply build_length. intros; apply combineAt_length; [apply cyclicPlus_length|assumption].
  - intros i Hi. apply charAt_build; auto.
    intros; apply combineAt_length; [apply cyclicPlus_length|assumption].
Qed.

Lemma decrypt_output (e : Vigenere) (k : option string) :
  let out := fst (decrypt e k) in
  String.length out = String.length (cryptotext e)
  /\ forall i, i < String.length (cryptotext e) ->
       charAt out i = combineAt cyclicMinus (cryptotext e) (orElse k (key e)) i.
Proof.
  simpl. split.
  - apply build_length. intros; apply combineAt_length; [apply cyclicMinus_length|assumption].
  - intros i Hi. apply charAt_build; auto.
    intros; apply combineAt_length; [apply cyclicMinus_length|assumption].
Qed.

(** Decrypting, under any key, the encryption of a text under that key
    gives the text back. *)
Lemma decrypt_encrypt_text (text k : string) :
  let c := build (combineAt cyclicPlus text k) (String.length text) in
  build (combineAt cyclicMinus c k) (String.length c) = text.
Proof.
  intros c.
  assert (Hlen : String.length c = String.length text).
  { apply build_length.
    intros; apply combineAt_length; [apply cyclicPlus_length|assumption]. }
  rewrite Hlen. transitivity (build (charAt text) (String.length text));
    [|apply build_charAt].
  apply build_ext. intros i Hi. unfold combineAt at 1.
  unfold c. rewrite charAt_build; auto.
  - unfold combineAt. apply cyclicMinus_cyclicPlus.
  - intros; apply combineAt_length; [apply cyclicPlus_length|assumption].
Qed.

(** ** Upper-casing *)

Lemma upperChar_other (a : ascii) :
  (code a < 97 \/ 122 < code a)%Z -> upperChar a = a.
Proof.
  intros H. unfold upperChar.
  destruct (97 <=? code a)%Z eqn:H1, (code a <=? 122)%Z eqn:H2; simpl; auto.
  apply Z.leb_le in H1, H2. lia.
Qed.

Lemma upperChar_idem (a : ascii) : upperChar (upperChar a) = upperChar a.
Proof.
  destruct (Z_le_dec 97 (code a)) as [H1|H1];
    [destruct (Z_le_dec (code a) 122) as [H2|H2]|].
  - apply upperChar_other. unfold upperChar.
    apply Z.leb_le in H1 as H1', H2 as H2'. rewrite H1', H2'. simpl.
    rewrite code_ascii_of; lia.
  - rewrite (upperChar_other a) by lia. apply upperChar_other. lia.
  - rewrite (upperChar_other a) by lia. apply upperChar_other. lia.
Qed.

Lemma upperChar_upper (a : ascii) : isUpper a = true -> upperChar a = a.
Proof.
  intros H. apply isUpper_range in H. apply upperChar_other. lia.
Qed.

Lemma toUpperCase_idem (s : string) :
  toUpperCase (toUpperCase s) = toUpperCase s.
Proof.
  induction s as [|a r IH]; simpl; [reflexivity|].
  now rewrite upperChar_idem, IH.
Qed.

Lemma toUpperCase_letters (k : string) :
  lettersOnly k = true -> toUpperCase k = k.
Proof.
  unfold lettersOnly. induction k as [|a r IH]; simpl; [reflexivity|].
  intros H. apply andb_true_iff in H as [Ha Hr].
  now rewrite upperChar_upper, IH.
Qed.

Lemma toUpperCase_length (s : string) :
  String.length (toUpperCase s) = String.length s.
Proof. induction s; simpl; congruence. Qed.

Lemma toUpperCase_app (a b : string) :
  toUpperCase (a ++ b) = toUpperCase a ++ toUpperCase b.
Proof. induction a; simpl; congruence. Qed.

Lemma toUpperCase_build (f : nat -> string) (n : nat) :
  toUpperCase (build f n) = build (fun i => toUpperCase (f i)) n.
Proof.
  induction n as [|n IH]; [reflexivity|].
  now rewrite !build_S, toUpperCase_app, IH.
Qed.

Lemma charAt_toUpperCase (s : string) (i : nat) :
  charAt (toUpperCase s) i = toUpperCase (charAt s i).
Proof.
  unfold charAt. revert i.
  induction s as [|a r IH]; intros [|i]; simpl; auto.
Qed.

(** Encrypting an upper-cased text gives a text that upper-casing leaves
    alone, so a second engine takes it as it is. *)
Lemma toUpperCase_encrypted (text k : string) :
  let u := toUpperCase text in
  let c := build (combineAt cyclicPlus u k) (String.length u) in
  toUpperCase c = c.
Proof.
  intros u c. unfold c. rewrite toUpperCase_build. apply build_ext.
  intros i _. unfold combineAt, cyclicPlus.
  destruct (matchesLetter (charAt u i) && matchesLetter _) eqn:H.
  - unfold fromCharCode. simpl. f_equal.
    apply andb_true_iff in H as [Hx Hc].
    apply matchesLetter_inv in Hx as (a & -> & Ha).
    apply matchesLetter_inv in Hc as (b & -> & Hb).
    simpl. apply isUpper_range in Ha, Hb.
    apply upperChar_upper, isUpper_range.
    rewrite Z.rem_mod_nonneg by lia.
    pose proof (Z.mod_pos_bound (code a + code b - 130) 26).
    rewrite code_ascii_of by lia. lia.
  - unfold u. now rewrite <- charAt_toUpperCase, toUpperCase_idem.
Qed.

Lemma orElse_nonempty (s d : string) : s <> "" -> orElse (Some s) d = s.
Proof.
  intros H. simpl. destruct (String.eqb_spec s ""); [contradiction|easy].
Qed.

Lemma orElse_undefined (d : string) : orElse None d = d.
Proof. reflexivity. Qed.

Lemma nonempty_length (s : string) : s <> "" <-> 0 < String.length s.
Proof. destruct s; simpl; split; intros; try easy; lia. Qed.

(** ** Round trip *)

(** C1, as stated, fails on the empty text: the constructor replaces a
    falsy text by a single space, so the round trip of the empty text
    is one space and not the empty text. *)
Lemma roundTrip_empty_text :
  "K" <> "" /\ lettersOnly "K" = true
  /\ roundTrip "" "K" = " " /\ roundTrip "" "K" <> toUpperCase "".
Proof. repeat split; try discriminate; reflexivity. Qed.

(** C1, amended: for every non-empty text T and every non-empty key K of
    upper-case letters, decrypting under K the text that encrypting T
    under K returned gives the upper-cased T; a character of the
    upper-cased T that is not a letter goes through the encryption
    unchanged, at its place.  It holds whether a second engine is built
    from the encrypted text or the first engine takes it by [setText]. *)
Theorem roundTrip_uppercase (T K : string) :
  T <> "" -> K <> "" -> lettersOnly K = true ->
  roundTrip T K = toUpperCase T
  /\ roundTripSetText T K = toUpperCase T
  /\ (forall i, matchesLetter (charAt (toUpperCase T) i) = false ->
        charAt (fst (encrypt (newVigenere (Some T) (Some K)) None)) i
        = charAt (toUpperCase T) i).
Proof.
  intros HT HK HL.
  assert (Hk : toUpperCase (orElse (Some K) " ") = K).
  { rewrite orElse_nonempty by assumption. now apply toUpperCase_letters. }
  assert (Ht : orElse (Some T) " " = T) by now apply orElse_nonempty.
  set (u := toUpperCase T).
  set (c := build (combineAt cyclicPlus u K) (String.length u)).
  assert (Hc : c <> "").
  { apply nonempty_length. unfold c. rewrite build_length.
    - unfold u. rewrite toUpperCase_length. now apply nonempty_length.
    - intros; apply combineAt_length; [apply cyclicPlus_length|assumption]. }
  repeat split.
  - unfold roundTrip, encrypt, decrypt, newVigenere.
    cbn [fst key cryptotext]. rewrite !orElse_undefined.
    rewrite Hk, Ht. fold u. fold c.
    rewrite (orElse_nonempty c " " Hc).
    unfold c, u. rewrite toUpperCase_encrypted.
    apply decrypt_encrypt_text.
  - unfold roundTripSetText, encrypt, decrypt, setText, newVigenere.
    cbn [fst key cryptotext]. rewrite Ht. fold u.
    rewrite (orElse_nonempty K _ HK). fold c.
    apply decrypt_encrypt_text.
  - intros i Hi. unfold encrypt, newVigenere. cbn [fst key cryptotext].
    rewrite orElse_undefined, Hk, Ht. fold u.
    destruct (Nat.lt_ge_cases i (String.length u)) as [Hlt|Hge].
    + rewrite charAt_build; auto.
      * unfold combineAt. apply cyclic_pass_through. now rewrite Hi.
      * intros; apply combineAt_length; [apply cyclicPlus_length|assumption].
    + rewrite !charAt_outside; auto. rewrite build_length; auto.
      intros; apply combineAt_length; [apply cyclicPlus_length|assumption].
Qed.

Lemma roundTrip_uppercase_witness :
  roundTrip "Attack at dawn!" "LEMON" = "ATTACK AT DAWN!".
Proof.
  apply (roundTrip_uppercase "Attack at dawn!" "LEMON");
    [discriminate | discriminate | reflexivity].
Defined.

(** ** What encrypt and decrypt read *)

(** C10: what [encrypt] and [decrypt] return depends on the working text
    and on the key in use only: two engines that agree on them, whatever
    their stored plaintext and ciphertext, return the same texts.  So
    [decrypt(k)] after [encrypt(k)] on one engine returns the working text
    shifted down by the key, character by character, and not the working
    text: wherever a letter of the working text meets a key letter other
    than A the two differ. *)
Theorem working_text_only (e1 e2 : Vigenere) (k : option string) :
  cryptotext e1 = cryptotext e2 -> key e1 = key e2 ->
  let K := orElse k (key e1) in
  let after := fst (decrypt (snd (encrypt e1 k)) k) in
  fst (encrypt e1 k) = fst (encrypt e2 k)
  /\ fst (decrypt e1 k) = fst (decrypt e2 k)
  /\ after = fst (decrypt e2 k)
  /\ (forall i, i < String.length (cryptotext e1) ->
        charAt after i
        = cyclicMinus (charAt (cryptotext e1) i)
                      (charAt K (i mod String.length K)))
  /\ (forall i a b,
        String.get i (cryptotext e1) = Some a -> isUpper a = true ->
        String.get (i mod String.length K) K = Some b -> isUpper b = true ->
        b <> "A"%char ->
        after <> cryptotext e1).
Proof.
  intros Ht Hk K after.
  assert (Hafter : after = fst (decrypt e1 k)) by reflexivity.
  assert (Hchar : forall i, i < String.length (cryptotext e1) ->
            charAt after i
            = cyclicMinus (charAt (cryptotext e1) i)
                          (charAt K (i mod String.length K))).
  { intros i Hi. rewrite Hafter.
    now destruct (decrypt_output e1 k) as [_ ->]. }
  repeat split.
  - unfold encrypt. cbn [fst]. now rewrite Ht, Hk.
  - unfold decrypt. cbn [fst]. now rewrite Ht, Hk.
  - rewrite Hafter. unfold decrypt. cbn [fst]. now rewrite Ht, Hk.
  - exact Hchar.
  - intros i a b Ha Hua Hb Hub HbA Heq.
    pose proof (get_some_lt _ _ _ Ha) as Hi.
    specialize (Hchar i Hi). rewrite Heq in Hchar.
    unfold charAt in Hchar. rewrite Ha, Hb in Hchar.
    destruct (cyclicMinus_letters a b Hua Hub) as (y & Hy & Hcy).
    unfold single in Hy. rewrite Hy in Hchar.
    injection Hchar as <-.
    apply isUpper_range in Hua, Hub.
    assert (code b <> 65%Z).
    { intros Hc. apply HbA. apply code_inj. exact Hc. }
    unfold index in Hcy.
    assert ((code a - 65 - (code b - 65)) mod 26 = code a - 65)%Z as Hm by lia.
    clear Hcy. revert Hm. generalize (code a) (code b) Hua Hub H.
    intros x y' Hx Hy' Hne. Z.div_mod_to_equations. lia.
Qed.

Lemma working_text_only_witness :
  fst (encrypt (mkVigenere "B" "HELLO" None None) None)
  = fst (encrypt (mkVigenere "B" "HELLO" (Some "x") (Some "y")) None)
  /\ fst (decrypt (snd (encrypt (mkVigenere "B" "HELLO" None None) None)) None)
     = "GDKKN"
  /\ fst (decrypt (snd (encrypt (mkVigenere "B" "HELLO" None None) None)) None)
     <> "HELLO".
Proof.
  destruct (working_text_only (mkVigenere "B" "HELLO" None None)
              (mkVigenere "B" "HELLO" (Some "x") (Some "y")) None
              eq_refl eq_refl)
    as (H1 & _ & H3 & _ & H5).
  split; [exact H1|]. split; [exact H3|].
  apply (H5 0 "H"%char "B"%char); try reflexivity. discriminate.
Defined.

(** ** Arrays with holes *)

Section ArrayFacts.

Context {A : Type}.
Implicit Types (arr : JsArray.t A) (i j : nat) (v : A).

Lemma get_nil i : JsArray.get (@nil (option A)) i = None.
Proof. unfold JsArray.get. now destruct i. Qed.

Lemma get_cons x arr i :
  JsArray.get (x :: arr) (S i) = JsArray.get arr i.
Proof. reflexivity. Qed.

Lemma get_set_same arr i v : JsArray.get (JsArray.set arr i v) i = Some v.
Proof.
  revert arr; induction i as [|i IH]; intros [|x r]; simpl; auto.
  - rewrite get_cons. apply IH.
  - rewrite get_cons. apply IH.
Qed.

Lemma get_set_other arr i j v :
  i <> j -> JsArray.get (JsArray.set arr i v) j = JsArray.get arr j.
Proof.
  revert arr j; induction i as [|i IH]; intros [|x r] [|j] H; simpl;
    try congruence; try reflexivity.
  - now rewrite get_cons, get_nil.
  - rewrite get_cons, IH by congruence. now rewrite !get_nil.
  - rewrite !get_cons. apply IH. congruence.
Qed.

Lemma in_entriesFrom base arr j v :
  In (j, v) (JsArray.entriesFrom base arr)
  <-> base <= j /\ JsArray.get arr (j - base) = Some v.
Proof.
  revert base; induction arr as [|x r IH]; intros base; simpl.
  - rewrite get_nil. split; [tauto|]. intros [_ H]. discriminate.
  - assert (Hr : In (j, v) (JsArray.entriesFrom (S base) r)
                 <-> base <= j /\ base <> j
                     /\ JsArray.get (x :: r) (j - base) = Some v).
    { rewrite IH. split.
      - intros [H1 H2]. repeat split; try lia.
        replace (j - base) with (S (j - S base)) by lia. exact H2.
      - intros (H1 & H2 & H3). split; [lia|].
        replace (j - base) with (S (j - S base)) in H3 by lia. exact H3. }
    destruct x as [w|]; simpl; rewrite Hr.
    + split.
      * intros [H|H]; [|tauto]. injection H as -> ->.
        split; [lia|]. now rewrite Nat.sub_diag.
      * intros [H1 H2]. destruct (Nat.eq_dec base j) as [->|Hne].
        -- rewrite Nat.sub_diag in H2. injection H2 as ->. now left.
        -- right. tauto.
    + split; [tauto|]. intros [H1 H2]. repeat split; auto.
      intros ->. rewrite Nat.sub_diag in H2. discriminate.
Qed.

Lemma in_entries arr j v :
  In (j, v) (JsArray.entries arr) <-> JsArray.get arr j = Some v.
Proof.
  unfold JsArray.entries. rewrite in_entriesFrom, Nat.sub_0_r.
  split; [tauto|]. intros H; split; [lia|exact H].
Qed.

Lemma in_keys arr j :
  In j (JsArray.keys arr) <-> exists v, JsArray.get arr j = Some v.
Proof.
  unfold JsArray.keys. rewrite in_map_iff. split.
  - intros ([k v] & <- & H). exists v. now apply in_entries.
  - intros [v H]. exists (j, v). split; [reflexivity|now apply in_entries].
Qed.

Lemma in_values arr v :
  In v (JsArray.values arr) <-> exists j, JsArray.get arr j = Some v.
Proof.
  unfold JsArray.values. rewrite in_map_iff. split.
  - intros ([k w] & <- & H). exists k. now apply in_entries.
  - intros [j H]. exists (j, v). split; [reflexivity|now apply in_entries].
Qed.

Lemma in_keys_set arr i j v :
  In j (JsArray.keys (JsArray.set arr i v))
  <-> j = i \/ In j (JsArray.keys arr).
Proof.
  rewrite !in_keys. destruct (Nat.eq_dec i j) as [->|Hne].
  - rewrite get_set_same. split; eauto.
  - rewrite get_set_other by assumption. split; [tauto|].
    intros [->|H]; [contradiction|exact H].
Qed.

(** The indices come out in strictly ascending order. *)
Lemma keysFrom_sorted base arr :
  StronglySorted lt (map fst (JsArray.entriesFrom base arr))
  /\ Forall (fun k => base <= k) (map fst (JsArray.entriesFrom base arr)).
Proof.
  revert base; induction arr as [|x r IH]; intros base; simpl.
  - split; constructor.
  - destruct (IH (S base)) as [Hs Hb].
    assert (Hb' : Forall (fun k => base <= k)
                    (map fst (JsArray.entriesFrom (S base) r))).
    { eapply Forall_impl; [|exact Hb]. simpl. intros; lia. }
    destruct x as [w|]; simpl; [|now split].
    split; constructor; auto;
      try (eapply Forall_impl; [|exact Hb]; simpl; intros; lia).
Qed.

Lemma keys_sorted arr : StronglySorted lt (JsArray.keys arr).
Proof. apply keysFrom_sorted. Qed.

End ArrayFacts.

Lemma sorted_lt_NoDup (l : list nat) : StronglySorted lt l -> NoDup l.
Proof.
  induction 1 as [|x l Hs IH Hx]; constructor; auto.
  intros Hin. rewrite Forall_forall in Hx. specialize (Hx x Hin). lia.
Qed.

(** ** The factor table *)

Lemma factorsOf_listed (n i : nat) :
  In i (JsArray.keys (factorsOf n))
  <-> 2 <= i /\ i * i <= n /\ n mod i = 0.
Proof.
  unfold factorsOf.
  assert (G : forall l fl,
             In i (JsArray.keys
                     (fold_left (fun fl i => if n mod i =? 0
                                             then JsArray.set fl i true
                                             else fl) l fl))
             <-> In i (JsArray.keys fl) \/ (In i l /\ n mod i = 0)).
  { induction l as [|j l IH]; intros fl; simpl; [tauto|].
    rewrite IH. destruct (Nat.eqb_spec (n mod j) 0) as [Hj|Hj].
    - rewrite in_keys_set. split.
      + intros [[->|H]|[H1 H2]]; auto.
      + intros [H|[[->|H1] H2]]; auto.
    - split.
      + intros [H|[H1 H2]]; auto.
      + intros [H|[[->|H1] H2]]; auto. contradiction. }
  rewrite G, in_seq. simpl. rewrite Nat.sqrt_le_square.
  split.
  - intros [[]|[[H1 H2] H3]]. repeat split; auto; lia.
  - intros (H1 & H2 & H3). right. split; [lia|exact H3].
Qed.

Lemma factorGap_get (n : nat) (ft : FactorTable) (m : nat) (e : FactorEntry) :
  JsArray.get (factorGap n ft) m = Some e ->
  (m <> n /\ JsArray.get ft m = Some e)
  \/ (m = n /\ factorList e = factorsOf n /\ JsArray.get ft n = None
      /\ frequency e = 1)
  \/ (m = n /\ exists e0, JsArray.get ft n = Some e0
                          /\ factorList e = factorList e0
                          /\ frequency e = S (frequency e0)).
Proof.
  unfold factorGap. intros H.
  destruct (Nat.eq_dec n m) as [->|Hne].
  - destruct (JsArray.get ft m) as [e0|] eqn:H0;
      rewrite get_set_same in H; injection H as <-.
    + right; right. split; [reflexivity|]. now exists e0.
    + right; left. auto.
  - left. split; [congruence|].
    destruct (JsArray.get ft n); now rewrite get_set_other in H.
Qed.

(** C7: in a factor table built by [factorGap], the factor list of every
    recorded gap n holds exactly the integers i with 2 <= i, i * i <= n
    (that is i <= sqrt n) that divide n; so 1 is never listed, n itself is
    never listed, and no factor above the square root of n is listed. *)
Theorem factor_lists_exact (ft : FactorTable) (n : nat) (e : FactorEntry) :
  Recorded ft -> JsArray.get ft n = Some e ->
  (forall i, listed e i <-> 2 <= i /\ i * i <= n /\ n mod i = 0)
  /\ ~ listed e 1
  /\ ~ listed e n
  /\ (forall j, n < j * j -> ~ listed e j).
Proof.
  intros Hrec Hget.
  assert (Hall : forall i, listed e i <-> 2 <= i /\ i * i <= n /\ n mod i = 0).
  { revert n e Hget. induction Hrec as [|g ft Hrec IH]; intros n e Hget.
    - rewrite get_nil in Hget. discriminate.
    - intros i. unfold listed.
      destruct (factorGap_get g ft n e Hget)
        as [[_ H]|[(-> & Hfl & _)|(-> & e0 & H0 & Hfl & _)]].
      + now apply IH.
      + rewrite Hfl. apply factorsOf_listed.
      + rewrite Hfl. now apply IH. }
  split; [exact Hall|]. repeat split.
  - rewrite Hall. lia.
  - rewrite Hall. intros (H1 & H2 & _). nia.
  - intros j Hj. rewrite Hall. lia.
Qed.

Lemma factor_lists_exact_witness :
  listed {| frequency := 1; factorList := factorsOf 12 |} 3
  /\ ~ listed {| frequency := 1; factorList := factorsOf 12 |} 4
  /\ ~ listed {| frequency := 1; factorList := factorsOf 12 |} 6.
Proof.
  assert (Hrec : Recorded (factorGap 12 (factorGap 4 [])))
    by (do 2 constructor; constructor).
  destruct (factor_lists_exact (factorGap 12 (factorGap 4 [])) 12
              {| frequency := 1; factorList := factorsOf 12 |}
              Hrec eq_refl) as (Hall & _ & _ & Hbig).
  split; [|split].
  - apply Hall. repeat split; simpl; lia.
  - apply Hbig. simpl. lia.
  - apply Hbig. simpl. lia.
Defined.

(** ** Loops *)

Lemma forEach_invariant {I S : Type} (P : S -> Prop) (xs : list I)
    (body : I -> S -> completion S) (s s' : S) :
  (forall i t t', In i xs -> P t -> body i t = Normal t' -> P t') ->
  P s -> forEach xs body s = Normal s' -> P s'.
Proof.
  revert s; induction xs as [|i r IH]; intros s Hb Hs H; simpl in H.
  - now injection H as <-.
  - destruct (body i s) as [t| |] eqn:Hi; simpl in H; try discriminate.
    apply (IH t); auto.
    + intros j u u' Hj. apply Hb. now right.
    + apply (Hb i s t); auto. now left.
Qed.

Lemma forEach_terminates {I S : Type} (xs : list I)
    (body : I -> S -> completion S) (s : S) :
  (forall i t, In i xs -> body i t <> Diverge) ->
  forEach xs body s <> Diverge.
Proof.
  revert s; induction xs as [|i r IH]; intros s Hb; simpl; [discriminate|].
  destruct (body i s) as [t| |] eqn:Hi; simpl; try discriminate.
  - apply IH. intros j u Hj. apply Hb. now right.
  - exfalso. apply (Hb i s); auto. now left.
Qed.

(** ** The search for recurring substrings *)

Lemma prefix_length (t s : string) :
  String.prefix t s = true -> String.length t <= String.length s.
Proof.
  revert s; induction t as [|a t IH]; intros [|b s] H; simpl in *;
    try lia; try discriminate.
  destruct (ascii_dec a b); [|discriminate]. apply IH in H. lia.
Qed.

Lemma indexOfFrom_bounds (t s : string) (pos skip n : nat) :
  indexOfFrom t s pos skip = Some n ->
  pos + Nat.min skip (String.length s) <= n
  /\ n + String.length t <= pos + String.length s.
Proof.
  revert pos skip; induction s as [|b s IH]; intros pos skip H.
  - destruct skip, t; simpl in H; try discriminate;
      injection H as <-; simpl; lia.
  - destruct skip as [|skip].
    + cbn [indexOfFrom] in H.
      destruct (String.prefix t (String b s)) eqn:Hp.
      * injection H as <-. apply prefix_length in Hp. simpl in *. lia.
      * apply IH in H. simpl in *. lia.
    + cbn [indexOfFrom] in H. apply IH in H. simpl in *. lia.
Qed.

Lemma indexOf_bounds (s t : string) (from n : nat) :
  indexOf s t from = Some n ->
  Nat.min from (String.length s) <= n
  /\ n + String.length t <= String.length s.
Proof. intros H. apply indexOfFrom_bounds in H. lia. Qed.

(** The fuel of the [do ... while] loop is enough: every round moves the
    search index forward. *)
Lemma chain_terminates (fuel : nat) (ct candidate : string)
    (k startIndex searchIndex : nat) tables :
  String.length candidate = k -> 1 <= k ->
  String.length ct <= fuel + searchIndex ->
  chain fuel ct candidate k startIndex searchIndex tables <> Diverge.
Proof.
  intros Hk Hk1. revert searchIndex tables.
  induction fuel as [|fuel IH]; intros searchIndex tables Hf; simpl.
  - destruct (indexOf ct candidate searchIndex) as [n|] eqn:Hi;
      [|discriminate].
    apply indexOf_bounds in Hi. lia.
  - destruct (indexOf ct candidate searchIndex) as [n|] eqn:Hi;
      [|discriminate].
    apply indexOf_bounds in Hi. unfold record.
    destruct (inherited candidate); simpl; [discriminate|].
    apply IH. lia.
Qed.

Lemma substring_length (s : string) (a k : nat) :
  a + k <= String.length s -> String.length (substring s a (a + k)) = k.
Proof.
  intros H. unfold substring.
  rewrite (Nat.min_l a) by lia. rewrite (Nat.min_l (a + k)) by lia.
  rewrite Nat.min_l, Nat.max_r by lia.
  replace (a + k - a) with k by lia.
  revert a k H. induction s as [|b s IH]; intros a k H; simpl in *.
  - destruct a, k; simpl in *; try reflexivity; lia.
  - destruct a as [|a]; simpl.
    + destruct k as [|k]; [reflexivity|]. simpl. f_equal.
      apply (IH 0 k). simpl. lia.
    + apply IH. lia.
Qed.

Lemma recurrenceSearch_terminates (ct : string) :
  recurrenceSearch ct <> Diverge.
Proof.
  unfold recurrenceSearch. apply forEach_terminates.
  intros k tables Hk. apply in_seq in Hk.
  apply forEach_terminates. intros startIndex tables' Hs. apply in_seq in Hs.
  apply chain_terminates; try lia.
  apply substring_length. lia.
Qed.

Lemma chain_Recorded (fuel : nat) (ct candidate : string)
    (k startIndex searchIndex : nat) tables tables' :
  Recorded (snd tables) ->
  chain fuel ct candidate k startIndex searchIndex tables = Normal tables' ->
  Recorded (snd tables').
Proof.
  revert searchIndex tables.
  induction fuel as [|fuel IH]; intros searchIndex tables Hr H; simpl in H;
    destruct (indexOf ct candidate searchIndex) as [n|];
    try (injection H as <-; exact Hr);
    destruct (record candidate _ (fst tables)); simpl in H;
    try discriminate.
  eapply IH; [|exact H]. simpl. now constructor.
Qed.

(** The factor table that the search returns is built by [factorGap]. *)
Lemma recurrenceSearch_Recorded (ct : string) st ft :
  recurrenceSearch ct = Normal (st, ft) -> Recorded ft.
Proof.
  unfold recurrenceSearch. intros H.
  change ft with (snd (st, ft)).
  eapply (forEach_invariant (fun t => Recorded (snd t))); [| |exact H].
  - intros k t t' _ Ht Hk.
    eapply (forEach_invariant (fun t => Recorded (snd t))); [|exact Ht|exact Hk].
    intros i u u' _ Hu Hc. simpl in Hc.
    exact (chain_Recorded _ _ _ _ _ _ _ _ Hu Hc).
  - constructor.
Qed.

(** ** Aggregating the factors *)

Lemma fold_left_flat_map {A B C : Type} (f : A -> C -> A) (g : B -> list C)
    (l : list B) (a : A) :
  fold_left f (flat_map g l) a
  = fold_left (fun a x => fold_left f (g x) a) l a.
Proof.
  revert a; induction l as [|x l IH]; intros a; simpl; [reflexivity|].
  now rewrite fold_left_app, IH.
Qed.

Lemma tally_visits (ft : FactorTable) :
  tally ft
  = fold_left (fun rk p => countFactor (fst p) (snd p) rk) (visits ft)
              emptyRanking.
Proof.
  unfold tally, visits. rewrite fold_left_flat_map.
  fold emptyRanking. generalize emptyRanking.
  induction (JsArray.entries ft) as [|ge l IH]; intros rk; simpl;
    [reflexivity|].
  rewrite IH. f_equal.
  generalize (JsArray.keys (factorList (snd ge))). clear.
  intros ks. revert rk. induction ks as [|k ks IH]; intros rk; simpl; auto.
Qed.

Lemma weightAfter_snoc done p f :
  weightAfter (done ++ [p]) f
  = weightAfter done f + (if f =? snd p then fst p else 0).
Proof.
  unfold weightAfter. rewrite map_app, list_sum_app. simpl. lia.
Qed.

Lemma weightAfter_unseen done f :
  ~ In f (map snd done) -> weightAfter done f = 0.
Proof.
  unfold weightAfter. induction done as [|p l IH]; simpl; [reflexivity|].
  intros H. destruct (Nat.eqb_spec f (snd p)) as [->|Hne].
  - exfalso. apply H. now left.
  - rewrite IH; [reflexivity|]. intros Hin. apply H. now right.
Qed.

Lemma deref_addWeight_same store r f :
  r < List.length store ->
  deref (addWeight store r f) r
  = {| factor := factor (deref store r);
       weight := weight (deref store r) + f |}.
Proof.
  unfold deref. revert r; induction store as [|c rest IH]; intros [|r] H;
    simpl in *; try lia; try reflexivity.
  apply IH. lia.
Qed.

Lemma deref_addWeight_other store r r' f :
  r <> r' -> deref (addWeight store r f) r' = deref store r'.
Proof.
  unfold deref. revert r r'; induction store as [|c rest IH];
    intros [|r] [|r'] H; simpl in *; try congruence; try reflexivity.
  apply IH. congruence.
Qed.

Lemma length_addWeight store r f :
  List.length (addWeight store r f) = List.length store.
Proof.
  revert r; induction store as [|c rest IH]; intros [|r]; simpl; auto.
Qed.

Lemma countFactor_inv done rk freq fac :
  TallyInv done rk ->
  TallyInv (done ++ [(freq, fac)]) (countFactor freq fac rk).
Proof.
  intros [Hsh Hobj Hseen]. unfold countFactor.
  destruct (JsArray.get (candidateFreqs rk) fac) as [r0|] eqn:Hget.
  - (* the factor has its object already *)
    destruct (Hobj fac r0 Hget) as [Hr0 Hd0].
    constructor; cbn [objects candidateFreqs frequencyRanks].
    + exact Hsh.
    + intros f r Hf. destruct (Hobj f r Hf) as [Hr Hd].
      rewrite length_addWeight. split; [exact Hr|].
      rewrite weightAfter_snoc. cbn [fst snd].
      destruct (Nat.eq_dec r0 r) as [->|Hne].
      * rewrite deref_addWeight_same by assumption. rewrite Hd. cbn.
        assert (f = fac) as ->.
        { rewrite Hd in Hd0. now injection Hd0. }
        now rewrite Nat.eqb_refl.
      * rewrite deref_addWeight_other by assumption. rewrite Hd.
        destruct (Nat.eqb_spec f fac) as [->|_]; [|f_equal; lia].
        rewrite Hget in Hf. congruence.
    + intros f. rewrite Hseen, map_app, in_app_iff. cbn. split; [tauto|].
      intros [H|[<-|[]]]; [exact H|]. apply Hseen. eauto.
  - (* a new object, referenced from both arrays *)
    assert (Hnew : ~ In fac (map snd done)).
    { intros Hin. apply Hseen in Hin as [r Hr]. congruence. }
    constructor; cbn [objects candidateFreqs frequencyRanks].
    + now rewrite Hsh.
    + intros f r Hf. rewrite List.length_app, weightAfter_snoc. cbn [fst snd].
      unfold deref in *.
      destruct (Nat.eq_dec fac f) as [->|Hne].
      * rewrite get_set_same in Hf. injection Hf as <-.
        split; [simpl; lia|].
        rewrite app_nth2, Nat.sub_diag by lia. cbn.
        rewrite Nat.eqb_refl, weightAfter_unseen by assumption.
        reflexivity.
      * rewrite get_set_other in Hf by assumption.
        destruct (Hobj f r Hf) as [Hr Hd]. split; [lia|].
        rewrite app_nth1 by assumption. rewrite Hd.
        destruct (Nat.eqb_spec f fac) as [->|_]; [congruence|f_equal; lia].
    + intros f. rewrite map_app, in_app_iff. cbn.
      destruct (Nat.eq_dec fac f) as [->|Hne].
      * rewrite get_set_same. split; eauto.
      * rewrite get_set_other by assumption. rewrite Hseen.
        split; [tauto|]. intros [H|[H|[]]]; [exact H|contradiction].
Qed.

Lemma tally_inv (ft : FactorTable) : TallyInv (visits ft) (tally ft).
Proof.
  rewrite tally_visits.
  assert (G : forall todo done rk,
             TallyInv done rk ->
             TallyInv (done ++ todo)
               (fold_left (fun rk p => countFactor (fst p) (snd p) rk)
                          todo rk)).
  { induction todo as [|[freq fac] todo IH]; intros done rk H; simpl.
    - now rewrite app_nil_r.
    - replace (done ++ (freq, fac) :: todo)%list
        with ((done ++ [(freq, fac)]) ++ todo)%list
        by now rewrite <- app_assoc.
      apply IH. now apply countFactor_inv. }
  apply (G (visits ft) [] emptyRanking).
  constructor; cbn; auto.
  - intros f r H. rewrite get_nil in H. discriminate.
  - intros f. split; [|intros []]. intros [r H].
    rewrite get_nil in H. discriminate.
Qed.

Lemma existsb_eqb_In (f : nat) (l : list nat) :
  existsb (Nat.eqb f) l = true <-> In f l.
Proof.
  rewrite existsb_exists. split.
  - intros (x & Hx & He). apply Nat.eqb_eq in He. now subst.
  - intros H. exists f. split; [exact H|apply Nat.eqb_refl].
Qed.

Lemma weight_of_keys (freq f : nat) (ks : list nat) :
  NoDup ks ->
  list_sum (map (fun p : nat * nat => if f =? snd p then fst p else 0)
                (map (fun fac => (freq, fac)) ks))
  = if existsb (Nat.eqb f) ks then freq else 0.
Proof.
  induction 1 as [|k ks Hk Hnd IH]; simpl; [reflexivity|].
  rewrite IH. destruct (Nat.eqb_spec f k) as [->|Hne]; simpl; [|reflexivity].
  destruct (existsb (Nat.eqb k) ks) eqn:He; [|lia].
  apply existsb_eqb_In in He. contradiction.
Qed.

(** The weight a factor has after all visits is its aggregate frequency. *)
Lemma weightAfter_visits (ft : FactorTable) (f : nat) :
  weightAfter (visits ft) f = aggregateFrequency ft f.
Proof.
  unfold weightAfter, visits, aggregateFrequency.
  induction (JsArray.entries ft) as [|ge l IH]; simpl; [reflexivity|].
  rewrite map_app, list_sum_app, IH, weight_of_keys; [reflexivity|].
  apply sorted_lt_NoDup, keys_sorted.
Qed.

Lemma visits_candidates (ft : FactorTable) (f : nat) :
  In f (map snd (visits ft)) <-> candidateFactor ft f.
Proof.
  unfold visits, candidateFactor, listed. rewrite in_map_iff. split.
  - intros ([freq g] & Hg & Hin). simpl in Hg. subst g.
    apply in_flat_map in Hin as ([n e] & Hne & Hin).
    apply in_map_iff in Hin as (fac & Heq & Hfac).
    injection Heq as _ ->. exists n, e. split; [|exact Hfac].
    now apply in_entries.
  - intros (n & e & Hget & Hl). exists (frequency e, f). split; [reflexivity|].
    apply in_flat_map. exists (n, e). split; [now apply in_entries|].
    apply in_map_iff. now exists f.
Qed.

(** ** Sorting *)

Lemma insert_perm_any {A : Type} (after : A -> A -> bool) (x : A)
    (l : list A) :
  Permutation (JsArray.insert after x l) (x :: l).
Proof.
  induction l as [|y l IH]; simpl; [reflexivity|].
  destruct (after x y); [|reflexivity].
  rewrite IH. apply perm_swap.
Qed.

Lemma sortList_perm_any {A : Type} (after : A -> A -> bool) (l : list A) :
  Permutation (JsArray.sortList after l) l.
Proof.
  induction l as [|x l IH]; simpl; [reflexivity|].
  rewrite insert_perm_any. now constructor.
Qed.

(** Sorting with a comparison that is a total preorder on the elements
    that satisfy [P] sorts the lists of such elements. *)
Lemma sortList_sorted_by {A : Type} (after : A -> A -> bool)
    (le : A -> A -> Prop) (P : A -> Prop) (l : list A) :
  (forall x y, P x -> P y -> after x y = true -> le y x) ->
  (forall x y, P x -> P y -> after x y = false -> le x y) ->
  (forall x y z, P x -> P y -> P z -> le x y -> le y z -> le x z) ->
  Forall P l -> StronglySorted le (JsArray.sortList after l).
Proof.
  intros Hgt Hle Htrans. induction 1 as [|x l Hx Hl IH]; simpl;
    [constructor|].
  assert (Hs : Forall P (JsArray.sortList after l))
    by now rewrite (sortList_perm_any after l).
  revert IH Hs. generalize (JsArray.sortList after l). clear l Hl.
  intros s. induction s as [|y s IHs]; intros Hsorted HP; simpl.
  - repeat constructor.
  - inversion Hsorted as [|? ? Hs' Hy]; subst.
    inversion HP as [|? ? Py Ps]; subst.
    destruct (after x y) eqn:Ha.
    + constructor; [now apply IHs|].
      rewrite (insert_perm_any after x s). constructor; [|exact Hy].
      now apply Hgt.
    + constructor; [now constructor|].
      assert (Hxy : le x y) by now apply Hle.
      constructor; [exact Hxy|].
      rewrite Forall_forall in Hy, Ps |- *. intros z Hz.
      apply (Htrans x y z); auto.
Qed.

Section SortFacts.

Context {A : Type} (w p : A -> nat).

Lemma insert_perm (x : A) (l : list A) :
  Permutation (JsArray.insert (lighterThan w) x l) (x :: l).
Proof.
  induction l as [|y l IH]; simpl; [reflexivity|].
  destruct (lighterThan w x y); [|reflexivity].
  rewrite IH. apply perm_swap.
Qed.

Lemma sortList_perm (l : list A) :
  Permutation (JsArray.sortList (lighterThan w) l) l.
Proof.
  induction l as [|x l IH]; simpl; [reflexivity|].
  rewrite insert_perm. now constructor.
Qed.

Lemma insert_sorted (x : A) (l : list A) :
  StronglySorted (heavierFirst w p) l ->
  Forall (fun y => p x < p y) l ->
  StronglySorted (heavierFirst w p) (JsArray.insert (lighterThan w) x l).
Proof.
  induction 1 as [|y l Hs IH Hy]; intros Hp; simpl.
  - repeat constructor.
  - inversion Hp as [|? ? Hpy Hpl]; subst.
    unfold lighterThan at 1.
    destruct (Nat.ltb_spec (w x) (w y)) as [Hlt|Hge].
    + constructor; [now apply IH|].
      rewrite (insert_perm x l). constructor; [|exact Hy].
      left. exact Hlt.
    + constructor; [now constructor|].
      assert (Hxy : heavierFirst w p x y).
      { unfold heavierFirst.
        destruct (Nat.eq_dec (w x) (w y)); [right|left]; auto; lia. }
      constructor; [exact Hxy|].
      rewrite Forall_forall in Hy, Hpl |- *. intros z Hz.
      specialize (Hy z Hz). specialize (Hpl z Hz).
      unfold heavierFirst in *. lia.
Qed.

(** The sort is stable: a list in the order of its positions comes out
    by descending weight, equal weights in the order of the positions. *)
Lemma sortList_sorted (l : list A) :
  StronglySorted (fun x y => p x < p y) l ->
  StronglySorted (heavierFirst w p) (JsArray.sortList (lighterThan w) l).
Proof.
  induction 1 as [|x l Hs IH Hx]; simpl; [constructor|].
  apply insert_sorted; [exact IH|].
  now rewrite (sortList_perm l).
Qed.

End SortFacts.

Lemma StronglySorted_map {A B : Type} (R : B -> B -> Prop) (f : A -> B)
    (l : list A) :
  StronglySorted (fun x y => R (f x) (f y)) l <-> StronglySorted R (map f l).
Proof.
  induction l as [|x l IH]; simpl; split; intros H; try constructor;
    inversion H; subst.
  - now apply IH.
  - now rewrite Forall_map.
  - now apply IH.
  - now rewrite <- Forall_map.
Qed.

Lemma entriesFrom_dense {A : Type} (base k : nat) (l : list A) :
  JsArray.entriesFrom base (map Some l ++ repeat None k)%list
  = List.combine (seq base (List.length l)) l.
Proof.
  revert base; induction l as [|x l IH]; intros base; simpl.
  - revert base. induction k as [|k IHk]; intros base; simpl; auto.
  - now rewrite IH.
Qed.

Lemma values_dense {A : Type} (k : nat) (l : list A) :
  JsArray.values (map Some l ++ repeat None k)%list = l.
Proof.
  unfold JsArray.values, JsArray.entries. rewrite entriesFrom_dense.
  generalize 0. induction l as [|x l IH]; intros b; simpl; [reflexivity|].
  now rewrite IH.
Qed.

Lemma get_dense {A : Type} (k : nat) (pre post : list A) (x : A) :
  JsArray.get (map Some (pre ++ x :: post) ++ repeat None k)%list
              (List.length pre)
  = Some x.
Proof.
  unfold JsArray.get. rewrite map_app, <- app_assoc.
  rewrite nth_error_app2 by (rewrite length_map; lia).
  now rewrite length_map, Nat.sub_diag.
Qed.

(** ** The suggested key length *)

Lemma firstLongEnough_found store (pre post : list ref) (r : ref)
    (k i : nat) :
  Forall (fun q => factor (deref store q) < 4) pre ->
  4 <= factor (deref store r) ->
  firstLongEnough store (map Some (pre ++ r :: post) ++ repeat None k)%list i
  = Normal (i + List.length pre).
Proof.
  intros Hpre Hr. revert i.
  induction Hpre as [|q pre Hq Hpre IH]; intros i; simpl.
  - destruct (Nat.ltb_spec (factor (deref store r)) 4); [lia|].
    f_equal. lia.
  - destruct (Nat.ltb_spec (factor (deref store q)) 4); [|lia].
    rewrite IH. f_equal. lia.
Qed.

Lemma firstLongEnough_none store (l : list ref) (k i : nat) :
  Forall (fun q => factor (deref store q) < 4) l ->
  firstLongEnough store (map Some l ++ repeat None k)%list i = Throw TypeError.
Proof.
  intros H. revert i. induction H as [|q l Hq Hl IH]; intros i; simpl.
  - now destruct k.
  - destruct (Nat.ltb_spec (factor (deref store q)) 4); [|lia]. apply IH.
Qed.

Lemma split_first {A : Type} (P : A -> bool) (l : list A) :
  (exists x, In x l /\ P x = true) ->
  exists pre x post,
    l = (pre ++ x :: post)%list
    /\ Forall (fun y => P y = false) pre /\ P x = true.
Proof.
  induction l as [|y l IH]; intros (x & Hin & Hx); [contradiction|].
  destruct (P y) eqn:Hy.
  - exists [], y, l. repeat split; auto.
  - destruct IH as (pre & z & post & -> & Hpre & Hz).
    + destruct Hin as [->|Hin]; [congruence|]. now exists x.
    + exists (y :: pre), z, post. repeat split; auto.
Qed.

Lemma sortList_ext {A : Type} (f g : A -> A -> bool) (l : list A) :
  (forall x y, f x y = g x y) ->
  JsArray.sortList f l = JsArray.sortList g l.
Proof.
  intros H. induction l as [|x l IH]; simpl; [reflexivity|].
  rewrite IH. generalize (JsArray.sortList g l). clear IH.
  intros s. induction s as [|y r IHr]; simpl; [reflexivity|].
  now rewrite H, IHr.
Qed.

Lemma rankedAfter_weight store (x y : ref) :
  rankedAfter store x y = (weight (deref store x) <? weight (deref store y)).
Proof.
  unfold rankedAfter.
  destruct (Nat.ltb_spec (weight (deref store x)) (weight (deref store y)));
    [apply Z.ltb_lt|apply Z.ltb_ge]; lia.
Qed.

Lemma StronglySorted_equiv_in {A : Type} (R R' : A -> A -> Prop)
    (l : list A) :
  (forall x y, In x l -> In y l -> R x y -> R' x y) ->
  StronglySorted R l -> StronglySorted R' l.
Proof.
  intros H Hs. induction Hs as [|x l Hs IH Hx]; constructor.
  - apply IH. intros a b Ha Hb. apply H; now right.
  - rewrite Forall_forall in Hx |- *. intros y Hy.
    apply H; [now left|now right|now apply Hx].
Qed.

(** The ranking that [kasiskiExamination] computes: the array holds the
    references of all candidates at its front, in ranking order. *)
Lemma rank_ranked (ft : FactorTable) :
  exists (refs : list ref) (holes : nat),
    frequencyRanks (rank ft) = (map Some refs ++ repeat None holes)%list
    /\ (forall r, In r refs ->
          weight (deref (objects (rank ft)) r)
          = aggregateFrequency ft (factor (deref (objects (rank ft)) r)))
    /\ (forall f, In f (map (fun r => factor (deref (objects (rank ft)) r)) refs)
                  <-> candidateFactor ft f)
    /\ StronglySorted (ranksBefore ft)
         (map (fun r => factor (deref (objects (rank ft)) r)) refs).
Proof.
  destruct (tally_inv ft) as [Hsh Hobj Hseen].
  set (store := objects (tally ft)) in *.
  set (cf := candidateFreqs (tally ft)) in *.
  set (p := fun r : ref => factor (deref store r)).
  set (w := fun r : ref => weight (deref store r)).
  (* every reference in the array belongs to the factor it is stored at *)
  assert (Hent : forall f r, In (f, r) (JsArray.entries cf) ->
                   p r = f /\ w r = aggregateFrequency ft f).
  { intros f r H. apply in_entries in H. destruct (Hobj f r H) as [_ Hd].
    unfold p, w. rewrite Hd. cbn. split; [reflexivity|].
    apply weightAfter_visits. }
  assert (Hval : forall r, In r (JsArray.values cf) ->
                   w r = aggregateFrequency ft (p r)).
  { intros r H. apply in_map_iff in H as ([f r'] & <- & H). cbn [snd].
    destruct (Hent f r' H) as [-> ->]. reflexivity. }
  assert (Hkeys : map p (JsArray.values cf) = JsArray.keys cf).
  { unfold JsArray.values, JsArray.keys. rewrite map_map.
    apply map_ext_in. intros [f r] H. now destruct (Hent f r H). }
  exists (JsArray.sortList (lighterThan w) (JsArray.values cf)),
         (List.length (frequencyRanks (tally ft))
          - List.length (JsArray.values (frequencyRanks (tally ft)))).
  assert (Hperm := sortList_perm w (JsArray.values cf)).
  unfold rank. cbn [objects frequencyRanks]. fold store.
  repeat split.
  - unfold JsArray.sort. rewrite Hsh. fold cf. do 2 f_equal.
    apply sortList_ext. intros x y. apply rankedAfter_weight.
  - intros r Hr. apply Hval. now rewrite <- Hperm.
  - fold p. intros H.
    apply in_map_iff in H as (r & <- & Hr). rewrite Hperm in Hr.
    apply visits_candidates, Hseen.
    apply in_map_iff in Hr as ([f r'] & <- & H). cbn [snd].
    destruct (Hent f r' H) as [-> _]. exists r'. now apply in_entries.
  - fold p. intros H. apply visits_candidates, Hseen in H as [r Hr].
    apply in_map_iff. exists r. apply in_entries in Hr as He.
    split; [now destruct (Hent f r He)|].
    rewrite Hperm. apply in_map_iff. now exists (f, r).
  - fold p. apply (proj1 (StronglySorted_map (ranksBefore ft) p _)).
    apply (StronglySorted_equiv_in (heavierFirst w p)).
    + intros x y Hx Hy Hxy. rewrite Hperm in Hx, Hy.
      unfold ranksBefore. unfold heavierFirst in Hxy.
      rewrite <- (Hval x Hx), <- (Hval y Hy). exact Hxy.
    + apply sortList_sorted.
      apply (proj2 (StronglySorted_map lt p _)).
      rewrite Hkeys. apply keys_sorted.
Qed.

(** C2, as stated, fails: a gap with a non-empty factor list is not
    enough for a suggestion.  On this text the only recorded gap is 4,
    whose factor list is [2]; every ranked factor is below 4, the loop
    that skips them runs off the array, and the examination throws. *)
Lemma small_factors_only :
  exists st e,
    recurrenceSearch "ABCDABCDX"
    = Normal (st, [None; None; None; None; Some e])
    /\ frequency e = 5
    /\ JsArray.keys (factorList e) = [2]
    /\ kasiskiExamination "ABCDABCDX" = Throw TypeError.
Proof.
  do 2 eexists. repeat split; vm_compute; reflexivity.
Qed.

(** C2, amended: when some recorded gap lists a factor that is at least 4,
    [kasiskiExamination] returns, its ranking holds exactly the candidate
    factors, each with its aggregate frequency, sorted by descending
    aggregate frequency and stable on ties, and [firstKeyLength] is the
    first factor of the ranking that is at least 4: all ranked factors in
    front of it are below 4. *)
Theorem suggested_key_length (ct : string) (st : SubstringTable)
    (ft : FactorTable) :
  recurrenceSearch ct = Normal (st, ft) ->
  (exists f, candidateFactor ft f /\ 4 <= f) ->
  exists x,
    kasiskiExamination ct = Normal x
    /\ factorTable x = ft
    /\ (forall f, In f (rankedFactors x) <-> candidateFactor ft f)
    /\ map weight (rankedCandidates (ranking x))
       = map (aggregateFrequency ft) (rankedFactors x)
    /\ StronglySorted (ranksBefore ft) (rankedFactors x)
    /\ exists pre post,
         rankedFactors x = (pre ++ firstKeyLength x :: post)%list
         /\ Forall (fun f => f < 4) pre
         /\ 4 <= firstKeyLength x.
Proof.
  intros Hsearch (f4 & Hcand & Hf4).
  destruct (rank_ranked ft) as (refs & holes & Harr & Hw & Hin & Hsorted).
  set (rk := rank ft) in *.
  set (p := fun r : ref => factor (deref (objects rk) r)) in *.
  destruct (split_first (fun r => 4 <=? p r) refs)
    as (pre & r & post & Hrefs & Hpre & Hr).
  { apply Hin in Hcand. apply in_map_iff in Hcand as (r & Hr & Hrin).
    exists r. split; [exact Hrin|]. apply Nat.leb_le. lia. }
  apply Nat.leb_le in Hr.
  assert (Hpre' : Forall (fun q => factor (deref (objects rk) q) < 4) pre).
  { eapply Forall_impl; [|exact Hpre]. intros q Hq.
    apply Nat.leb_gt in Hq. exact Hq. }
  exists {| substringTable := st; factorTable := ft; ranking := rk;
            firstKeyLength := p r |}.
  assert (Hvals : JsArray.values (frequencyRanks rk) = refs).
  { rewrite Harr. apply values_dense. }
  unfold rankedFactors, rankedCandidates. cbn [ranking firstKeyLength factorTable].
  rewrite Hvals, !map_map. fold p.
  split; [|split; [reflexivity|split; [exact Hin|split; [|split]]]].
  - unfold kasiskiExamination. rewrite Hsearch. cbn [bind fst snd].
    fold rk. rewrite Harr, Hrefs.
    rewrite (firstLongEnough_found _ pre post r holes 0 Hpre' Hr).
    cbn [bind]. rewrite Nat.add_0_l. unfold factorAt. rewrite Harr, Hrefs.
    now rewrite (get_dense holes pre post r).
  - apply map_ext_in. intros q Hq. now apply Hw.
  - exact Hsorted.
  - exists (map p pre), (map p post). rewrite Hrefs, map_app. cbn [map].
    repeat split; auto. now rewrite Forall_map.
Qed.

Lemma suggested_key_length_witness :
  exists x,
    kasiskiExamination "ABCDEFGHIJKLMNOPQRSTABCZ" = Normal x
    /\ rankedFactors x = [2; 4]
    /\ map weight (rankedCandidates (ranking x)) = [3; 3]
    /\ firstKeyLength x = 4.
Proof.
  destruct (recurrenceSearch "ABCDEFGHIJKLMNOPQRSTABCZ")
    as [[st ft]| |] eqn:Hs; try (vm_compute in Hs; discriminate).
  assert (Hc : exists f, candidateFactor ft f /\ 4 <= f).
  { vm_compute in Hs. injection Hs as _ <-.
    exists 4. split; [|lia].
    eexists 20, _. split; [reflexivity|]. vm_compute. tauto. }
  destruct (suggested_key_length _ st ft Hs Hc) as (x & Hx & _).
  exists x. split; [exact Hx|].
  vm_compute in Hx. injection Hx as <-. vm_compute. tauto.
Defined.

(** The bundled variant has no threshold: it suggests the first ranked
    factor even when that is below 4. *)
Example bundled_takes_first :
  exists x,
    Bundled.kasiskiExamination "ABCDEFGHIJKLMNOPQRSTABCZ" = Normal x
    /\ rankedFactors x = [2; 4] /\ firstKeyLength x = 2.
Proof. eexists. repeat split; vm_compute; reflexivity. Qed.

(** ** A text without recurring substrings *)

Lemma rank_without_gaps (ft : FactorTable) :
  JsArray.entries ft = [] -> JsArray.values (frequencyRanks (rank ft)) = []
                            /\ frequencyRanks (rank ft) = [].
Proof.
  intros H. unfold rank, tally. rewrite H. cbn. auto.
Qed.

(** Whenever the search records no gap, both variants of the examination
    throw: [frequencyRanks] is empty and its first element is read. *)
Lemma examination_without_gaps (ct : string) st (ft : FactorTable) :
  recurrenceSearch ct = Normal (st, ft) ->
  JsArray.entries ft = [] ->
  kasiskiExamination ct = Throw TypeError
  /\ Bundled.kasiskiExamination ct = Throw TypeError.
Proof.
  intros Hs He. destruct (rank_without_gaps ft He) as [_ Hr].
  unfold kasiskiExamination, Bundled.kasiskiExamination, factorAt.
  rewrite Hs. cbn [bind fst snd]. rewrite Hr. split; reflexivity.
Qed.

(** C4 does not hold of the code.  The text below has no recurring
    substring; the search records nothing, and the examination throws a
    TypeError in both variants instead of returning a result that says so.
    [smashKey] without a length, whose fallback to length 1 was written
    for this case, throws with it. *)
Theorem examination_of_unrepeated_text :
  recurrenceSearch "ABCDEFGH" = Normal ([], [])
  /\ kasiskiExamination "ABCDEFGH" = Throw TypeError
  /\ Bundled.kasiskiExamination "ABCDEFGH" = Throw TypeError
  /\ smashKey (newVigenere (Some "ABCDEFGH") None) None None
     = Throw TypeError.
Proof. repeat split; vm_compute; reflexivity. Qed.

(** ** Loops over the columns *)

Lemma updateAt_length {A : Type} (i : nat) (f : A -> A) (l : list A) :
  List.length (updateAt i f l) = List.length l.
Proof.
  revert i; induction l as [|x l IH]; intros [|i]; simpl; auto.
Qed.

Lemma updateAt_middle {A : Type} (f : A -> A) (done todo : list A) (x : A) :
  updateAt (List.length done) f (done ++ x :: todo)%list
  = (done ++ f x :: todo)%list.
Proof. induction done as [|y done IH]; simpl; [reflexivity|now rewrite IH]. Qed.

Lemma nth_error_middle {A : Type} (done todo : list A) (x : A) :
  nth_error (done ++ x :: todo)%list (List.length done) = Some x.
Proof.
  rewrite nth_error_app2 by lia. now rewrite Nat.sub_diag.
Qed.

Lemma nth_error_updateAt {A : Type} (i j : nat) (f : A -> A) (l : list A) :
  nth_error (updateAt i f l) j
  = if i =? j then option_map f (nth_error l j) else nth_error l j.
Proof.
  revert i j; induction l as [|x l IH]; intros [|i] [|j]; simpl; auto.
  now destruct (i =? j).
Qed.

Lemma snoc_middle {A : Type} (done todo : list A) (x : A) :
  (done ++ x :: todo)%list = ((done ++ [x]) ++ todo)%list.
Proof. now rewrite <- app_assoc. Qed.

Lemma pushScores_loop (l : string) (todo : list (list Scored)) :
  forall (done : list (list Scored)) (fsDone fs : list ColumnFrequency),
    List.length fsDone = List.length done ->
    forEach (seq (List.length done) (List.length todo))
      (fun column table =>
         match nth_error (fsDone ++ fs)%list column,
               nth_error table column with
         | Some f, Some _ =>
             Normal (updateAt column
                       (fun col =>
                          (col ++ [{| letter := l;
                                      letterScore := score f |}])%list)
                       table)
         | _, _ => Throw TypeError
         end)
      (done ++ todo)%list
    = rest <- pushAll l fs todo ;; Normal (done ++ rest)%list.
Proof.
  induction todo as [|col todo IH]; intros done fsDone fs Hlen.
  - destruct fs; reflexivity.
  - cbn [List.length seq forEach]. rewrite nth_error_middle.
    destruct fs as [|f fs].
    + rewrite app_nil_r.
      replace (nth_error fsDone (List.length done)) with (@None ColumnFrequency);
        [reflexivity|].
      symmetry. apply nth_error_None. lia.
    + rewrite <- Hlen, nth_error_middle, Hlen. cbn [bind].
      rewrite updateAt_middle, (snoc_middle done todo).
      replace (S (List.length done))
        with (List.length (done ++ [col ++ [{| letter := l;
                                               letterScore := score f |}]])%list)
        by (rewrite List.length_app; simpl; lia).
      rewrite (snoc_middle fsDone fs f).
      rewrite IH by (rewrite !List.length_app; simpl; lia).
      cbn [pushAll]. destruct (pushAll l fs todo); cbn [bind]; auto.
      now rewrite <- app_assoc.
Qed.

Lemma pushScores_pushAll (len : nat) (l : string)
    (fs : list ColumnFrequency) (table : list (list Scored)) :
  List.length table = len ->
  pushScores len l fs table = pushAll l fs table.
Proof.
  intros <-. unfold pushScores.
  pose proof (pushScores_loop l table [] [] fs eq_refl) as H.
  cbn [List.length app] in H. rewrite H.
  now destruct (pushAll l fs table).
Qed.

Lemma pushAll_total (l : string) (fs : list ColumnFrequency)
    (table : list (list Scored)) :
  List.length fs = List.length table ->
  exists table',
    pushAll l fs table = Normal table'
    /\ List.length table' = List.length table
    /\ forall m, Forall (fun col => List.length col = m) table ->
                 Forall (fun col => List.length col = S m) table'.
Proof.
  revert fs; induction table as [|col table IH]; intros [|f fs] H;
    simpl in H; try lia.
  - exists []. repeat split; auto.
  - destruct (IH fs) as (rest & Hr & Hl & Hm); [lia|].
    eexists. cbn [pushAll]. rewrite Hr. cbn [bind].
    split; [reflexivity|]. split; [simpl; lia|].
    intros m Hall. inversion Hall; subst. constructor; [|now apply Hm].
    rewrite List.length_app. simpl. lia.
Qed.

Lemma sortColumns_loop (todo : list (list Scored)) :
  forall (done : list (list Scored)) (acc : string),
    forEach (seq (List.length done) (List.length todo))
      (fun column st =>
         match nth_error (fst st) column with
         | None => Throw TypeError
         | Some col =>
             match JsArray.sortList scoredAfter col with
             | [] => Throw TypeError
             | best :: others =>
                 Normal (updateAt column (fun _ => best :: others) (fst st),
                         snd st ++ letter best)
             end
         end)
      ((done ++ todo)%list, acc)
    = rest <- sortAll todo acc ;; Normal ((done ++ fst rest)%list, snd rest).
Proof.
  induction todo as [|col todo IH]; intros done acc.
  - cbn. now rewrite app_nil_r.
  - cbn [List.length seq forEach fst snd]. rewrite nth_error_middle.
    cbn [sortAll].
    destruct (JsArray.sortList scoredAfter col) as [|best others];
      [reflexivity|].
    cbn [bind fst snd]. rewrite updateAt_middle, (snoc_middle done todo).
    replace (S (List.length done))
      with (List.length (done ++ [best :: others])%list)
      by (rewrite List.length_app; simpl; lia).
    rewrite IH.
    destruct (sortAll todo (acc ++ letter best)) as [[t k]| |];
      cbn [bind fst snd]; auto.
    now rewrite <- app_assoc.
Qed.

Lemma sortColumns_sortAll (len : nat) (table : list (list Scored)) :
  List.length table = len -> sortColumns len table = sortAll table "".
Proof.
  intros <-. unfold sortColumns.
  pose proof (sortColumns_loop table [] "") as H.
  cbn [List.length app] in H. rewrite H.
  now destruct (sortAll table "") as [[t k]| |].
Qed.

Lemma fold_best_acc (table : list (list Scored)) (acc : string) :
  fold_left (fun a col => a ++ match col with
                               | c :: _ => letter c
                               | [] => ""
                               end) table acc
  = acc ++ bestLetters table.
Proof.
  unfold bestLetters. revert acc.
  induction table as [|col table IH]; intros acc; simpl.
  - now rewrite app_empty_r.
  - rewrite IH, (IH (match col with c :: _ => letter c | [] => "" end)).
    now rewrite app_assoc_str.
Qed.

(** What the sorting loop returns: every column sorted and not empty, and
    the best letters of the sorted columns in a row. *)
Lemma sortAll_result (todo : list (list Scored)) (acc : string) t k :
  sortAll todo acc = Normal (t, k) ->
  t = map (JsArray.sortList scoredAfter) todo
  /\ Forall (fun col => col <> []) t
  /\ k = acc ++ bestLetters t.
Proof.
  revert acc t k; induction todo as [|col todo IH]; intros acc t k H;
    cbn [sortAll] in H.
  - injection H as <- <-. repeat split; auto. now rewrite app_empty_r.
  - destruct (JsArray.sortList scoredAfter col) as [|best others] eqn:Hs;
      [discriminate|].
    destruct (sortAll todo (acc ++ letter best)) as [[t' k']| |] eqn:Hr;
      cbn [bind fst snd] in H; try discriminate.
    injection H as <- <-. destruct (IH _ _ _ Hr) as (-> & Hne & ->).
    repeat split.
    + cbn [map]. now rewrite Hs.
    + constructor; [discriminate|exact Hne].
    + unfold bestLetters at 2. cbn [fold_left].
      rewrite fold_best_acc. cbn. now rewrite app_assoc_str.
Qed.

Lemma sortList_length {A : Type} (after : A -> A -> bool) (l : list A) :
  List.length (JsArray.sortList after l) = List.length l.
Proof.
  induction l as [|x l IH]; simpl; [reflexivity|].
  rewrite <- IH. generalize (JsArray.sortList after l). clear.
  intros s. induction s as [|y r IHr]; simpl; [reflexivity|].
  destruct (after x y); simpl; auto.
Qed.

Lemma sortAll_total (todo : list (list Scored)) (acc : string) :
  Forall (fun col => col <> []) todo ->
  exists t k, sortAll todo acc = Normal (t, k).
Proof.
  intros H. revert acc. induction H as [|col todo Hc Hall IH]; intros acc.
  - now exists [], acc.
  - cbn [sortAll].
    destruct (JsArray.sortList scoredAfter col) as [|best others] eqn:Hs.
    + apply (f_equal (@List.length _)) in Hs. rewrite sortList_length in Hs.
      destruct col; [contradiction|discriminate].
    + destruct (IH (acc ++ letter best)) as (t & k & ->). cbn. eauto.
Qed.

(** ** The columns of [frequencies] *)

Lemma countColumns_length (columns : nat) (text : string) :
  List.length (countColumns columns text) = columns.
Proof.
  unfold countColumns.
  assert (G : forall l cols,
             List.length
               (fold_left
                  (fun cols i =>
                     if negb (matchesLetter (charAt text i)) then cols
                     else updateAt (i mod columns)
                            (countLetter (charAt text i)) cols) l cols)
             = List.length cols).
  { induction l as [|i l IH]; intros cols; simpl; [reflexivity|].
    rewrite IH. destruct (negb _); [reflexivity|apply updateAt_length]. }
  rewrite G. apply repeat_length.
Qed.

Lemma frequencies_length (e : Vigenere) (columns : option nat)
    (text : option string) :
  List.length (frequencies e columns text) = orElseNum columns 1.
Proof.
  unfold frequencies. now rewrite length_map, countColumns_length.
Qed.

(** ** Key recovery *)

Lemma smashKey_unfold (e : Vigenere) (length options : option nat) :
  smashKey e length options
  = len <- match length with
           | Some (S n) => Normal (S n)
           | _ => x <- kasiskiExamination (cryptotext e) ;;
                  Normal (orElseNum (Some (firstKeyLength x)) 1)
           end ;;
    recoverKey e len.
Proof. reflexivity. Qed.

Lemma smashKey_length (e : Vigenere) (length options : option nat) r e' :
  smashKey e length options = Normal (r, e') ->
  exists len, 1 <= len /\ recoverKey e len = Normal (r, e').
Proof.
  rewrite smashKey_unfold. intros H.
  assert (G : forall c : completion Examination,
             (x <- (x <- c ;; Normal (orElseNum (Some (firstKeyLength x)) 1)) ;;
              recoverKey e x) = Normal (r, e') ->
             exists len, 1 <= len /\ recoverKey e len = Normal (r, e')).
  { intros [x| |] Hc; cbn [bind] in Hc; try discriminate.
    exists (orElseNum (Some (firstKeyLength x)) 1). split; [|exact Hc].
    simpl. destruct (firstKeyLength x); lia. }
  destruct length as [[|n]|]; [exact (G _ H)| |exact (G _ H)].
  exists (S n). split; [lia|exact H].
Qed.

(** One round of the loop over the letters. *)
Lemma tryLetter_round (len : nat) (l : string) (e : Vigenere)
    (table : list (list Scored)) :
  1 <= len -> List.length table = len ->
  exists table',
    tryLetter len l (e, table) = Normal (snd (decrypt e (Some l)), table')
    /\ List.length table' = len
    /\ forall m, Forall (fun col => List.length col = m) table ->
                 Forall (fun col => List.length col = S m) table'.
Proof.
  intros Hlen Ht. unfold tryLetter. cbn [fst snd].
  destruct (decrypt e (Some l)) as [shifted e1] eqn:Hd. cbn [snd].
  rewrite pushScores_pushAll by assumption.
  destruct (pushAll_total l (frequencies e1 (Some len) (Some shifted)) table)
    as (table' & Hp & Hl & Hm).
  { rewrite frequencies_length, Ht. destruct len; [lia|reflexivity]. }
  exists table'. rewrite Hp. cbn [bind]. repeat split; auto; lia.
Qed.

Lemma decrypt_sameButPlaintext (e e' : Vigenere) (k : option string) :
  sameButPlaintext e e' ->
  sameButPlaintext e (snd (decrypt e' k))
  /\ plaintext (snd (decrypt e' k)) = Some (fst (decrypt e k)).
Proof.
  intros (Hk & Ht & Hc). unfold sameButPlaintext, decrypt.
  cbn [fst snd key cryptotext ciphertext plaintext].
  now rewrite Hk, Ht.
Qed.

Lemma letters_loop (len : nat) (ls : list string) :
  1 <= len ->
  forall (e0 e : Vigenere) (table : list (list Scored)) (m : nat),
    sameButPlaintext e0 e ->
    List.length table = len ->
    Forall (fun col => List.length col = m) table ->
    exists e' table',
      forEach ls (tryLetter len) (e, table) = Normal (e', table')
      /\ sameButPlaintext e0 e'
      /\ plaintext e'
         = match rev ls with
           | [] => plaintext e
           | l :: _ => Some (fst (decrypt e0 (Some l)))
           end
      /\ List.length table' = len
      /\ Forall (fun col => List.length col = m + List.length ls) table'.
Proof.
  intros Hlen. induction ls as [|l ls IH]; intros e0 e table m Hs Ht Hm.
  - exists e, table. cbn. rewrite Nat.add_0_r. auto.
  - destruct (tryLetter_round len l e table Hlen Ht) as (t1 & H1 & Hl1 & Hm1).
    destruct (decrypt_sameButPlaintext e0 e (Some l) Hs) as [Hs1 Hp1].
    destruct (IH e0 (snd (decrypt e (Some l))) t1 (S m) Hs1 Hl1 (Hm1 m Hm))
      as (e' & t' & Hloop & Hs' & Hp' & Hl' & Hm').
    exists e', t'. cbn [forEach]. rewrite H1. cbn [bind].
    split; [exact Hloop|]. split; [exact Hs'|].
    split; [|split; [exact Hl'|]].
    + rewrite Hp'. cbn [rev].
      destruct (rev ls) as [|z zs]; cbn [app]; [exact Hp1|reflexivity].
    + cbn [List.length]. now rewrite Nat.add_succ_r.
Qed.

(** What [smashKey] returns for a key length of at least 1. *)
Lemma recoverKey_result (e : Vigenere) (len : nat) :
  1 <= len ->
  exists r,
    recoverKey e len = Normal (r, afterSmash e)
    /\ List.length (candidateTable r) = len
    /\ Forall (fun col => List.length col = 26) (candidateTable r)
    /\ firstKey r = bestLetters (candidateTable r).
Proof.
  intros Hlen. unfold recoverKey.
  destruct (letters_loop len (map fst letterFrequencies) Hlen e e
              (repeat [] len) 0)
    as (e' & table & Hloop & (Hk & Ht & Hc) & Hp & Hl & Hm).
  { repeat split. }
  { apply repeat_length. }
  { apply Forall_forall. intros col Hin. apply repeat_spec in Hin. now subst. }
  rewrite Hloop. cbn [bind fst snd].
  rewrite sortColumns_sortAll by assumption.
  destruct (sortAll_total table "") as (t & k & Hsort).
  { eapply Forall_impl; [|exact Hm]. intros [|c col] Hcol;
      [discriminate|discriminate]. }
  rewrite Hsort. cbn [bind fst snd].
  destruct (sortAll_result _ _ _ _ Hsort) as (Ht' & Hne & Hk').
  exists {| candidateTable := t; firstKey := k |}.
  cbn [candidateTable firstKey]. repeat split.
  - do 2 f_equal. destruct e' as [k' t' p' c']. cbn in *.
    unfold afterSmash. now subst.
  - subst t. now rewrite length_map.
  - subst t. rewrite Forall_map. eapply Forall_impl; [|exact Hm].
    intros col Hcol. now rewrite sortList_length.
  - exact Hk'.
Qed.

Lemma assemble_loop (table : list (list Scored)) (combination : list nat) :
  (forall c, c < List.length table -> nth_error combination c = Some 0) ->
  forall (todo done : list (list Scored)) (acc : string),
    table = (done ++ todo)%list ->
    Forall (fun col => col <> []) todo ->
    forEach (seq (List.length done) (List.length todo))
      (fun column newKey =>
         match nth_error table column, nth_error combination column with
         | Some col, Some choice =>
             match nth_error col choice with
             | Some c => Normal (newKey ++ letter c)
             | None => Throw TypeError
             end
         | _, _ => Throw TypeError
         end)
      acc
    = Normal (acc ++ bestLetters todo).
Proof.
  intros Hzero. induction todo as [|col todo IH]; intros done acc Ht Hne.
  - cbn. now rewrite app_empty_r.
  - inversion Hne as [|? ? Hcol Hrest]; subst.
    cbn [List.length seq forEach].
    rewrite nth_error_middle, Hzero
      by (rewrite List.length_app; simpl; lia).
    destruct col as [|best others]; [contradiction|].
    cbn [nth_error bind].
    replace (S (List.length done))
      with (List.length (done ++ [best :: others])%list)
      by (rewrite List.length_app; simpl; lia).
    rewrite IH; auto.
    + unfold bestLetters at 2. cbn [fold_left].
      rewrite fold_best_acc. cbn. now rewrite app_assoc_str.
    + now rewrite <- app_assoc.
Qed.

(** C8: the all-zero combination reproduces [firstKey]: for every result
    of [smashKey], [assemble] on as many zeros as the candidate table has
    columns returns the [firstKey] of that result. *)
Theorem assemble_zeros_firstKey (e : Vigenere) (length options : option nat)
    (r : Smash) (e' : Vigenere) :
  smashKey e length options = Normal (r, e') ->
  assemble r (repeat 0 (List.length (candidateTable r))) = Normal (firstKey r).
Proof.
  intros H. apply smashKey_length in H as (len & Hlen & H).
  destruct (recoverKey_result e len Hlen) as (r0 & Hr0 & Hl & H26 & Hk).
  rewrite Hr0 in H. injection H as <- _.
  rewrite Hk. unfold assemble.
  apply (assemble_loop (candidateTable r0)
           (repeat 0 (List.length (candidateTable r0)))
           (fun c Hc => nth_error_repeat 0 Hc)
           (candidateTable r0) [] "" eq_refl).
  eapply Forall_impl; [|exact H26]. intros [|c col] Hcol; discriminate.
Qed.

Lemma assemble_zeros_firstKey_witness :
  exists r e',
    smashKey (newVigenere (Some "LXFOPVEFRNHR") None) (Some 5) None
    = Normal (r, e')
    /\ List.length (candidateTable r) = 5
    /\ assemble r [0; 0; 0; 0; 0] = Normal (firstKey r).
Proof.
  destruct (recoverKey_result (newVigenere (Some "LXFOPVEFRNHR") None) 5)
    as (r & Hr & Hl & _); [lia|].
  assert (Hs : smashKey (newVigenere (Some "LXFOPVEFRNHR") None) (Some 5) None
               = Normal (r, afterSmash (newVigenere (Some "LXFOPVEFRNHR") None)))
    by (rewrite smashKey_unfold; exact Hr).
  exists r, (afterSmash (newVigenere (Some "LXFOPVEFRNHR") None)).
  split; [exact Hs|]. split; [exact Hl|].
  pose proof (assemble_zeros_firstKey _ _ _ _ _ Hs) as Ha.
  rewrite Hl in Ha. exact Ha.
Defined.

(** ** What [smashKey] leaves in the engine *)

(** With a key length of at least 1, [smashKey] returns. *)
Lemma smashKey_returns (e : Vigenere) (n : nat) (options : option nat) :
  exists r, smashKey e (Some (S n)) options = Normal (r, afterSmash e).
Proof.
  rewrite smashKey_unfold. cbn [bind].
  destruct (recoverKey_result e (S n)) as (r & Hr & _); [lia|].
  now exists r.
Qed.

(** C9, as stated, fails: [smashKey] decrypts through [decrypt], which
    stores every result, so the stored plaintext is overwritten. *)
Lemma smashKey_overwrites_plaintext :
  exists r e',
    smashKey (newVigenere (Some "HELLO") (Some "B")) (Some 1) None
    = Normal (r, e')
    /\ plaintext (newVigenere (Some "HELLO") (Some "B")) = Some "HELLO"
    /\ plaintext e' = Some "IFMMP"
    /\ plaintext e' <> plaintext (newVigenere (Some "HELLO") (Some "B")).
Proof.
  destruct (smashKey_returns (newVigenere (Some "HELLO") (Some "B")) 0 None)
    as [r Hr].
  exists r, (afterSmash (newVigenere (Some "HELLO") (Some "B"))).
  split; [exact Hr|]. split; [reflexivity|]. split; [reflexivity|].
  discriminate.
Qed.

(** C9, amended: whenever [smashKey] returns, the working text, the key
    and the stored ciphertext of the engine are what they were before the
    call, and the stored plaintext is the working text decrypted under Z,
    the last shift tried. *)
Theorem smashKey_frame (e : Vigenere) (length options : option nat)
    (r : Smash) (e' : Vigenere) :
  smashKey e length options = Normal (r, e') ->
  cryptotext e' = cryptotext e
  /\ key e' = key e
  /\ ciphertext e' = ciphertext e
  /\ plaintext e' = Some (fst (decrypt e (Some "Z"))).
Proof.
  intros H. apply smashKey_length in H as (len & Hlen & H).
  destruct (recoverKey_result e len Hlen) as (r0 & Hr0 & _).
  rewrite Hr0 in H. injection H as _ <-. repeat split.
Qed.

Lemma smashKey_frame_witness :
  exists r e',
    smashKey (newVigenere (Some "HELLO") (Some "B")) (Some 1) None
    = Normal (r, e')
    /\ cryptotext e' = "HELLO" /\ key e' = "B"
    /\ ciphertext e' = Some "HELLO" /\ plaintext e' = Some "IFMMP".
Proof.
  destruct (smashKey_returns (newVigenere (Some "HELLO") (Some "B")) 0 None)
    as [r Hr].
  exists r, (afterSmash (newVigenere (Some "HELLO") (Some "B"))).
  split; [exact Hr|].
  exact (smashKey_frame _ _ _ _ _ Hr).
Defined.

(** ** The number of candidates per column *)

Lemma smashKey_ignores_options (e : Vigenere) (length o1 o2 : option nat) :
  smashKey e length o1 = smashKey e length o2.
Proof. reflexivity. Qed.

(** Every column of every result holds all 26 letters. *)
Lemma smashKey_keeps_all (e : Vigenere) (length options : option nat) r e' :
  smashKey e length options = Normal (r, e') ->
  Forall (fun col => List.length col = 26) (candidateTable r).
Proof.
  intros H. apply smashKey_length in H as (len & Hlen & H).
  destruct (recoverKey_result e len Hlen) as (r0 & Hr0 & _ & H26 & _).
  rewrite Hr0 in H. now injection H as <- _.
Qed.

(** C3 does not hold of the code: [options] is computed and never read.
    With 3 options asked for, the two columns below hold 26 candidates
    each, not 3. *)
Theorem options_never_applied :
  exists r e',
    smashKey (newVigenere (Some "LXFOPVEFRNHR") None) (Some 2) (Some 3)
    = Normal (r, e')
    /\ Nat.min (orElseNum (Some 3) 3) 26 = 3
    /\ map (@List.length Scored) (candidateTable r) = [26; 26].
Proof.
  destruct (recoverKey_result (newVigenere (Some "LXFOPVEFRNHR") None) 2)
    as (r & Hr & Hl & H26 & _); [lia|].
  exists r, (afterSmash (newVigenere (Some "LXFOPVEFRNHR") None)).
  split; [rewrite smashKey_unfold; exact Hr|]. split; [reflexivity|].
  clear Hr.
  destruct (candidateTable r) as [|c1 [|c2 [|c3 t]]]; simpl in Hl; try lia.
  inversion H26 as [|? ? H1 H26']; subst.
  inversion H26' as [|? ? H2 _]; subst.
  cbn [map]. now rewrite H1, H2.
Qed.

(** ** A column without letters *)

Lemma countColumns_untouched (columns : nat) (text : string) (c : nat) :
  c < columns ->
  (forall i, i < String.length text -> i mod columns = c ->
             matchesLetter (charAt text i) = false) ->
  nth_error (countColumns columns text) c = Some emptyTally.
Proof.
  intros Hc Hno. unfold countColumns.
  assert (G : forall l cols,
             (forall i, In i l -> i < String.length text) ->
             nth_error cols c = Some emptyTally ->
             nth_error
               (fold_left
                  (fun cols i =>
                     if negb (matchesLetter (charAt text i)) then cols
                     else updateAt (i mod columns)
                            (countLetter (charAt text i)) cols) l cols) c
             = Some emptyTally).
  { induction l as [|i l IH]; intros cols Hl Hcols; simpl; [exact Hcols|].
    apply IH; [intros j Hj; apply Hl; now right|].
    destruct (matchesLetter (charAt text i)) eqn:Hm; simpl; [|exact Hcols].
    rewrite nth_error_updateAt.
    destruct (Nat.eqb_spec (i mod columns) c) as [Heq|Hne]; [|exact Hcols].
    rewrite Hno in Hm; [discriminate| |exact Heq]. apply Hl. now left. }
  apply G.
  - intros i Hi. apply in_seq in Hi. lia.
  - now apply nth_error_repeat.
Qed.

(** C5, as stated, fails: the second column of this text holds a digit
    only, and its score is NaN; nothing marks it. *)
Lemma degenerate_column_example :
  matchesLetter (charAt "A1" 1) = false
  /\ option_map score
       (nth_error (frequencies (newVigenere (Some "A1") None) (Some 2) None) 1)
     = Some NaN.
Proof. split; vm_compute; reflexivity. Qed.

(** C5, amended: a column in which no character is an upper-case letter
    has total 0, every one of its 26 proportions is NaN (0 divided by 0),
    and its score is NaN; no other value marks the column. *)
Theorem degenerate_column_NaN (e : Vigenere) (columns : option nat)
    (text : option string) (c : nat) :
  c < orElseNum columns 1 ->
  (forall i, i < String.length (orElse text (cryptotext e)) ->
             i mod orElseNum columns 1 = c ->
             matchesLetter (charAt (orElse text (cryptotext e)) i) = false) ->
  exists col,
    nth_error (frequencies e columns text) c = Some col
    /\ total col = 0
    /\ score col = NaN
    /\ map fst (proportion col) = map fst letterFrequencies
    /\ Forall (fun lp => snd lp = NaN) (proportion col).
Proof.
  intros Hc Hno. exists (scoreColumn emptyTally). split.
  - unfold frequencies. rewrite nth_error_map.
    now rewrite countColumns_untouched.
  - vm_compute. repeat split. repeat constructor.
Qed.

Lemma degenerate_column_NaN_witness :
  exists col,
    nth_error (frequencies (newVigenere (Some "A1") None) (Some 2) None) 1
    = Some col
    /\ total col = 0 /\ score col = NaN.
Proof.
  destruct (degenerate_column_NaN (newVigenere (Some "A1") None) (Some 2)
              None 1) as (col & H1 & H2 & H3 & _).
  - simpl. lia.
  - intros [|[|i]] Hi Hm; simpl in Hi; try lia; [discriminate|reflexivity].
  - exists col. auto.
Defined.

(** ** The order of the candidates in a column *)

Lemma scoredAfter_numbers (x y : Scored) (a b : Q) :
  letterScore x = Fin a -> letterScore y = Fin b ->
  (scoredAfter x y = true <-> (b < a)%Q)
  /\ (scoredAfter x y = false <-> (a <= b)%Q).
Proof.
  intros Hx Hy. unfold scoredAfter, sub, neg, add, positive.
  rewrite Hx, Hy.
  assert (Hq : (Qred (a + Qred (- b)) == a - b)%Q).
  { rewrite Qred_correct, Qred_correct. reflexivity. }
  destruct (Qle_bool (Qred (a + Qred (- b))) 0) eqn:Hb; simpl.
  - apply Qle_bool_iff in Hb. rewrite Hq in Hb.
    assert (a <= b)%Q by (apply Qle_minus_iff in Hb; apply Qle_minus_iff;
                          setoid_replace (b + - a)%Q with (0 + - (a - b))%Q
                            by ring; exact Hb).
    split; split; intros; try discriminate; auto.
    exfalso. eapply Qlt_not_le; eauto.
  - assert (Hn : ~ (Qred (a + Qred (- b)) <= 0)%Q).
    { intros Hc. apply Qle_bool_iff in Hc. congruence. }
    rewrite Hq in Hn. apply Qnot_le_lt in Hn.
    assert (b < a)%Q.
    { apply Qlt_minus_iff. exact Hn. }
    split; split; intros; try discriminate; auto.
    exfalso. eapply Qlt_not_le; eauto.
Qed.

(** A column whose scores are all numbers comes out of the sort in
    ascending order of the scores. *)
Lemma column_sorted (col : list Scored) :
  Forall (fun c => isNumber (letterScore c)) col ->
  StronglySorted scoreLe (JsArray.sortList scoredAfter col).
Proof.
  apply sortList_sorted_by.
  - intros x y [a Ha] [b Hb] H.
    apply (scoredAfter_numbers x y a b Ha Hb) in H.
    unfold scoreLe. rewrite Ha, Hb. now apply Qlt_le_weak.
  - intros x y [a Ha] [b Hb] H.
    apply (scoredAfter_numbers x y a b Ha Hb) in H.
    unfold scoreLe. now rewrite Ha, Hb.
  - intros x y z [a Ha] [b Hb] [c Hc]. unfold scoreLe.
    rewrite Ha, Hb, Hc. apply Qle_trans.
Qed.

Lemma recoverKey_columns (e : Vigenere) (len : nat) r e' :
  1 <= len -> recoverKey e len = Normal (r, e') ->
  exists table, candidateTable r = map (JsArray.sortList scoredAfter) table.
Proof.
  intros Hlen. unfold recoverKey.
  destruct (letters_loop len (map fst letterFrequencies) Hlen e e
              (repeat [] len) 0)
    as (e1 & table & Hloop & _ & _ & Hl & _).
  { repeat split. }
  { apply repeat_length. }
  { apply Forall_forall. intros col Hin. apply repeat_spec in Hin. now subst. }
  rewrite Hloop. clear Hloop. cbn [bind fst snd].
  rewrite sortColumns_sortAll by assumption.
  destruct (sortAll table "") as [[t k]| |] eqn:Hs; cbn [bind fst snd];
    intros H; [|discriminate H|discriminate H].
  injection H as <- _. exists table.
  now destruct (sortAll_result _ _ _ _ Hs).
Qed.

(** The part of C3 that holds: in every result of [smashKey], a column
    whose scores are numbers is sorted by ascending score. *)
Lemma smashKey_columns_sorted (e : Vigenere) (length options : option nat)
    r e' :
  smashKey e length options = Normal (r, e') ->
  Forall (fun col => Forall (fun c => isNumber (letterScore c)) col ->
                     StronglySorted scoreLe col)
         (candidateTable r).
Proof.
  intros H. apply smashKey_length in H as (len & Hlen & H).
  destruct (recoverKey_columns e len r e' Hlen H) as (table & ->).
  clear H. apply Forall_map, Forall_forall. intros col _ Hnum.
  apply column_sorted. now rewrite <- (sortList_perm_any scoredAfter col).
Qed.

(** ** Texts without lower-case letters *)

Lemma forEach_normal {I S : Type} (P : S -> Prop) (xs : list I)
    (body : I -> S -> completion S) (s : S) :
  (forall i t, In i xs -> P t -> exists t', body i t = Normal t' /\ P t') ->
  P s -> exists s', forEach xs body s = Normal s' /\ P s'.
Proof.
  revert s; induction xs as [|i r IH]; intros s Hb Hs; simpl.
  - now exists s.
  - destruct (Hb i s) as (t & Ht & Pt); [now left|exact Hs|].
    rewrite Ht. cbn [bind]. apply IH; [|exact Pt].
    intros j u Hj. apply Hb. now right.
Qed.

Lemma inherited_has_lower (name : string) :
  inherited name = true ->
  exists a, In a (list_ascii_of_string name) /\ isLower a = true.
Proof.
  unfold inherited, inheritedProperties. cbn [existsb].
  rewrite !orb_true_iff, !String.eqb_eq.
  intros H. decompose [or] H; clear H; subst;
    try discriminate;
    (exists "o"%char; split; [cbn; tauto|reflexivity])
    || (exists "e"%char; split; [cbn; tauto|reflexivity]).
Qed.

Lemma substring_chars (n m : nat) (s : string) (a : ascii) :
  In a (list_ascii_of_string (String.substring n m s)) ->
  In a (list_ascii_of_string s).
Proof.
  revert n m; induction s as [|b s IH]; intros n m H.
  - destruct n, m; simpl in H; contradiction.
  - destruct n as [|n]; simpl in H.
    + destruct m as [|m]; simpl in H; [contradiction|].
      destruct H as [->|H]; [now left|]. right. now apply (IH 0 m).
    + right. now apply (IH n m).
Qed.

Lemma noLower_not_inherited (s : string) (a b : nat) :
  noLower s -> inherited (substring s a b) = false.
Proof.
  intros Hs. destruct (inherited (substring s a b)) eqn:Hi; [|reflexivity].
  apply inherited_has_lower in Hi as (c & Hin & Hc).
  apply substring_chars in Hin. unfold noLower in Hs.
  rewrite Forall_forall in Hs. rewrite (Hs c Hin) in Hc. discriminate.
Qed.

Lemma chain_normal (fuel : nat) (ct candidate : string)
    (k startIndex searchIndex : nat) tables :
  String.length candidate = k -> 1 <= k ->
  String.length ct <= fuel + searchIndex ->
  inherited candidate = false ->
  exists tables',
    chain fuel ct candidate k startIndex searchIndex tables = Normal tables'.
Proof.
  intros Hk Hk1 Hf Hi.
  pose proof (chain_terminates fuel ct candidate k startIndex searchIndex
                tables Hk Hk1 Hf) as Hterm.
  destruct (chain fuel ct candidate k startIndex searchIndex tables)
    as [t|err|] eqn:Hc; [now exists t| |contradiction].
  exfalso. clear Hterm. revert searchIndex tables Hf Hc.
  induction fuel as [|fuel IH]; intros searchIndex tables Hf Hc;
    simpl in Hc; destruct (indexOf ct candidate searchIndex) as [n|] eqn:Hn;
    try discriminate; unfold record in Hc; rewrite Hi in Hc;
    cbn [bind] in Hc; try discriminate.
  apply indexOf_bounds in Hn. eapply IH; [|exact Hc]. lia.
Qed.

(** On a text without lower-case letters the search returns: no recurring
    substring can be the name of an inherited property. *)
Lemma recurrenceSearch_returns (ct : string) :
  noLower ct -> exists st ft, recurrenceSearch ct = Normal (st, ft).
Proof.
  intros Hct. unfold recurrenceSearch.
  destruct (forEach_normal (fun _ => True)
              (seq 2 (String.length ct / 2 - 2))
              (fun k =>
                 forEach (seq 0 (String.length ct - 2 * k))
                   (fun startIndex tables =>
                      chain (String.length ct) ct
                        (substring ct startIndex (startIndex + k)) k
                        startIndex (startIndex + k) tables))
              ([], []))
    as ([st ft] & H & _); [|exact I|now exists st, ft].
  intros k t Hk _. apply in_seq in Hk.
  apply (forEach_normal (fun _ => True)); [|exact I].
  intros i u Hi _. apply in_seq in Hi.
  destruct (chain_normal (String.length ct) ct
              (substring ct i (i + k)) k i (i + k) u) as [u' Hu]; try lia.
  - apply substring_length. lia.
  - now apply noLower_not_inherited.
  - now exists u'.
Qed.

Lemma toUpperCase_noLower (s : string) : noLower (toUpperCase s).
Proof.
  unfold noLower. induction s as [|a s IH]; simpl; constructor; auto.
  unfold isLower.
  destruct (Z_le_dec 97 (code a)) as [H1|H1];
    [destruct (Z_le_dec (code a) 122) as [H2|H2]|].
  - unfold upperChar. apply Z.leb_le in H1 as H1', H2 as H2'.
    rewrite H1', H2'. simpl. rewrite code_ascii_of by lia.
    replace (97 <=? code a - 32)%Z with false; [reflexivity|].
    symmetry. apply Z.leb_gt. lia.
  - rewrite upperChar_other by lia.
    replace (code a <=? 122)%Z with false; [apply andb_false_r|].
    symmetry. apply Z.leb_gt. lia.
  - rewrite upperChar_other by lia.
    replace (97 <=? code a)%Z with false; [reflexivity|].
    symmetry. apply Z.leb_gt. lia.
Qed.

(** The search on the working text of a freshly built engine returns. *)
Lemma recurrenceSearch_of_engine (text k : option string) :
  exists st ft,
    recurrenceSearch (cryptotext (newVigenere text k)) = Normal (st, ft).
Proof. apply recurrenceSearch_returns, toUpperCase_noLower. Qed.

(** * Further properties of the code *)

(** ** Encryption and decryption *)

Lemma cyclicPlus_cyclicMinus (x c : string) :
  cyclicPlus (cyclicMinus x c) c = x.
Proof.
  destruct (matchesLetter x && matchesLetter c) eqn:H.
  - apply andb_true_iff in H as [Hx Hc].
    apply matchesLetter_inv in Hx as (a & -> & Ha).
    apply matchesLetter_inv in Hc as (b & -> & Hb).
    destruct (cyclicMinus_letters a b Ha Hb) as (y & Hy & Hcy).
    fold (single a) (single b). rewrite Hy.
    assert (Huy : isUpper y = true).
    { apply isUpper_range.
      pose proof (Z.mod_pos_bound (index a - index b) 26). lia. }
    destruct (cyclicPlus_letters y b Huy Hb) as (z & -> & Hz).
    unfold single. f_equal. apply code_inj. rewrite Hz.
    apply isUpper_range in Ha, Hb. unfold index in *. rewrite Hcy.
    replace ((code a - 65 - (code b - 65)) mod 26 + 65 - 65
             + (code b - 65))%Z
      with ((code a - 65 - (code b - 65)) mod 26 + (code b - 65))%Z by lia.
    rewrite Zplus_mod_idemp_l.
    replace (code a - 65 - (code b - 65) + (code b - 65))%Z
      with (code a - 65)%Z by lia.
    rewrite Z.mod_small by lia. lia.
  - destruct (cyclic_pass_through x c H) as [_ ->].
    now destruct (cyclic_pass_through x c H) as [-> _].
Qed.

Lemma encrypt_decrypt_text (text k : string) :
  build (combineAt cyclicPlus
           (build (combineAt cyclicMinus text k) (String.length text)) k)
        (String.length
           (build (combineAt cyclicMinus text k) (String.length text)))
  = text.
Proof.
  assert (Hlen : String.length
                   (build (combineAt cyclicMinus text k) (String.length text))
                 = String.length text).
  { apply build_length.
    intros; apply combineAt_length; [apply cyclicMinus_length|assumption]. }
  rewrite Hlen. transitivity (build (charAt text) (String.length text));
    [|apply build_charAt].
  apply build_ext. intros i Hi. unfold combineAt at 1.
  rewrite charAt_build; auto.
  - unfold combineAt. apply cyclicPlus_cyclicMinus.
  - intros; apply combineAt_length; [apply cyclicMinus_length|assumption].
Qed.

(** X1: for every engine and every key, also one with characters that are
    not letters, making the result of [encrypt] the working text with
    [setText] and decrypting it under the same key gives the working text
    back, and so does encrypting what [decrypt] returned. *)
Theorem setText_round_trips (e : Vigenere) (k : option string) :
  fst (decrypt (setText (snd (encrypt e k)) (fst (encrypt e k))) k)
  = cryptotext e
  /\ fst (encrypt (setText (snd (decrypt e k)) (fst (decrypt e k))) k)
     = cryptotext e.
Proof.
  split.
  - unfold encrypt, decrypt, setText. cbn [fst snd key cryptotext].
    apply decrypt_encrypt_text.
  - unfold encrypt, decrypt, setText. cbn [fst snd key cryptotext].
    apply encrypt_decrypt_text.
Qed.

Lemma matchesLetter_cyclicPlus (x c : string) :
  matchesLetter (cyclicPlus x c) = matchesLetter x.
Proof.
  destruct (matchesLetter x && matchesLetter c) eqn:H.
  - apply andb_true_iff in H as [Hx Hc]. rewrite Hx.
    apply matchesLetter_inv in Hx as (a & -> & Ha).
    apply matchesLetter_inv in Hc as (b & -> & Hb).
    destruct (cyclicPlus_letters a b Ha Hb) as (y & Hy & Hcy).
    unfold single in Hy. rewrite Hy. simpl. apply isUpper_range.
    pose proof (Z.mod_pos_bound (index a + index b) 26). lia.
  - now destruct (cyclic_pass_through x c H) as [-> _].
Qed.

Lemma matchesLetter_cyclicMinus (x c : string) :
  matchesLetter (cyclicMinus x c) = matchesLetter x.
Proof.
  destruct (matchesLetter x && matchesLetter c) eqn:H.
  - apply andb_true_iff in H as [Hx Hc]. rewrite Hx.
    apply matchesLetter_inv in Hx as (a & -> & Ha).
    apply matchesLetter_inv in Hc as (b & -> & Hb).
    destruct (cyclicMinus_letters a b Ha Hb) as (y & Hy & Hcy).
    unfold single in Hy. rewrite Hy. simpl. apply isUpper_range.
    pose proof (Z.mod_pos_bound (index a - index b) 26). lia.
  - now destruct (cyclic_pass_through x c H) as [_ ->].
Qed.

(** The letters stay where they are: what [decrypt] returns has a letter
    exactly where the working text has one. *)
Lemma decrypt_letter_positions (e : Vigenere) (k : option string) (i : nat) :
  matchesLetter (charAt (fst (decrypt e k)) i)
  = matchesLetter (charAt (cryptotext e) i).
Proof.
  destruct (decrypt_output e k) as [Hlen Hch].
  destruct (Nat.lt_ge_cases i (String.length (cryptotext e))) as [Hi|Hi].
  - rewrite Hch by assumption. apply matchesLetter_cyclicMinus.
  - rewrite !charAt_outside; auto. now rewrite Hlen.
Qed.

(** X2: [encrypt] and [decrypt] keep the length of the working text and
    the places of its letters: at every position the result holds an
    upper-case letter exactly when the working text does, and a character
    that is not an upper-case letter is returned as it is. *)
Theorem letters_stay_in_place (e : Vigenere) (k : option string) :
  String.length (fst (encrypt e k)) = String.length (cryptotext e)
  /\ String.length (fst (decrypt e k)) = String.length (cryptotext e)
  /\ forall i,
       matchesLetter (charAt (fst (encrypt e k)) i)
       = matchesLetter (charAt (cryptotext e) i)
       /\ matchesLetter (charAt (fst (decrypt e k)) i)
          = matchesLetter (charAt (cryptotext e) i)
       /\ (matchesLetter (charAt (cryptotext e) i) = false ->
           charAt (fst (encrypt e k)) i = charAt (cryptotext e) i
           /\ charAt (fst (decrypt e k)) i = charAt (cryptotext e) i).
Proof.
  destruct (encrypt_output e k) as [Hlen Hch].
  destruct (decrypt_output e k) as [Hlen' Hch'].
  split; [exact Hlen|]. split; [exact Hlen'|]. intros i.
  split; [|split; [apply decrypt_letter_positions|]].
  - destruct (Nat.lt_ge_cases i (String.length (cryptotext e))) as [Hi|Hi].
    + rewrite Hch by assumption. apply matchesLetter_cyclicPlus.
    + rewrite !charAt_outside; auto. now rewrite Hlen.
  - intros Hno.
    destruct (Nat.lt_ge_cases i (String.length (cryptotext e))) as [Hi|Hi].
    + rewrite Hch, Hch' by assumption. unfold combineAt.
      apply cyclic_pass_through. now rewrite Hno.
    + rewrite !charAt_outside; auto; [now rewrite Hlen'|now rewrite Hlen].
Qed.

Lemma noUpper_charAt (s : string) (i : nat) :
  noUpper s -> matchesLetter (charAt s i) = false.
Proof.
  unfold noUpper, charAt. revert i.
  induction s as [|a s IH]; intros i H; [now destruct i|].
  inversion H as [|? ? Ha Hs]; subst. destruct i as [|i]; simpl.
  - exact Ha.
  - now apply IH.
Qed.

Lemma pass_through_text (op : string -> string -> string) (text k : string) :
  (forall x c, matchesLetter x && matchesLetter c = false -> op x c = x) ->
  noUpper k \/ noUpper text ->
  build (combineAt op text k) (String.length text) = text.
Proof.
  intros Hop Hno.
  transitivity (build (charAt text) (String.length text));
    [|apply build_charAt].
  apply build_ext. intros i _. unfold combineAt. apply Hop.
  destruct Hno as [Hk|Ht].
  - rewrite (noUpper_charAt k _ Hk). apply andb_false_r.
  - now rewrite (noUpper_charAt text _ Ht).
Qed.

(** X3: when the key in use has no upper-case letter, or the working text
    has none (a text given to [setText] in lower case, say), [encrypt] and
    [decrypt] return the working text unchanged. *)
Theorem no_letters_no_change (e : Vigenere) (k : option string) :
  noUpper (orElse k (key e)) \/ noUpper (cryptotext e) ->
  fst (encrypt e k) = cryptotext e /\ fst (decrypt e k) = cryptotext e.
Proof.
  intros H. unfold encrypt, decrypt. cbn [fst]. split.
  - apply pass_through_text; [|exact H].
    intros x c Hxc. now destruct (cyclic_pass_through x c Hxc).
  - apply pass_through_text; [|exact H].
    intros x c Hxc. now destruct (cyclic_pass_through x c Hxc).
Qed.

Lemma no_letters_no_change_witness :
  fst (encrypt (setText (newVigenere None (Some "KEY")) "attack at dawn")
               None)
  = "attack at dawn"
  /\ fst (decrypt (newVigenere (Some "Attack") None) (Some "12"))
     = "ATTACK".
Proof.
  split.
  - apply (no_letters_no_change
             (setText (newVigenere None (Some "KEY")) "attack at dawn") None).
    right. repeat constructor.
  - apply (no_letters_no_change (newVigenere (Some "Attack") None)
             (Some "12")).
    left. repeat constructor.
Defined.

(** X4: an engine built without a key, or with the empty key, holds the
    key " ", and its [encrypt] and [decrypt] return the working text, the
    upper-cased text the engine was built from (one space when that text
    was missing or empty). *)
Theorem missing_key_is_identity (text : option string) :
  key (newVigenere text None) = " "
  /\ key (newVigenere text (Some "")) = " "
  /\ fst (encrypt (newVigenere text None) None)
     = toUpperCase (orElse text " ")
  /\ fst (decrypt (newVigenere text None) None)
     = toUpperCase (orElse text " ")
  /\ fst (encrypt (newVigenere text (Some "")) None)
     = toUpperCase (orElse text " ")
  /\ fst (decrypt (newVigenere text (Some "")) None)
     = toUpperCase (orElse text " ").
Proof.
  assert (Hsp : noUpper " ") by (repeat constructor).
  repeat split;
    unfold encrypt, decrypt, newVigenere; cbn [fst key cryptotext];
    rewrite ?orElse_undefined;
    apply pass_through_text; auto;
    intros x c Hxc; now destruct (cyclic_pass_through x c Hxc).
Qed.

(** ** What the search records *)

Lemma substring_inside (s : string) (a k : nat) :
  a + k <= String.length s ->
  substring s a (a + k) = String.substring a k s.
Proof.
  intros H. unfold substring.
  rewrite (Nat.min_l a) by lia. rewrite (Nat.min_l (a + k)) by lia.
  rewrite Nat.min_l, Nat.max_r by lia.
  now replace (a + k - a) with k by lia.
Qed.

Lemma indexOfFrom_correct (t s : string) (pos skip n : nat) :
  indexOfFrom t s pos skip = Some n ->
  pos <= n /\ String.substring (n - pos) (String.length t) s = t.
Proof.
  revert pos skip; induction s as [|b s IH]; intros pos skip H.
  - destruct skip, t; simpl in H; try discriminate;
      injection H as <-; rewrite Nat.sub_diag; split; auto.
  - destruct skip as [|skip].
    + cbn [indexOfFrom] in H.
      destruct (String.prefix t (String b s)) eqn:Hp.
      * injection H as <-. rewrite Nat.sub_diag. split; [lia|].
        now apply prefix_correct.
      * apply IH in H as [Hle Hs]. split; [lia|].
        replace (n - pos) with (S (n - S pos)) by lia. exact Hs.
    + cbn [indexOfFrom] in H. apply IH in H as [Hle Hs]. split; [lia|].
      replace (n - pos) with (S (n - S pos)) by lia. exact Hs.
Qed.

(** [indexOf] answers with a place where the string stands, within the
    text and not before the place the search started from. *)
Lemma indexOf_correct (s t : string) (from n : nat) :
  t <> "" ->
  indexOf s t from = Some n ->
  from <= n /\ n + String.length t <= String.length s
  /\ substring s n (n + String.length t) = t.
Proof.
  intros Ht H. pose proof (indexOf_bounds s t from n H) as [Hmin Hmax].
  apply nonempty_length in Ht.
  apply indexOfFrom_correct in H as [_ Hs]. rewrite Nat.sub_0_r in Hs.
  repeat split; [lia|exact Hmax|].
  now rewrite substring_inside.
Qed.

Lemma pushOwn_in (name : string) (o : Occurrence) (st : SubstringTable)
    (s : string) (occs : list Occurrence) :
  In (s, occs) (pushOwn name o st) ->
  In (s, occs) st
  \/ (s = name
      /\ exists old, occs = (old ++ [o])%list
                     /\ (old = [] \/ In (s, old) st)).
Proof.
  induction st as [|[n os] r IH]; simpl.
  - intros [H|[]]. injection H as <- <-. right. split; [reflexivity|].
    exists []. auto.
  - destruct (String.eqb_spec n name) as [->|Hne]; simpl.
    + intros [H|H]; [|now left; right].
      injection H as <- <-. right. split; [reflexivity|].
      exists os. split; [reflexivity|]. right. now left.
    + intros [H|H]; [now left; left|].
      destruct (IH H) as [Hin|(-> & old & -> & Hold)]; [now left; right|].
      right. split; [reflexivity|]. exists old. split; [reflexivity|].
      destruct Hold as [->|Hold]; [now left|right; now right].
Qed.

Lemma occurrencesWithGap_pushOwn (n : nat) (name : string) (o : Occurrence)
    (st : SubstringTable) :
  occurrencesWithGap n (pushOwn name o st)
  = occurrencesWithGap n st + (if gapToNextAppearance o =? n then 1 else 0).
Proof.
  unfold occurrencesWithGap.
  induction st as [|[m os] r IH]; simpl.
  - destruct (gapToNextAppearance o =? n); reflexivity.
  - destruct (String.eqb_spec m name) as [->|Hne]; simpl.
    + rewrite filter_app, List.length_app. simpl.
      destruct (gapToNextAppearance o =? n); simpl; lia.
    + rewrite IH. lia.
Qed.

Lemma SearchInv_step (ct s : string) (start next : nat)
    (tables : SubstringTable * FactorTable) :
  SearchInv ct tables ->
  genuine ct s {| indexOfAppearance := start;
                  gapToNextAppearance := next - start |} ->
  SearchInv ct
    (pushOwn s {| indexOfAppearance := start;
                  gapToNextAppearance := next - start |} (fst tables),
     factorGap (next - start) (snd tables)).
Proof.
  intros [Hocc Hfreq] Hgen. split; cbn [fst snd].
  - intros s' occs o Hin Ho.
    destruct (pushOwn_in _ _ _ _ _ Hin) as [H|(-> & old & -> & Hold)].
    + now apply (Hocc s' occs).
    + apply in_app_iff in Ho as [Ho|[<-|[]]]; [|exact Hgen].
      destruct Hold as [->|Hold]; [contradiction|].
      now apply (Hocc s old).
  - intros n. rewrite occurrencesWithGap_pushOwn. cbn [gapToNextAppearance].
    specialize (Hfreq n). unfold factorGap.
    destruct (Nat.eqb_spec (next - start) n) as [->|Hne].
    + destruct (JsArray.get (snd tables) n) as [e|] eqn:Hget;
        rewrite get_set_same; cbn [frequency]; lia.
    + destruct (JsArray.get (snd tables) (next - start));
        rewrite get_set_other by assumption;
        destruct (JsArray.get (snd tables) n); lia.
Qed.

Lemma chain_SearchInv (fuel : nat) (ct candidate : string)
    (k startIndex searchIndex : nat) tables tables' :
  2 <= k -> String.length candidate = k ->
  substring ct startIndex (startIndex + k) = candidate ->
  startIndex + k <= searchIndex ->
  SearchInv ct tables ->
  chain fuel ct candidate k startIndex searchIndex tables = Normal tables' ->
  SearchInv ct tables'.
Proof.
  intros Hk Hlen Hsub. revert searchIndex tables.
  induction fuel as [|fuel IH]; intros searchIndex tables Hs Hinv H;
    simpl in H;
    (destruct (indexOf ct candidate searchIndex) as [n|] eqn:Hn;
     [|injection H as <-; exact Hinv]);
    unfold record in H; destruct (inherited candidate);
    cbn [bind] in H; try discriminate.
  apply indexOf_correct in Hn as (Hfrom & Hend & Hat);
    [|apply nonempty_length; lia].
  eapply IH; [| |exact H]; [lia|].
  apply SearchInv_step; [exact Hinv|].
  unfold genuine. cbn [indexOfAppearance gapToNextAppearance].
  rewrite Hlen in *.
  replace (startIndex + (n - startIndex)) with n by lia.
  repeat split; auto; lia.
Qed.

(** The invariant holds of what the search returns. *)
Lemma recurrenceSearch_SearchInv (ct : string) st ft :
  recurrenceSearch ct = Normal (st, ft) -> SearchInv ct (st, ft).
Proof.
  unfold recurrenceSearch. intros H.
  eapply (forEach_invariant (SearchInv ct)); [| |exact H].
  - intros k t t' Hk Ht Hloop. apply in_seq in Hk.
    eapply (forEach_invariant (SearchInv ct)); [|exact Ht|exact Hloop].
    intros i u u' Hi Hu Hc. apply in_seq in Hi. simpl in Hc.
    refine (chain_SearchInv _ _ _ _ _ _ _ _ _ _ eq_refl _ Hu Hc);
      try lia.
    apply substring_length. lia.
  - split; cbn [fst snd]; [intros s occs o []|].
    intros n. now rewrite get_nil.
Qed.

(** X5: every occurrence that [recurrenceSearch] records is a real,
    non-overlapping repeat: the substring it is recorded under has at
    least two characters, stands in the text at the recorded index, and
    stands there again one gap further, the gap being at least the length
    of the substring. *)
Theorem recorded_occurrences_genuine (ct : string) (st : SubstringTable)
    (ft : FactorTable) (s : string) (occs : list Occurrence)
    (o : Occurrence) :
  recurrenceSearch ct = Normal (st, ft) ->
  In (s, occs) st -> In o occs ->
  genuine ct s o.
Proof.
  intros H Hs Ho.
  destruct (recurrenceSearch_SearchInv ct st ft H) as [Hocc _].
  exact (Hocc s occs o Hs Ho).
Qed.

Lemma recorded_occurrences_genuine_witness :
  genuine "ABCDABCDX" "BCD"
    {| indexOfAppearance := 1; gapToNextAppearance := 4 |}.
Proof.
  destruct (recurrenceSearch "ABCDABCDX") as [[st ft]| |] eqn:Hs;
    try (vm_compute in Hs; discriminate).
  refine (recorded_occurrences_genuine "ABCDABCDX" st ft "BCD"
            [{| indexOfAppearance := 1; gapToNextAppearance := 4 |}] _
            Hs _ (or_introl eq_refl)).
  vm_compute in Hs. injection Hs as <- _. simpl. tauto.
Defined.

Lemma occurrencesWithGap_positive (n : nat) (st : SubstringTable) :
  1 <= occurrencesWithGap n st ->
  exists s occs o,
    In (s, occs) st /\ In o occs /\ gapToNextAppearance o = n.
Proof.
  unfold occurrencesWithGap. induction st as [|[s occs] r IH]; simpl;
    [lia|].
  destruct (filter (fun o => gapToNextAppearance o =? n) occs)
    as [|o os] eqn:Hf.
  - simpl. intros H. destruct (IH H) as (s' & occs' & o' & Hin & Ho & Hg).
    exists s', occs', o'. auto.
  - intros _. assert (Ho : In o (o :: os)) by now left.
    rewrite <- Hf in Ho. apply filter_In in Ho as [Ho Hg].
    apply Nat.eqb_eq in Hg. exists s, occs, o. auto.
Qed.

Lemma recorded_gap_bounds (ct : string) st ft (n : nat) (e : FactorEntry) :
  recurrenceSearch ct = Normal (st, ft) ->
  JsArray.get ft n = Some e ->
  frequency e = occurrencesWithGap n st /\ 1 <= frequency e
  /\ 2 <= n /\ n + 2 <= String.length ct.
Proof.
  intros H Hget.
  destruct (recurrenceSearch_SearchInv ct st ft H) as [Hocc Hfreq].
  specialize (Hfreq n). cbn [fst snd] in *. rewrite Hget in Hfreq.
  destruct Hfreq as [Hf H1]. split; [exact Hf|]. split; [exact H1|].
  destruct (occurrencesWithGap_positive n st) as (s & occs & o & Hs & Ho & Hg);
    [lia|].
  destruct (Hocc s occs o Hs Ho) as (H2 & _ & Hgap & _ & Hend). lia.
Qed.

(** X6: the factor table counts the occurrences: for every gap n the
    frequency stored for n is the number of recorded occurrences whose gap
    is n, a gap without an entry has no occurrence, and every gap with an
    entry lies between 2 and the length of the text minus 2. *)
Theorem gap_frequencies_count_occurrences (ct : string)
    (st : SubstringTable) (ft : FactorTable) (n : nat) :
  recurrenceSearch ct = Normal (st, ft) ->
  match JsArray.get ft n with
  | Some e => frequency e = occurrencesWithGap n st
              /\ 1 <= frequency e /\ 2 <= n /\ n + 2 <= String.length ct
  | None => occurrencesWithGap n st = 0
  end.
Proof.
  intros H. destruct (JsArray.get ft n) as [e|] eqn:Hget.
  - exact (recorded_gap_bounds ct st ft n e H Hget).
  - destruct (recurrenceSearch_SearchInv ct st ft H) as [_ Hfreq].
    specialize (Hfreq n). cbn [fst snd] in Hfreq. now rewrite Hget in Hfreq.
Qed.

Lemma gap_frequencies_count_occurrences_witness :
  exists st ft e,
    recurrenceSearch "ABCDABCDX" = Normal (st, ft)
    /\ JsArray.get ft 4 = Some e
    /\ frequency e = occurrencesWithGap 4 st
    /\ occurrencesWithGap 4 st = 5.
Proof.
  destruct (recurrenceSearch "ABCDABCDX") as [[st ft]| |] eqn:Hs;
    try (vm_compute in Hs; discriminate).
  pose proof (gap_frequencies_count_occurrences "ABCDABCDX" st ft 4 Hs) as H.
  vm_compute in Hs. injection Hs as <- <-.
  eexists _, _, _. split; [reflexivity|]. split; [reflexivity|].
  split; [exact (proj1 H)|reflexivity].
Defined.

(** ** When the examination returns *)

Lemma examination_found (ct : string) st (ft : FactorTable) :
  recurrenceSearch ct = Normal (st, ft) ->
  (exists f, candidateFactor ft f /\ 4 <= f) ->
  exists x,
    kasiskiExamination ct = Normal x
    /\ substringTable x = st /\ factorTable x = ft
    /\ 4 <= firstKeyLength x
    /\ candidateFactor ft (firstKeyLength x).
Proof.
  intros Hsearch (f4 & Hcand & Hf4).
  destruct (rank_ranked ft) as (refs & holes & Harr & _ & Hin & _).
  set (rk := rank ft) in *.
  set (p := fun r : ref => factor (deref (objects rk) r)) in *.
  destruct (split_first (fun r => 4 <=? p r) refs)
    as (pre & r & post & Hrefs & Hpre & Hr).
  { apply Hin in Hcand. apply in_map_iff in Hcand as (r & Hr & Hrin).
    exists r. split; [exact Hrin|]. apply Nat.leb_le. lia. }
  apply Nat.leb_le in Hr.
  assert (Hpre' : Forall (fun q => factor (deref (objects rk) q) < 4) pre).
  { eapply Forall_impl; [|exact Hpre]. intros q Hq.
    apply Nat.leb_gt in Hq. exact Hq. }
  exists {| substringTable := st; factorTable := ft; ranking := rk;
            firstKeyLength := p r |}.
  cbn [substringTable factorTable firstKeyLength].
  split; [|split; [reflexivity|split; [reflexivity|split; [exact Hr|]]]].
  - unfold kasiskiExamination. rewrite Hsearch. cbn [bind fst snd].
    fold rk. rewrite Harr, Hrefs.
    rewrite (firstLongEnough_found _ pre post r holes 0 Hpre' Hr).
    cbn [bind]. rewrite Nat.add_0_l. unfold factorAt. rewrite Harr, Hrefs.
    now rewrite (get_dense holes pre post r).
  - apply Hin. apply in_map_iff. exists r. split; [reflexivity|].
    rewrite Hrefs. apply in_app_iff. right. now left.
Qed.

Lemma examination_not_found (ct : string) st (ft : FactorTable) :
  recurrenceSearch ct = Normal (st, ft) ->
  (forall f, candidateFactor ft f -> f < 4) ->
  kasiskiExamination ct = Throw TypeError.
Proof.
  intros Hsearch Hsmall.
  destruct (rank_ranked ft) as (refs & holes & Harr & _ & Hin & _).
  unfold kasiskiExamination. rewrite Hsearch. cbn [bind fst snd].
  rewrite Harr, firstLongEnough_none; [reflexivity|].
  apply Forall_forall. intros r Hr. apply Hsmall, Hin.
  apply in_map_iff. now exists r.
Qed.

Lemma small_or_large (ft : FactorTable) :
  (exists f, candidateFactor ft f /\ 4 <= f)
  \/ (forall f, candidateFactor ft f -> f < 4).
Proof.
  destruct (rank_ranked ft) as (refs & holes & _ & _ & Hin & _).
  set (fs := map (fun r => factor (deref (objects (rank ft)) r)) refs) in *.
  destruct (existsb (fun f => 4 <=? f) fs) eqn:He.
  - left. apply existsb_exists in He as (f & Hf & H4).
    exists f. split; [now apply Hin|now apply Nat.leb_le].
  - right. intros f Hf. apply Hin in Hf.
    destruct (Nat.lt_ge_cases f 4) as [H|H]; [exact H|].
    assert (existsb (fun f => 4 <=? f) fs = true); [|congruence].
    apply existsb_exists. exists f. split; [exact Hf|now apply Nat.leb_le].
Qed.

(** Every way the examination of kasiski.js can end. *)
Lemma examination_cases (ct : string) :
  match kasiskiExamination ct with
  | Normal x =>
      recurrenceSearch ct = Normal (substringTable x, factorTable x)
      /\ 4 <= firstKeyLength x
      /\ candidateFactor (factorTable x) (firstKeyLength x)
  | Throw _ =>
      recurrenceSearch ct = Throw TypeError
      \/ exists st ft, recurrenceSearch ct = Normal (st, ft)
                       /\ forall f, candidateFactor ft f -> f < 4
  | Diverge => False
  end.
Proof.
  destruct (recurrenceSearch ct) as [[st ft]|[]|] eqn:Hs.
  - destruct (small_or_large ft) as [Hl|Hsm].
    + destruct (examination_found ct st ft Hs Hl)
        as (x & -> & <- & <- & H4 & Hc). auto.
    + rewrite (examination_not_found ct st ft Hs Hsm). right.
      now exists st, ft.
  - unfold kasiskiExamination. rewrite Hs. now left.
  - now apply recurrenceSearch_terminates in Hs.
Qed.

(** X7: the examination of kasiski.js returns exactly when the search
    returns and some recorded gap lists a factor of at least 4; in every
    other case it throws a TypeError. *)
Theorem examination_returns_iff (ct : string) :
  ((exists x, kasiskiExamination ct = Normal x)
   <-> exists st ft f, recurrenceSearch ct = Normal (st, ft)
                       /\ candidateFactor ft f /\ 4 <= f)
  /\ ((forall x, kasiskiExamination ct <> Normal x)
      -> kasiskiExamination ct = Throw TypeError).
Proof.
  pose proof (examination_cases ct) as Hc. split; [split|].
  - intros [x Hx]. rewrite Hx in Hc. destruct Hc as (Hs & H4 & Hcand).
    now exists (substringTable x), (factorTable x), (firstKeyLength x).
  - intros (st & ft & f & Hs & Hcand & H4).
    destruct (examination_found ct st ft Hs) as (x & Hx & _);
      [now exists f|now exists x].
  - intros Hno. destruct (kasiskiExamination ct) as [x|[]|];
      [now destruct (Hno x)|reflexivity|contradiction].
Qed.

Lemma Recorded_listed (ft : FactorTable) (n : nat) (e : FactorEntry)
    (f : nat) :
  Recorded ft -> JsArray.get ft n = Some e -> listed e f ->
  2 <= f /\ f * f <= n /\ n mod f = 0.
Proof.
  intros Hrec. revert n e.
  induction Hrec as [|g ft Hrec IH]; intros n e Hget Hl.
  - rewrite get_nil in Hget. discriminate.
  - destruct (factorGap_get g ft n e Hget)
      as [[_ H]|[(-> & Hfl & _)|(-> & e0 & H0 & Hfl & _)]].
    + now apply (IH n e).
    + unfold listed in Hl. rewrite Hfl in Hl. now apply factorsOf_listed.
    + apply (IH g e0 H0). unfold listed in *. now rewrite <- Hfl.
Qed.

Lemma suggestion_bounds_core (ct : string) (x : Examination) :
  kasiskiExamination ct = Normal x ->
  4 <= firstKeyLength x
  /\ firstKeyLength x * firstKeyLength x + 2 <= String.length ct
  /\ exists n e, JsArray.get (factorTable x) n = Some e
                 /\ n mod firstKeyLength x = 0.
Proof.
  intros Hx. pose proof (examination_cases ct) as Hc. rewrite Hx in Hc.
  destruct Hc as (Hs & H4 & n & e & Hget & Hl).
  pose proof (recurrenceSearch_Recorded ct _ _ Hs) as Hrec.
  pose proof (Recorded_listed _ n e _ Hrec Hget Hl) as Hf.
  destruct (recorded_gap_bounds ct _ _ n e Hs Hget) as (_ & _ & _ & Hn).
  split; [exact H4|]. split; [lia|]. exists n, e. tauto.
Qed.

(** X8: whenever the examination of kasiski.js returns, the key length it
    suggests is at least 4, divides a recorded gap, and its square is at
    most the length of the text minus 2: only divisors up to the square
    root of a gap are ever listed. *)
Theorem suggestion_bounds (ct : string) (x : Examination) :
  kasiskiExamination ct = Normal x ->
  4 <= firstKeyLength x
  /\ firstKeyLength x * firstKeyLength x + 2 <= String.length ct
  /\ exists n e, JsArray.get (factorTable x) n = Some e
                 /\ n mod firstKeyLength x = 0.
Proof. apply suggestion_bounds_core. Qed.

Lemma suggestion_bounds_witness :
  exists x,
    kasiskiExamination "ABCDEFGHIJKLMNOPQRSTABCZ" = Normal x
    /\ 4 <= firstKeyLength x
    /\ firstKeyLength x * firstKeyLength x + 2 <= 24.
Proof.
  destruct (kasiskiExamination "ABCDEFGHIJKLMNOPQRSTABCZ") as [x| |] eqn:Hx;
    try (vm_compute in Hx; discriminate).
  exists x. split; [reflexivity|].
  destruct (suggestion_bounds _ x Hx) as (H4 & Hsq & _). auto.
Defined.

(** X9: on every ciphertext shorter than 18 characters the examination of
    kasiski.js throws a TypeError: no gap of such a text can list a factor
    of 4 or more. *)
Theorem short_text_throws (ct : string) :
  String.length ct < 18 -> kasiskiExamination ct = Throw TypeError.
Proof.
  intros Hlen. pose proof (examination_cases ct) as Hc.
  destruct (kasiskiExamination ct) as [x|[]|] eqn:Hx;
    [|reflexivity|contradiction].
  destruct (suggestion_bounds_core ct x Hx) as (H4 & Hsq & _). nia.
Qed.

Lemma short_text_throws_witness :
  kasiskiExamination "LXFOPVEFRNHRLXFOP" = Throw TypeError.
Proof. apply short_text_throws. simpl. lia. Defined.

Lemma listed_at_least_2 (ct : string) st ft (f : nat) :
  recurrenceSearch ct = Normal (st, ft) -> candidateFactor ft f -> 2 <= f.
Proof.
  intros Hs (n & e & Hget & Hl).
  pose proof (recurrenceSearch_Recorded ct _ _ Hs) as Hrec.
  now destruct (Recorded_listed _ n e f Hrec Hget Hl).
Qed.

(** X10: the bundled variant of the examination returns whenever the
    search records a gap with a factor, and suggests the first entry of
    the ranking: a listed factor, at least 2, whose aggregate frequency no
    other listed factor exceeds, the smallest such factor on a tie. *)
Theorem bundled_suggests_top_rank (ct : string) (st : SubstringTable)
    (ft : FactorTable) :
  recurrenceSearch ct = Normal (st, ft) ->
  (exists f, candidateFactor ft f) ->
  exists x,
    Bundled.kasiskiExamination ct = Normal x
    /\ candidateFactor ft (firstKeyLength x)
    /\ 2 <= firstKeyLength x
    /\ forall g, candidateFactor ft g ->
         aggregateFrequency ft g <= aggregateFrequency ft (firstKeyLength x)
         /\ (aggregateFrequency ft g = aggregateFrequency ft (firstKeyLength x)
             -> firstKeyLength x <= g).
Proof.
  intros Hs [f Hf].
  destruct (rank_ranked ft) as (refs & holes & Harr & _ & Hin & Hsorted).
  set (rk := rank ft) in *.
  set (p := fun r : ref => factor (deref (objects rk) r)) in *.
  destruct refs as [|r rest].
  { apply Hin in Hf. contradiction. }
  exists {| substringTable := st; factorTable := ft; ranking := rk;
            firstKeyLength := p r |}.
  cbn [firstKeyLength].
  assert (Hr : candidateFactor ft (p r)) by (apply Hin; now left).
  split; [|split; [exact Hr|split]].
  - unfold Bundled.kasiskiExamination. rewrite Hs. cbn [bind fst snd].
    fold rk. unfold factorAt. now rewrite Harr.
  - exact (listed_at_least_2 ct st ft _ Hs Hr).
  - intros g Hg. apply Hin in Hg. cbn [map] in Hg, Hsorted.
    inversion Hsorted as [|? ? _ Hall]; subst.
    destruct Hg as [<-|Hg]; [split; auto|].
    rewrite Forall_forall in Hall. specialize (Hall g Hg).
    unfold ranksBefore in Hall. lia.
Qed.

Lemma bundled_suggests_top_rank_witness :
  exists x,
    Bundled.kasiskiExamination "ABCDABCDX" = Normal x
    /\ 2 <= firstKeyLength x.
Proof.
  destruct (recurrenceSearch "ABCDABCDX") as [[st ft]| |] eqn:Hs;
    try (vm_compute in Hs; discriminate).
  assert (Hc : exists f, candidateFactor ft f).
  { vm_compute in Hs. injection Hs as _ <-.
    exists 2. eexists 4, _. split; [reflexivity|]. vm_compute. tauto. }
  destruct (bundled_suggests_top_rank _ st ft Hs Hc) as (x & Hx & _ & H2 & _).
  now exists x.
Defined.

(** X11: [smashKey] called without a key length (or with 0) never falls
    back to length 1: when it returns, the examination of the working
    text has returned, the table has as many columns as the examination
    suggested, at least 4, and the square of that number is at most the
    length of the working text minus 2; in every other case the call
    throws a TypeError. *)
Theorem smashKey_without_length (e : Vigenere) (options : option nat) :
  (forall r e',
     smashKey e None options = Normal (r, e') ->
     exists x,
       engineExamination e = Normal x
       /\ List.length (candidateTable r) = firstKeyLength x
       /\ 4 <= List.length (candidateTable r)
       /\ List.length (candidateTable r) * List.length (candidateTable r) + 2
          <= String.length (cryptotext e))
  /\ smashKey e (Some 0) options = smashKey e None options
  /\ ((forall x, engineExamination e <> Normal x) ->
      smashKey e None options = Throw TypeError).
Proof.
  unfold engineExamination. split; [|split].
  - intros r e'. rewrite smashKey_unfold.
    destruct (kasiskiExamination (cryptotext e)) as [x| |] eqn:Hx;
      cbn [bind]; intros H; [|discriminate H|discriminate H].
    destruct (suggestion_bounds_core _ x Hx) as (H4 & Hsq & _).
    assert (Hlen : orElseNum (Some (firstKeyLength x)) 1 = firstKeyLength x).
    { simpl. destruct (firstKeyLength x); [lia|reflexivity]. }
    rewrite Hlen in H.
    destruct (recoverKey_result e (firstKeyLength x)) as (r0 & Hr0 & Hl & _);
      [lia|].
    rewrite Hr0 in H. injection H as <- _.
    exists x. rewrite Hl. auto.
  - reflexivity.
  - intros Hno. rewrite smashKey_unfold.
    pose proof (examination_cases (cryptotext e)) as Hc.
    destruct (kasiskiExamination (cryptotext e)) as [x|[]|];
      [now destruct (Hno x)|reflexivity|contradiction].
Qed.

(** X12: the search always comes to an end, with a result or with a
    TypeError; on a text without lower-case letters (the working text of
    every engine as the constructor stores it) it returns, since no
    recurring substring can then be the name of a property that
    [substringTable] inherits. *)
Theorem search_returns_without_lower_case (ct : string) :
  noLower ct ->
  (exists st ft, recurrenceSearch ct = Normal (st, ft))
  /\ (forall text k,
        exists st ft,
          recurrenceSearch (cryptotext (newVigenere text k))
          = Normal (st, ft))
  /\ (forall t, recurrenceSearch t <> Diverge).
Proof.
  intros H. split; [now apply recurrenceSearch_returns|]. split.
  - intros text k. apply recurrenceSearch_of_engine.
  - apply recurrenceSearch_terminates.
Qed.

Lemma search_returns_without_lower_case_witness :
  exists st ft, recurrenceSearch "TO BE OR NOT TO BE" = Normal (st, ft).
Proof.
  apply (search_returns_without_lower_case "TO BE OR NOT TO BE").
  repeat constructor.
Defined.

(** ** The columns of [frequencies], counted *)

Lemma alphabet_letters :
  Forall (fun lf => matchesLetter (fst lf) = true) letterFrequencies.
Proof. repeat constructor. Qed.

Lemma expected_positive :
  Forall (fun lf => (0 < snd lf)%Q) letterFrequencies.
Proof. repeat constructor. Qed.

Lemma filter_seq_S (P : nat -> bool) (m : nat) :
  filter P (seq 0 (S m))
  = (filter P (seq 0 m) ++ (if P m then [m] else []))%list.
Proof. rewrite seq_S, filter_app. reflexivity. Qed.

Lemma countColumns_below (columns : nat) (text : string) (c : nat) :
  c < columns ->
  forall m,
    nth_error
      (fold_left
         (fun cols i =>
            if negb (matchesLetter (charAt text i)) then cols
            else updateAt (i mod columns) (countLetter (charAt text i)) cols)
         (seq 0 m) (repeat emptyTally columns)) c
    = Some (tallyBelow columns text c m).
Proof.
  intros Hc. induction m as [|m IH].
  - simpl. now apply nth_error_repeat.
  - rewrite seq_S, fold_left_app. cbn [fold_left Nat.add].
    set (cols := fold_left _ (seq 0 m) _) in *.
    assert (Hstep : forall t : Tally,
              (if (m mod columns =? c) && matchesLetter (charAt text m)
               then countLetter (charAt text m) t else t)
              = tallyBelow columns text c (S m) ->
              nth_error cols c = Some t ->
              nth_error
                (if negb (matchesLetter (charAt text m)) then cols
                 else updateAt (m mod columns)
                        (countLetter (charAt text m)) cols) c
              = Some (tallyBelow columns text c (S m))).
    { intros t Ht Hn.
      destruct (matchesLetter (charAt text m)); cbn [negb].
      - rewrite nth_error_updateAt, Hn.
        destruct (m mod columns =? c); cbn [andb option_map] in *;
          now rewrite Ht.
      - rewrite andb_false_r in Ht. now rewrite Hn, Ht. }
    apply (Hstep (tallyBelow columns text c m)); [|exact IH]. clear Hstep.
    unfold tallyBelow. rewrite filter_seq_S.
    destruct ((m mod columns =? c) && matchesLetter (charAt text m)) eqn:Hb.
    + apply andb_true_iff in Hb as [Hcol Hm].
      unfold countLetter. cbn [count seen]. f_equal.
      * rewrite map_map. apply map_ext. intros lf. cbn [fst snd].
        rewrite filter_seq_S, String.eqb_sym, Hcol. cbn [andb].
        destruct (charAt text m =? fst lf)%string;
          rewrite ?List.length_app, ?app_nil_r; cbn [List.length];
          f_equal; lia.
      * rewrite List.length_app. cbn [List.length]. lia.
    + rewrite app_nil_r. f_equal.
      apply map_ext_in. intros lf Hin. rewrite filter_seq_S.
      replace ((m mod columns =? c) && (charAt text m =? fst lf)%string)
        with false; [now rewrite app_nil_r|].
      symmetry. apply andb_false_iff.
      apply andb_false_iff in Hb as [Hb|Hb]; [now left|right].
      pose proof alphabet_letters as Hal. rewrite Forall_forall in Hal.
      specialize (Hal lf Hin).
      destruct (String.eqb_spec (charAt text m) (fst lf)) as [Heq|_];
        [rewrite Heq in Hb; congruence|reflexivity].
Qed.

Lemma countColumns_nth (columns : nat) (text : string) (c : nat) :
  c < columns ->
  nth_error (countColumns columns text) c
  = Some (tallyBelow columns text c (String.length text)).
Proof. intros Hc. now apply countColumns_below. Qed.

Lemma countOf_tallyBelow (columns : nat) (text : string) (c : nat)
    (lf : string * Q) :
  In lf letterFrequencies ->
  countOf (tallyBelow columns text c (String.length text)) (fst lf)
  = occurrencesInColumn columns text c (fst lf).
Proof.
  intros Hin. unfold countOf, tallyBelow, occurrencesInColumn. cbn [count].
  induction letterFrequencies as [|x l IH]; [contradiction|].
  cbn [map find fst].
  destruct (String.eqb_spec (fst x) (fst lf)) as [Heq|Hne].
  - cbn [snd]. now rewrite Heq.
  - destruct Hin as [->|Hin]; [congruence|]. now apply IH.
Qed.

Lemma scoreColumn_fold (c : Tally) (l : list (string * Q))
    (acc : list (string * num) * num) :
  fold_left
    (fun (acc : list (string * num) * num) (lf : string * Q) =>
       ((fst acc
         ++ [(fst lf, div (ofNat (countOf c (fst lf))) (ofNat (seen c)))])%list,
        add (snd acc)
            (div (pow2 (sub (div (ofNat (countOf c (fst lf)))
                                 (ofNat (seen c)))
                            (Fin (snd lf))))
                 (Fin (snd lf)))))
    l acc
  = ((fst acc
      ++ map (fun lf => (fst lf, div (ofNat (countOf c (fst lf)))
                                     (ofNat (seen c)))) l)%list,
     fold_left
       (fun s lf => add s (chiTerm (div (ofNat (countOf c (fst lf)))
                                        (ofNat (seen c)))
                                   (snd lf)))
       l (snd acc)).
Proof.
  revert acc; induction l as [|lf l IH]; intros acc; cbn [fold_left map].
  - now rewrite app_nil_r, <- surjective_pairing.
  - rewrite IH. cbn [fst snd]. now rewrite <- app_assoc.
Qed.

(** X13: [frequencies] returns one entry per column ([columns || 1] of
    them); the total of a column is the number of upper-case letters of
    the text at the positions of that column, other characters are not
    counted, and the proportion stored for a letter is the number of its
    occurrences in the column divided by that total. *)
Theorem frequencies_count_columns (e : Vigenere) (columns : option nat)
    (text : option string) (c : nat) :
  c < orElseNum columns 1 ->
  List.length (frequencies e columns text) = orElseNum columns 1
  /\ exists col,
       nth_error (frequencies e columns text) c = Some col
       /\ total col
          = lettersInColumn (orElseNum columns 1)
                            (orElse text (cryptotext e)) c
       /\ proportion col
          = map (fun lf =>
                   (fst lf,
                    div (ofNat (occurrencesInColumn
                                  (orElseNum columns 1)
                                  (orElse text (cryptotext e)) c (fst lf)))
                        (ofNat (lettersInColumn
                                  (orElseNum columns 1)
                                  (orElse text (cryptotext e)) c))))
                letterFrequencies.
Proof.
  intros Hc. split; [apply frequencies_length|].
  unfold frequencies. rewrite nth_error_map, countColumns_nth by assumption.
  cbn [option_map]. eexists. split; [reflexivity|].
  unfold scoreColumn. rewrite scoreColumn_fold. cbn [total proportion fst app].
  split; [reflexivity|].
  apply map_ext_in. intros lf Hin. now rewrite countOf_tallyBelow.
Qed.

Lemma frequencies_count_columns_witness :
  exists col,
    nth_error (frequencies (newVigenere (Some "AB, AC!") None) (Some 2) None) 0
    = Some col
    /\ total col = 2.
Proof.
  destruct (frequencies_count_columns (newVigenere (Some "AB, AC!") None)
              (Some 2) None 0) as (_ & col & Hn & Ht & _).
  - simpl. lia.
  - exists col. split; [exact Hn|]. rewrite Ht. reflexivity.
Defined.

(** ** Scores that are numbers *)

Lemma square_nonneg (d : Q) : (0 <= d * d)%Q.
Proof.
  unfold Qle, Qmult. simpl. rewrite Z.mul_1_r. apply Z.square_nonneg.
Qed.

Lemma isZero_positive (q : Q) : (0 < q)%Q -> isZero q = false.
Proof.
  intros H. unfold isZero. destruct (Qeq_bool q 0) eqn:He; [|reflexivity].
  apply Qeq_bool_iff in He. rewrite He in H. now apply Qlt_irrefl in H.
Qed.

Lemma div_counts (c t : nat) :
  1 <= t ->
  div (ofNat c) (ofNat t)
  = Fin (Qred (inject_Z (Z.of_nat c) / inject_Z (Z.of_nat t))).
Proof.
  intros Ht. unfold div, ofNat. rewrite isZero_positive; [reflexivity|].
  unfold Qlt. simpl. lia.
Qed.

Lemma chiTerm_number (p expected : Q) :
  (0 < expected)%Q ->
  exists t, chiTerm (Fin p) expected = Fin t /\ (0 <= t)%Q.
Proof.
  intros He. unfold chiTerm, sub, neg, add, pow2, mul, div.
  rewrite (isZero_positive expected He).
  eexists. split; [reflexivity|].
  rewrite Qred_correct. apply Qle_shift_div_l; [exact He|].
  rewrite Qmult_0_l, Qred_correct. apply square_nonneg.
Qed.

Lemma chi_sum_number (c t : nat) (l : list (string * Q))
    (count : string -> nat) (q : Q) :
  1 <= t -> (0 <= q)%Q ->
  Forall (fun lf => (0 < snd lf)%Q) l ->
  exists q',
    fold_left (fun s lf => add s (chiTerm (div (ofNat (count (fst lf)))
                                               (ofNat t))
                                          (snd lf)))
              l (Fin q)
    = Fin q'
    /\ (0 <= q')%Q.
Proof.
  intros Ht Hq Hl. revert q Hq.
  induction Hl as [|lf l Hlf Hl IH]; intros q Hq; cbn [fold_left].
  - now exists q.
  - rewrite div_counts by assumption.
    destruct (chiTerm_number
                (Qred (inject_Z (Z.of_nat (count (fst lf)))
                       / inject_Z (Z.of_nat t))) (snd lf) Hlf)
      as (term & -> & Hterm).
    cbn [add]. apply IH. rewrite Qred_correct.
    replace 0%Q with (0 + 0)%Q by reflexivity.
    now apply Qplus_le_compat.
Qed.

Lemma score_number (t : Tally) :
  1 <= seen t ->
  exists q, score (scoreColumn t) = Fin q /\ (0 <= q)%Q.
Proof.
  intros Ht. unfold scoreColumn. rewrite scoreColumn_fold. cbn [score snd].
  apply (chi_sum_number 0 (seen t) letterFrequencies (countOf t) 0 Ht).
  - apply Qle_refl.
  - apply expected_positive.
Qed.

(** X14: the score of a column that holds at least one upper-case letter
    is a number, not NaN and not an infinity, and it is not negative. *)
Theorem score_of_lettered_column (e : Vigenere) (columns : option nat)
    (text : option string) (c : nat) :
  c < orElseNum columns 1 ->
  1 <= lettersInColumn (orElseNum columns 1)
                       (orElse text (cryptotext e)) c ->
  exists col q,
    nth_error (frequencies e columns text) c = Some col
    /\ score col = Fin q /\ (0 <= q)%Q.
Proof.
  intros Hc Hl. unfold frequencies.
  rewrite nth_error_map, countColumns_nth by assumption. cbn [option_map].
  destruct (score_number
              (tallyBelow (orElseNum columns 1)
                          (orElse text (cryptotext e)) c
                          (String.length (orElse text (cryptotext e)))))
    as (q & Hq & H0); [exact Hl|].
  eexists _, q. split; [reflexivity|]. auto.
Qed.

Lemma score_of_lettered_column_witness :
  exists col q,
    nth_error (frequencies (newVigenere (Some "A") None) None None) 0
    = Some col
    /\ score col = Fin q /\ (0 <= q)%Q.
Proof.
  apply (score_of_lettered_column (newVigenere (Some "A") None) None None 0).
  - simpl. lia.
  - vm_compute. lia.
Defined.

(** ** [smashKey] in closed form *)

Lemma pushAll_closed (l : string) (fs : list ColumnFrequency)
    (table : list (list Scored)) :
  List.length table <= List.length fs ->
  pushAll l fs table
  = Normal (map (fun cf =>
                   (fst cf ++ [{| letter := l;
                                  letterScore := score (snd cf) |}])%list)
                (List.combine table fs)).
Proof.
  revert fs; induction table as [|col table IH]; intros [|f fs] H;
    simpl in H; try lia; try reflexivity.
  cbn [pushAll]. rewrite IH by lia. reflexivity.
Qed.

Lemma combine_columns {A : Type} (h : nat -> num -> A)
    (fs : list ColumnFrequency) :
  forall (g : nat -> list Scored) (k : list Scored -> num -> A) (base : nat),
    (forall c s, k (g c) s = h c s) ->
    map (fun cf => k (fst cf) (score (snd cf)))
        (List.combine (map g (seq base (List.length fs))) fs)
    = map (fun c => h c (nth (c - base) (map score fs) NaN))
          (seq base (List.length fs)).
Proof.
  induction fs as [|f fs IH]; intros g k base Hk; [reflexivity|].
  cbn [List.length seq map List.combine fst snd].
  rewrite Nat.sub_diag. cbn [nth]. rewrite Hk. f_equal.
  rewrite (IH g k (S base) Hk). apply map_ext_in.
  intros c Hc. apply in_seq in Hc.
  replace (c - base) with (S (c - S base)) by lia. reflexivity.
Qed.

Lemma frequencies_same_text (e1 e2 : Vigenere) (columns : option nat)
    (text : option string) :
  cryptotext e1 = cryptotext e2 ->
  frequencies e1 columns text = frequencies e2 columns text.
Proof. intros H. unfold frequencies. now rewrite H. Qed.

Lemma decrypt_same_text (e1 e2 : Vigenere) (k : option string) :
  sameButPlaintext e1 e2 -> fst (decrypt e2 k) = fst (decrypt e1 k).
Proof.
  intros (Hk & Ht & _). unfold decrypt. cbn [fst]. now rewrite Hk, Ht.
Qed.

Lemma tryLetter_closed (len : nat) (l : string) (e0 e : Vigenere)
    (g : nat -> list Scored) :
  1 <= len -> sameButPlaintext e0 e ->
  tryLetter len l (e, map g (seq 0 len))
  = Normal (snd (decrypt e (Some l)),
            map (fun c =>
                   (g c ++ [{| letter := l;
                               letterScore := trialScore e0 len l c |}])%list)
                (seq 0 len)).
Proof.
  intros Hlen Hs. unfold tryLetter. cbn [fst snd].
  destruct (decrypt e (Some l)) as [shifted e1] eqn:Hd. cbn [snd].
  assert (Hsh : shifted = fst (decrypt e0 (Some l))).
  { rewrite <- (decrypt_same_text e0 e (Some l) Hs). now rewrite Hd. }
  assert (Hfs : frequencies e1 (Some len) (Some shifted)
                = frequencies e0 (Some len) (Some shifted)).
  { apply frequencies_same_text.
    destruct (decrypt_sameButPlaintext e0 e (Some l) Hs) as [(_ & Ht & _) _].
    now rewrite Hd in Ht. }
  rewrite Hfs, Hsh.
  set (fs := frequencies e0 (Some len) (Some (fst (decrypt e0 (Some l))))).
  assert (Hl : List.length fs = len).
  { unfold fs. rewrite frequencies_length. destruct len; [lia|reflexivity]. }
  rewrite pushScores_pushAll by (now rewrite length_map, length_seq).
  rewrite pushAll_closed by (rewrite length_map, length_seq; lia).
  cbn [bind]. do 2 f_equal. rewrite <- Hl.
  rewrite (combine_columns
             (fun c s => (g c ++ [{| letter := l; letterScore := s |}])%list)
             fs g
             (fun col s => (col ++ [{| letter := l; letterScore := s |}])%list)
             0 (fun _ _ => eq_refl)).
  apply map_ext. intros c. rewrite Nat.sub_0_r. unfold trialScore.
  fold fs. now rewrite Hl.
Qed.

Lemma letters_closed (len : nat) (e0 : Vigenere) (ls : list string) :
  1 <= len ->
  forall (e : Vigenere) (g : nat -> list Scored),
    sameButPlaintext e0 e ->
    exists e',
      forEach ls (tryLetter len) (e, map g (seq 0 len))
      = Normal (e',
                map (fun c =>
                       (g c ++ map (fun l =>
                                      {| letter := l;
                                         letterScore := trialScore e0 len l c |})
                                   ls)%list)
                    (seq 0 len)).
Proof.
  intros Hlen. induction ls as [|l ls IH]; intros e g Hs.
  - exists e. cbn [forEach map]. do 2 f_equal. apply map_ext.
    intros c. now rewrite app_nil_r.
  - cbn [forEach]. rewrite (tryLetter_closed len l e0 e g Hlen Hs).
    cbn [bind].
    destruct (decrypt_sameButPlaintext e0 e (Some l) Hs) as [Hs1 _].
    destruct (IH (snd (decrypt e (Some l)))
                 (fun c => (g c ++ [{| letter := l;
                                       letterScore := trialScore e0 len l c |}])%list)
                 Hs1) as (e' & ->).
    exists e'. do 2 f_equal. apply map_ext. intros c.
    now rewrite <- app_assoc.
Qed.

Lemma repeat_as_map {A : Type} (x : A) (n : nat) (base : nat) :
  repeat x n = map (fun _ => x) (seq base n).
Proof.
  revert base; induction n as [|n IH]; intros base; simpl; [reflexivity|].
  now rewrite (IH (S base)).
Qed.

(** The table of [smashKey] for a key length of at least 1. *)
Lemma recoverKey_closed (e : Vigenere) (len : nat) r e' :
  1 <= len -> recoverKey e len = Normal (r, e') ->
  candidateTable r
  = map (fun c => JsArray.sortList scoredAfter (trials e len c)) (seq 0 len)
  /\ firstKey r = bestLetters (candidateTable r)
  /\ e' = afterSmash e.
Proof.
  intros Hlen H.
  destruct (recoverKey_result e len Hlen) as (r0 & Hr0 & _ & _ & Hk).
  rewrite Hr0 in H. injection H as <- <-.
  split; [|split; [exact Hk|reflexivity]].
  clear Hk. unfold recoverKey in Hr0.
  rewrite (repeat_as_map [] len 0) in Hr0.
  destruct (letters_closed len e (map fst letterFrequencies) Hlen e
              (fun _ => []))
    as (e1 & Hloop); [repeat split|].
  rewrite Hloop in Hr0. clear Hloop. cbn [bind fst snd] in Hr0.
  rewrite sortColumns_sortAll in Hr0 by (now rewrite length_map, length_seq).
  destruct (sortAll _ "") as [[t k]| |] eqn:Hsort; cbn [bind fst snd] in Hr0;
    [|discriminate Hr0|discriminate Hr0].
  injection Hr0 as <- _. cbn [candidateTable].
  destruct (sortAll_result _ _ _ _ Hsort) as (-> & _).
  rewrite map_map. reflexivity.
Qed.

(** X15: the table that [smashKey] returns, in closed form.  With L the
    number of its columns, column c is the stable sort by score of the 26
    letters in alphabetical order, the score of a letter being the score
    that [frequencies] gives column c of the working text decrypted under
    that letter alone; [firstKey] is the row of the first letters of the
    columns. *)
Theorem smashKey_closed_form (e : Vigenere) (length options : option nat)
    (r : Smash) (e' : Vigenere) :
  smashKey e length options = Normal (r, e') ->
  candidateTable r
  = map (fun c =>
           JsArray.sortList scoredAfter
             (trials e (List.length (candidateTable r)) c))
        (seq 0 (List.length (candidateTable r)))
  /\ firstKey r = bestLetters (candidateTable r).
Proof.
  intros H. apply smashKey_length in H as (len & Hlen & H).
  destruct (recoverKey_closed e len r e' Hlen H) as (Ht & Hk & _).
  assert (Hl : List.length (candidateTable r) = len)
    by now rewrite Ht, length_map, length_seq.
  rewrite Hl. auto.
Qed.

Lemma smashKey_closed_form_witness :
  exists r e',
    smashKey (newVigenere (Some "LXFOPVEFRNHR") None) (Some 3) None
    = Normal (r, e')
    /\ candidateTable r
       = map (fun c =>
                JsArray.sortList scoredAfter
                  (trials (newVigenere (Some "LXFOPVEFRNHR") None)
                          (List.length (candidateTable r)) c))
             (seq 0 (List.length (candidateTable r))).
Proof.
  destruct (smashKey_returns (newVigenere (Some "LXFOPVEFRNHR") None) 2 None)
    as [r Hr].
  exists r, (afterSmash (newVigenere (Some "LXFOPVEFRNHR") None)).
  split; [exact Hr|].
  exact (proj1 (smashKey_closed_form _ _ _ _ _ Hr)).
Defined.

(** ** The letters of the table *)

Lemma trials_letters (e : Vigenere) (len c : nat) :
  map letter (trials e len c) = alphabet.
Proof.
  unfold trials, alphabet. rewrite map_map. cbn [letter].
  now rewrite map_id.
Qed.

Lemma alphabet_matches (l : string) :
  In l alphabet -> matchesLetter l = true.
Proof.
  unfold alphabet. intros H. apply in_map_iff in H as (lf & <- & Hin).
  pose proof alphabet_letters as Hal. rewrite Forall_forall in Hal.
  now apply Hal.
Qed.

Lemma sorted_column_letters (e : Vigenere) (len c : nat) :
  Permutation
    (map letter (JsArray.sortList scoredAfter (trials e len c))) alphabet.
Proof.
  rewrite <- (trials_letters e len c). apply Permutation_map.
  apply sortList_perm_any.
Qed.

Lemma bestLetters_cons (col : list Scored) (t : list (list Scored)) :
  bestLetters (col :: t)
  = match col with c :: _ => letter c | [] => "" end ++ bestLetters t.
Proof.
  unfold bestLetters at 1. cbn [fold_left]. now rewrite fold_best_acc.
Qed.

Lemma lettersOnly_app (a b : string) :
  lettersOnly (a ++ b) = lettersOnly a && lettersOnly b.
Proof.
  unfold lettersOnly. induction a as [|x a IH]; simpl; [reflexivity|].
  now rewrite IH, andb_assoc.
Qed.

Lemma matchesLetter_single (l : string) :
  matchesLetter l = true -> String.length l = 1 /\ lettersOnly l = true.
Proof.
  intros H. apply matchesLetter_inv in H as (a & -> & Ha).
  unfold lettersOnly. simpl. now rewrite Ha.
Qed.

Lemma bestLetters_key (t : list (list Scored)) :
  Forall (fun col => exists c rest,
                       col = c :: rest /\ matchesLetter (letter c) = true) t ->
  String.length (bestLetters t) = List.length t
  /\ lettersOnly (bestLetters t) = true.
Proof.
  induction 1 as [|col t (c & rest & -> & Hc) Ht IH]; [now split|].
  rewrite bestLetters_cons. destruct IH as [IHl IHo].
  destruct (matchesLetter_single _ Hc) as [H1 Ho].
  rewrite string_length_app, lettersOnly_app, H1, Ho, IHl, IHo.
  now split.
Qed.

Lemma sorted_column_head (e : Vigenere) (len c : nat) :
  exists best rest,
    JsArray.sortList scoredAfter (trials e len c) = best :: rest
    /\ matchesLetter (letter best) = true.
Proof.
  pose proof (sorted_column_letters e len c) as Hp.
  destruct (JsArray.sortList scoredAfter (trials e len c)) as [|best rest].
  - apply Permutation_nil in Hp. discriminate Hp.
  - exists best, rest. split; [reflexivity|].
    apply alphabet_matches. rewrite <- Hp. now left.
Qed.

(** X16: with a key length L of at least 1, [smashKey] never throws: it
    returns a table of exactly L columns, each holding every letter of
    the alphabet exactly once, and a [firstKey] of exactly L upper-case
    letters, whatever the working text is. *)
Theorem smashKey_with_length (e : Vigenere) (n : nat)
    (options : option nat) :
  exists r e',
    smashKey e (Some (S n)) options = Normal (r, e')
    /\ List.length (candidateTable r) = S n
    /\ Forall (fun col => Permutation (map letter col) alphabet)
              (candidateTable r)
    /\ String.length (firstKey r) = S n
    /\ lettersOnly (firstKey r) = true.
Proof.
  destruct (smashKey_returns e n options) as [r Hr].
  exists r, (afterSmash e). split; [exact Hr|].
  rewrite smashKey_unfold in Hr. cbn [bind] in Hr.
  destruct (recoverKey_closed e (S n) r _ (le_n_S _ _ (Nat.le_0_l n)) Hr)
    as (Ht & Hk & _).
  clear Hr.
  assert (Hl : List.length (candidateTable r) = S n)
    by (rewrite Ht, length_map, length_seq; reflexivity).
  split; [exact Hl|]. split.
  - rewrite Ht. apply Forall_map, Forall_forall. intros c _.
    apply sorted_column_letters.
  - rewrite Hk, <- Hl. apply bestLetters_key.
    rewrite Ht at 1. apply Forall_map, Forall_forall. intros c _.
    destruct (sorted_column_head e (S n) c) as (best & rest & Hs & Hb).
    exists best, rest. split; [exact Hs|exact Hb].
Qed.

(** With a key length of at least 1, [smashKey] returns a table of that
    many columns. *)
Lemma smashKey_with_length_core (e : Vigenere) (n : nat)
    (options : option nat) :
  exists r,
    smashKey e (Some (S n)) options = Normal (r, afterSmash e)
    /\ List.length (candidateTable r) = S n.
Proof.
  rewrite smashKey_unfold. cbn [bind].
  destruct (recoverKey_result e (S n)) as (r & Hr & Hl & _); [lia|].
  exists r. split; [exact Hr|exact Hl].
Qed.

(** ** The order within a column *)

Lemma lettersInColumn_ext (n : nat) (t1 t2 : string) (c : nat) :
  String.length t1 = String.length t2 ->
  (forall i, matchesLetter (charAt t1 i) = matchesLetter (charAt t2 i)) ->
  lettersInColumn n t1 c = lettersInColumn n t2 c.
Proof.
  intros Hl Hm. unfold lettersInColumn. rewrite Hl. f_equal.
  apply filter_ext. intros i. now rewrite Hm.
Qed.

Lemma shifted_letters (e : Vigenere) (k : option string) (n c : nat) :
  lettersInColumn n (orElse (Some (fst (decrypt e k))) (cryptotext e)) c
  = lettersInColumn n (cryptotext e) c.
Proof.
  destruct (decrypt_output e k) as [Hlen _].
  destruct (String.eqb_spec (fst (decrypt e k)) "") as [He|Hne].
  - unfold orElse. rewrite He. reflexivity.
  - rewrite orElse_nonempty by assumption.
    apply lettersInColumn_ext; [exact Hlen|].
    intros i. apply decrypt_letter_positions.
Qed.

Lemma trialScore_column (e : Vigenere) (len : nat) (l : string) (c : nat) :
  c < len ->
  trialScore e len l c
  = score (scoreColumn
             (tallyBelow len
                (orElse (Some (fst (decrypt e (Some l)))) (cryptotext e)) c
                (String.length
                   (orElse (Some (fst (decrypt e (Some l))))
                           (cryptotext e))))).
Proof.
  intros Hc. unfold trialScore, frequencies.
  assert (Hn : orElseNum (Some len) 1 = len)
    by (destruct len; [lia|reflexivity]).
  rewrite Hn.
  set (t := orElse (Some (fst (decrypt e (Some l)))) (cryptotext e)).
  rewrite map_map.
  apply nth_error_nth.
  rewrite nth_error_map, countColumns_nth by assumption. reflexivity.
Qed.

Lemma trialScore_number (e : Vigenere) (len : nat) (l : string) (c : nat) :
  c < len -> 1 <= lettersInColumn len (cryptotext e) c ->
  isNumber (trialScore e len l c).
Proof.
  intros Hc Hl. rewrite trialScore_column by assumption.
  destruct (score_number
              (tallyBelow len
                 (orElse (Some (fst (decrypt e (Some l)))) (cryptotext e)) c
                 (String.length
                    (orElse (Some (fst (decrypt e (Some l))))
                            (cryptotext e)))))
    as (q & Hq & _).
  - change (1 <= lettersInColumn len
                   (orElse (Some (fst (decrypt e (Some l)))) (cryptotext e))
                   c).
    now rewrite shifted_letters.
  - now exists q.
Qed.

Lemma no_letters_in_column (n : nat) (t : string) (c : nat) :
  lettersInColumn n t c = 0 ->
  forall i, i < String.length t -> i mod n = c ->
            matchesLetter (charAt t i) = false.
Proof.
  unfold lettersInColumn. intros H i Hi Hc.
  destruct (matchesLetter (charAt t i)) eqn:Hm; [|reflexivity].
  assert (Hin : In i (filter (fun i => (i mod n =? c)
                                       && matchesLetter (charAt t i))
                             (seq 0 (String.length t)))).
  { apply filter_In. split; [apply in_seq; lia|].
    rewrite Hm, andb_true_r. now apply Nat.eqb_eq. }
  destruct (filter _ _); [contradiction|discriminate].
Qed.

Lemma empty_column_score : score (scoreColumn emptyTally) = NaN.
Proof. vm_compute. reflexivity. Qed.

Lemma trialScore_NaN (e : Vigenere) (len : nat) (l : string) (c : nat) :
  c < len -> lettersInColumn len (cryptotext e) c = 0 ->
  trialScore e len l c = NaN.
Proof.
  intros Hc Hl. unfold trialScore, frequencies.
  assert (Hn : orElseNum (Some len) 1 = len)
    by (destruct len; [lia|reflexivity]).
  rewrite Hn, map_map. apply nth_error_nth.
  rewrite nth_error_map, countColumns_untouched; [| exact Hc |].
  - cbn [option_map]. now rewrite empty_column_score.
  - apply no_letters_in_column. now rewrite shifted_letters.
Qed.

Lemma nth_error_map_seq {A : Type} (f : nat -> A) (n c : nat) :
  c < n -> nth_error (map f (seq 0 n)) c = Some (f c).
Proof.
  intros H. rewrite nth_error_map.
  assert (G : forall base, nth_error (seq base n) c = Some (base + c)).
  { revert c H. induction n as [|n IH]; intros c H base; [lia|].
    destruct c as [|c]; simpl; [f_equal; lia|].
    rewrite IH by lia. f_equal. lia. }
  now rewrite G.
Qed.

Lemma charAt_app_single (a b : string) (i : nat) :
  String.length a = 1 ->
  charAt (a ++ b) 0 = a /\ charAt (a ++ b) (S i) = charAt b i.
Proof.
  destruct a as [|x [|y a]]; simpl; try discriminate. intros _.
  split; reflexivity.
Qed.

Lemma bestLetters_charAt (t : list (list Scored)) (c : nat) best rest :
  Forall (fun col => exists b r,
                       col = b :: r /\ matchesLetter (letter b) = true) t ->
  nth_error t c = Some (best :: rest) ->
  charAt (bestLetters t) c = letter best.
Proof.
  intros Hall. revert c.
  induction Hall as [|col t (b & r & -> & Hb) Ht IH]; intros c Hn.
  - destruct c; discriminate Hn.
  - rewrite bestLetters_cons.
    destruct (matchesLetter_single _ Hb) as [H1 _].
    destruct c as [|c]; simpl in Hn.
    + injection Hn as -> _.
      exact (proj1 (charAt_app_single _ _ 0 H1)).
    + rewrite (proj2 (charAt_app_single _ (bestLetters t) c H1)).
      now apply IH.
Qed.

Lemma table_heads (e : Vigenere) (len : nat) :
  Forall (fun col => exists b r,
                       col = b :: r /\ matchesLetter (letter b) = true)
         (map (fun c => JsArray.sortList scoredAfter (trials e len c))
              (seq 0 len)).
Proof.
  apply Forall_map, Forall_forall. intros c _.
  destruct (sorted_column_head e len c) as (best & rest & Hs & Hb).
  exists best, rest. split; [exact Hs|exact Hb].
Qed.

(** X17: in every result of [smashKey], a column at whose positions the
    working text holds at least one upper-case letter has 26 scores that
    are numbers and is sorted by ascending score; the letter that
    [firstKey] holds at the place of the column is the first of the
    column, and no candidate of the column has a smaller score. *)
Theorem lettered_column_sorted (e : Vigenere) (length options : option nat)
    (r : Smash) (e' : Vigenere) (c : nat) :
  smashKey e length options = Normal (r, e') ->
  c < List.length (candidateTable r) ->
  1 <= lettersInColumn (List.length (candidateTable r)) (cryptotext e) c ->
  exists best rest,
    nth_error (candidateTable r) c = Some (best :: rest)
    /\ Forall (fun x => isNumber (letterScore x)) (best :: rest)
    /\ StronglySorted scoreLe (best :: rest)
    /\ (forall x, In x (best :: rest) -> scoreLe best x)
    /\ charAt (firstKey r) c = letter best.
Proof.
  intros H. apply smashKey_length in H as (len & Hlen & H).
  destruct (recoverKey_closed e len r e' Hlen H) as (Ht & Hk & _).
  clear H.
  assert (Hl : List.length (candidateTable r) = len)
    by (rewrite Ht, length_map, length_seq; reflexivity).
  rewrite Hl. intros Hc Hletters.
  assert (Hnum : Forall (fun x => isNumber (letterScore x)) (trials e len c)).
  { unfold trials. apply Forall_map, Forall_forall. intros l _.
    cbn [letterScore]. now apply trialScore_number. }
  assert (Hnth : nth_error (candidateTable r) c
                 = Some (JsArray.sortList scoredAfter (trials e len c))).
  { rewrite Ht.
    exact (nth_error_map_seq
             (fun c => JsArray.sortList scoredAfter (trials e len c))
             len c Hc). }
  pose proof (column_sorted _ Hnum) as Hsorted.
  rewrite <- (sortList_perm_any scoredAfter (trials e len c)) in Hnum.
  destruct (sorted_column_head e len c) as (best & rest & Hs & Hb).
  rewrite Hs in *. exists best, rest.
  split; [exact Hnth|]. split; [exact Hnum|]. split; [exact Hsorted|].
  split.
  - intros x [<-|Hx].
    + inversion Hnum as [|? ? [q Hq] _]; subst.
      unfold scoreLe. rewrite Hq. apply Qle_refl.
    + inversion Hsorted as [|? ? _ Hall]; subst.
      rewrite Forall_forall in Hall. now apply Hall.
  - rewrite Hk. apply (bestLetters_charAt _ c best rest); [|exact Hnth].
    rewrite Ht. apply table_heads.
Qed.

Lemma lettered_column_sorted_witness :
  exists r e' best rest,
    smashKey (newVigenere (Some "LXFOPVEFRNHR") None) (Some 3) None
    = Normal (r, e')
    /\ nth_error (candidateTable r) 1 = Some (best :: rest)
    /\ StronglySorted scoreLe (best :: rest)
    /\ charAt (firstKey r) 1 = letter best.
Proof.
  destruct (smashKey_with_length_core
              (newVigenere (Some "LXFOPVEFRNHR") None) 2 None)
    as (r & Hr & Hl).
  destruct (lettered_column_sorted _ _ _ r _ 1 Hr)
    as (best & rest & Hn & _ & Hs & _ & Hk).
  - rewrite Hl. lia.
  - rewrite Hl. vm_compute. lia.
  - exists r, (afterSmash (newVigenere (Some "LXFOPVEFRNHR") None)),
      best, rest.
    split; [exact Hr|]. split; [exact Hn|]. split; [exact Hs|exact Hk].
Defined.

Lemma sortList_all_ties {A : Type} (after : A -> A -> bool) (l : list A) :
  (forall x y, In x l -> In y l -> after x y = false) ->
  JsArray.sortList after l = l.
Proof.
  induction l as [|x l IH]; intros H; simpl; [reflexivity|].
  rewrite IH by (intros a b Ha Hb; apply H; now right).
  destruct l as [|y l]; simpl; [reflexivity|].
  rewrite H; [reflexivity|now left|right; now left].
Qed.

(** X18: in every result of [smashKey], a column at whose positions the
    working text holds no upper-case letter has 26 scores that are all
    NaN; the sort leaves such a column in alphabetical order, so
    [firstKey] holds the letter A at its place. *)
Theorem unlettered_column_keeps_order (e : Vigenere)
    (length options : option nat) (r : Smash) (e' : Vigenere) (c : nat) :
  smashKey e length options = Normal (r, e') ->
  c < List.length (candidateTable r) ->
  lettersInColumn (List.length (candidateTable r)) (cryptotext e) c = 0 ->
  exists col,
    nth_error (candidateTable r) c = Some col
    /\ map letter col = alphabet
    /\ Forall (fun x => letterScore x = NaN) col
    /\ charAt (firstKey r) c = "A".
Proof.
  intros H. apply smashKey_length in H as (len & Hlen & H).
  destruct (recoverKey_closed e len r e' Hlen H) as (Ht & Hk & _).
  clear H.
  assert (Hl : List.length (candidateTable r) = len)
    by (rewrite Ht, length_map, length_seq; reflexivity).
  rewrite Hl. intros Hc Hletters.
  assert (Hnan : Forall (fun x => letterScore x = NaN) (trials e len c)).
  { unfold trials. apply Forall_map, Forall_forall. intros l _.
    cbn [letterScore]. now apply trialScore_NaN. }
  assert (Hsame : JsArray.sortList scoredAfter (trials e len c)
                  = trials e len c).
  { apply sortList_all_ties. intros x y Hx _.
    rewrite Forall_forall in Hnan. unfold scoredAfter.
    now rewrite (Hnan x Hx). }
  assert (Hnth : nth_error (candidateTable r) c = Some (trials e len c)).
  { rewrite Ht, <- Hsame.
    exact (nth_error_map_seq
             (fun c => JsArray.sortList scoredAfter (trials e len c))
             len c Hc). }
  exists (trials e len c).
  split; [exact Hnth|]. split; [apply trials_letters|].
  split; [exact Hnan|].
  rewrite Hk.
  rewrite (bestLetters_charAt (candidateTable r) c
             {| letter := "A"; letterScore := trialScore e len "A" c |}
             (tl (trials e len c))).
  - reflexivity.
  - rewrite Ht. apply table_heads.
  - exact Hnth.
Qed.

Lemma unlettered_column_keeps_order_witness :
  exists r e' col,
    smashKey (newVigenere (Some "A1B2") None) (Some 2) None = Normal (r, e')
    /\ nth_error (candidateTable r) 1 = Some col
    /\ map letter col = alphabet
    /\ charAt (firstKey r) 1 = "A".
Proof.
  destruct (smashKey_with_length_core (newVigenere (Some "A1B2") None) 1 None)
    as (r & Hr & Hl).
  destruct (unlettered_column_keeps_order _ _ _ r _ 1 Hr)
    as (col & Hn & Hm & _ & Hk).
  - rewrite Hl. lia.
  - rewrite Hl. vm_compute. reflexivity.
  - exists r, (afterSmash (newVigenere (Some "A1B2") None)), col.
    split; [exact Hr|]. split; [exact Hn|]. split; [exact Hm|exact Hk].
Defined.

(** ** [assemble] *)

Lemma assemble_pick_loop (table : list (list Scored))
    (combination : list nat) :
  forall (todo done : list (list Scored)) (cdone ctodo : list nat)
         (acc : string),
    table = (done ++ todo)%list ->
    combination = (cdone ++ ctodo)%list ->
    List.length cdone = List.length done ->
    forEach (seq (List.length done) (List.length todo))
      (fun column newKey =>
         match nth_error table column, nth_error combination column with
         | Some col, Some choice =>
             match nth_error col choice with
             | Some c => Normal (newKey ++ letter c)
             | None => Throw TypeError
             end
         | _, _ => Throw TypeError
         end)
      acc
    = pickAll todo ctodo acc.
Proof.
  induction todo as [|col todo IH];
    intros done cdone ctodo acc Ht Hc Hl.
  - reflexivity.
  - cbn [List.length seq forEach pickAll]. subst table combination.
    rewrite nth_error_middle.
    destruct ctodo as [|choice ctodo].
    + rewrite app_nil_r.
      replace (nth_error cdone (List.length done)) with (@None nat);
        [reflexivity|].
      symmetry. apply nth_error_None. lia.
    + rewrite <- Hl, nth_error_middle, Hl.
      destruct (nth_error col choice) as [c|]; [|reflexivity].
      cbn [bind].
      replace (S (List.length done))
        with (List.length (done ++ [col])%list)
        by (rewrite List.length_app; simpl; lia).
      apply (IH (done ++ [col])%list (cdone ++ [choice])%list ctodo).
      * now rewrite <- app_assoc.
      * now rewrite <- app_assoc.
      * rewrite !List.length_app. simpl. lia.
Qed.

Lemma assemble_pickAll (r : Smash) (combination : list nat) :
  assemble r combination = pickAll (candidateTable r) combination "".
Proof.
  unfold assemble.
  exact (assemble_pick_loop (candidateTable r) combination
           (candidateTable r) [] [] combination "" eq_refl eq_refl eq_refl).
Qed.

Lemma pickAll_valid (cols : list (list Scored)) :
  Forall (fun col => List.length col = 26
                     /\ Forall (fun c => matchesLetter (letter c) = true) col)
         cols ->
  forall (choices : list nat) (acc : string),
    validCombination (List.length cols) choices = true ->
    exists k,
      pickAll cols choices acc = Normal (acc ++ k)
      /\ String.length k = List.length cols
      /\ lettersOnly k = true.
Proof.
  unfold validCombination.
  induction 1 as [|col cols [H26 Hletters] Hcols IH]; intros choices acc Hv.
  - exists "". cbn. now rewrite app_empty_r.
  - apply andb_true_iff in Hv as [Hlen Hall]. apply Nat.leb_le in Hlen.
    destruct choices as [|choice choices]; [simpl in Hlen; lia|].
    cbn [List.length firstn forallb] in Hlen, Hall.
    apply andb_true_iff in Hall as [Hch Hall]. apply Nat.ltb_lt in Hch.
    cbn [pickAll].
    destruct (nth_error col choice) as [c|] eqn:Hn.
    + destruct (IH choices (acc ++ letter c)) as (k & Hk & Hkl & Hko).
      { apply andb_true_iff. split; [apply Nat.leb_le; lia|exact Hall]. }
      rewrite Forall_forall in Hletters.
      destruct (matchesLetter_single (letter c)) as [H1 Ho].
      { apply Hletters. eapply nth_error_In; eauto. }
      exists (letter c ++ k). rewrite Hk, app_assoc_str.
      split; [reflexivity|].
      rewrite string_length_app, lettersOnly_app, H1, Ho, Hkl, Hko.
      now split.
    + apply nth_error_None in Hn. lia.
Qed.

Lemma pickAll_invalid (cols : list (list Scored)) :
  Forall (fun col => List.length col = 26) cols ->
  forall (choices : list nat) (acc : string),
    validCombination (List.length cols) choices = false ->
    pickAll cols choices acc = Throw TypeError.
Proof.
  unfold validCombination.
  induction 1 as [|col cols H26 Hcols IH]; intros choices acc Hv.
  - discriminate Hv.
  - destruct choices as [|choice choices]; [reflexivity|].
    cbn [pickAll].
    destruct (nth_error col choice) as [c|] eqn:Hn; [|reflexivity].
    apply IH. cbn [List.length firstn forallb] in Hv.
    assert (Hch : (choice <? 26) = true).
    { apply Nat.ltb_lt. rewrite <- H26. apply nth_error_Some. congruence. }
    rewrite Hch in Hv. exact Hv.
Qed.

(** X19: for every result of [smashKey] with L columns: [assemble]
    returns a key exactly when the combination has an index for each of
    the L columns and each of these indices is below 26; the key then has
    L upper-case letters.  With a shorter combination, or an index of 26
    or more, [assemble] throws a TypeError. *)
Theorem assemble_bounds (e : Vigenere) (length options : option nat)
    (r : Smash) (e' : Vigenere) (combination : list nat) :
  smashKey e length options = Normal (r, e') ->
  if validCombination (List.length (candidateTable r)) combination
  then exists k,
         assemble r combination = Normal k
         /\ String.length k = List.length (candidateTable r)
         /\ lettersOnly k = true
  else assemble r combination = Throw TypeError.
Proof.
  intros H. apply smashKey_length in H as (len & Hlen & H).
  destruct (recoverKey_closed e len r e' Hlen H) as (Ht & _ & _).
  destruct (recoverKey_result e len Hlen) as (r0 & Hr0 & _ & H26 & _).
  rewrite Hr0 in H. injection H as <- _. clear Hr0.
  rewrite assemble_pickAll.
  destruct (validCombination _ combination) eqn:Hv.
  - destruct (pickAll_valid (candidateTable r0)) with
      (choices := combination) (acc := "") as (k & Hk & Hkl & Hko);
      [|exact Hv|].
    + rewrite Forall_forall in H26 |- *. intros col Hcol.
      split; [exact (H26 col Hcol)|].
      rewrite Ht in Hcol. apply in_map_iff in Hcol as (c & <- & _).
      apply Forall_forall. intros x Hx. apply alphabet_matches.
      rewrite <- (sorted_column_letters e len c).
      apply in_map_iff. exists x. split; [reflexivity|exact Hx].
    + exists k. split; [exact Hk|]. split; [exact Hkl|exact Hko].
  - apply pickAll_invalid; [exact H26|exact Hv].
Qed.

Lemma assemble_bounds_witness :
  exists r e',
    smashKey (newVigenere (Some "LXFOPVEFRNHR") None) (Some 2) None
    = Normal (r, e')
    /\ (exists k, assemble r [3; 25] = Normal k /\ String.length k = 2)
    /\ assemble r [3] = Throw TypeError
    /\ assemble r [3; 26] = Throw TypeError.
Proof.
  destruct (smashKey_with_length_core
              (newVigenere (Some "LXFOPVEFRNHR") None) 1 None)
    as (r & Hr & Hl).
  exists r, (afterSmash (newVigenere (Some "LXFOPVEFRNHR") None)).
  split; [exact Hr|].
  pose proof (assemble_bounds _ _ _ r _ [3; 25] Hr) as H1.
  pose proof (assemble_bounds _ _ _ r _ [3] Hr) as H2.
  pose proof (assemble_bounds _ _ _ r _ [3; 26] Hr) as H3.
  clear Hr. rewrite Hl in H1, H2, H3. cbn in H1, H2, H3.
  split; [|split; [exact H2|exact H3]].
  destruct H1 as (k & Hk & Hkl & _). exists k. split; [exact Hk|exact Hkl].
Defined.

(** ** Stored keys and keys passed to a call *)

Lemma toUpperCase_nonempty (s : string) : s <> "" -> toUpperCase s <> "".
Proof.
  intros H. apply nonempty_length. rewrite toUpperCase_length.
  now apply nonempty_length.
Qed.

Lemma orElse_default_nonempty (k : option string) : orElse k " " <> "".
Proof.
  destruct k as [s|]; simpl; [|discriminate].
  destruct (String.eqb_spec s ""); [discriminate|assumption].
Qed.

(** X20: [setKey] stores the upper-cased key (one space for a missing or
    empty key), so the stored key is never empty and has no lower-case
    letter, and encrypting or decrypting after [setKey(k)] is the same as
    passing the upper-cased k to the call; a key passed to the call itself
    is used as it is given. *)
Theorem setKey_then_call (e : Vigenere) (k : option string) :
  key (setKey e k) <> ""
  /\ noLower (key (setKey e k))
  /\ fst (encrypt (setKey e k) None)
     = fst (encrypt e (Some (toUpperCase (orElse k " "))))
  /\ fst (decrypt (setKey e k) None)
     = fst (decrypt e (Some (toUpperCase (orElse k " "))))
  /\ forall given, given <> "" ->
       forall i, i < String.length (cryptotext e) ->
         charAt (fst (encrypt e (Some given))) i
         = cyclicPlus (charAt (cryptotext e) i)
                      (charAt given (i mod String.length given)).
Proof.
  pose proof (toUpperCase_nonempty _ (orElse_default_nonempty k)) as Hne.
  split; [exact Hne|]. split; [apply toUpperCase_noLower|].
  split; [|split].
  - unfold encrypt, setKey. cbn [fst key cryptotext].
    now rewrite orElse_undefined, (orElse_nonempty _ (key e) Hne).
  - unfold decrypt, setKey. cbn [fst key cryptotext].
    now rewrite orElse_undefined, (orElse_nonempty _ (key e) Hne).
  - intros given Hg i Hi.
    destruct (encrypt_output e (Some given)) as [_ Hch].
    rewrite Hch by assumption. unfold combineAt.
    now rewrite (orElse_nonempty given (key e) Hg).
Qed.

(** ** Two encryptions in a row *)

Lemma cyclicPlus_assoc (x a b : string) :
  matchesLetter a = true -> matchesLetter b = true ->
  cyclicPlus (cyclicPlus x a) b = cyclicPlus x (cyclicPlus a b).
Proof.
  intros Ha Hb.
  apply matchesLetter_inv in Ha as (ca & -> & Hca).
  apply matchesLetter_inv in Hb as (cb & -> & Hcb).
  destruct (cyclicPlus_letters ca cb Hca Hcb) as (cab & Hab & Hcab).
  unfold single in Hab. rewrite Hab.
  assert (Huab : isUpper cab = true).
  { apply isUpper_range.
    pose proof (Z.mod_pos_bound (index ca + index cb) 26). lia. }
  destruct (matchesLetter x) eqn:Hx.
  - apply matchesLetter_inv in Hx as (cx & -> & Hcx).
    destruct (cyclicPlus_letters cx ca Hcx Hca) as (y & Hy & Hcy).
    unfold single in Hy. rewrite Hy.
    assert (Huy : isUpper y = true).
    { apply isUpper_range.
      pose proof (Z.mod_pos_bound (index cx + index ca) 26). lia. }
    destruct (cyclicPlus_letters y cb Huy Hcb) as (z & Hz & Hcz).
    destruct (cyclicPlus_letters cx cab Hcx Huab) as (z' & Hz' & Hcz').
    unfold single in Hz, Hz'. rewrite Hz, Hz'. f_equal.
    apply code_inj. rewrite Hcz, Hcz'. f_equal.
    unfold index in *. rewrite Hcy, Hcab.
    replace ((code cx - 65 + (code ca - 65)) mod 26 + 65 - 65
             + (code cb - 65))%Z
      with ((code cx - 65 + (code ca - 65)) mod 26 + (code cb - 65))%Z
      by lia.
    replace (code cx - 65
             + ((code ca - 65 + (code cb - 65)) mod 26 + 65 - 65))%Z
      with (code cx - 65 + (code ca - 65 + (code cb - 65)) mod 26)%Z by lia.
    rewrite Zplus_mod_idemp_l, Zplus_mod_idemp_r. f_equal. lia.
  - assert (H1 : forall c, cyclicPlus x c = x).
    { intros c. apply cyclic_pass_through. now rewrite Hx. }
    now rewrite !H1.
Qed.

Lemma lettersOnly_charAt (k : string) (j : nat) :
  lettersOnly k = true -> j < String.length k ->
  matchesLetter (charAt k j) = true.
Proof.
  unfold lettersOnly, charAt. revert j.
  induction k as [|a k IH]; intros j H Hj; simpl in *; [lia|].
  apply andb_true_iff in H as [Ha Hk].
  destruct j as [|j]; simpl; [exact Ha|]. apply IH; [exact Hk|lia].
Qed.

(** X21: encrypting twice composes the keys.  For two keys of upper-case
    letters of the same length, encrypting under the first, taking the
    result as working text and encrypting under the second returns what
    one encryption returns under the key that is the first key encrypted
    under the second. *)
Theorem encrypt_twice (e : Vigenere) (K1 K2 : string) :
  K1 <> "" -> String.length K1 = String.length K2 ->
  lettersOnly K1 = true -> lettersOnly K2 = true ->
  fst (encrypt (setText e (fst (encrypt e (Some K1)))) (Some K2))
  = fst (encrypt e (Some (fst (encrypt (setText e K1) (Some K2))))).
Proof.
  intros Hne Hlen H1 H2.
  assert (Hne2 : K2 <> "").
  { apply nonempty_length. rewrite <- Hlen. now apply nonempty_length. }
  apply nonempty_length in Hne as Hpos.
  set (K12 := fst (encrypt (setText e K1) (Some K2))).
  assert (HK12 : String.length K12 = String.length K1
                 /\ forall j, j < String.length K1 ->
                      charAt K12 j
                      = cyclicPlus (charAt K1 j) (charAt K2 j)).
  { destruct (encrypt_output (setText e K1) (Some K2)) as [Hl Hch].
    cbn [setText cryptotext key] in Hl, Hch. split; [exact Hl|].
    intros j Hj. unfold K12. rewrite Hch by assumption.
    unfold combineAt. rewrite (orElse_nonempty K2 _ Hne2).
    now rewrite Nat.mod_small by lia. }
  destruct HK12 as [Hl12 Hch12].
  assert (Hne12 : K12 <> "") by (apply nonempty_length; lia).
  unfold encrypt at 1 3. cbn [fst setText cryptotext key].
  rewrite (orElse_nonempty K2 _ Hne2), (orElse_nonempty K12 _ Hne12).
  destruct (encrypt_output e (Some K1)) as [Hl1 Hch1].
  rewrite Hl1. apply build_ext. intros i Hi. unfold combineAt at 1 2.
  rewrite Hch1 by assumption. unfold combineAt.
  rewrite (orElse_nonempty K1 _ Hne), Hl12, <- Hlen.
  assert (Hj : i mod String.length K1 < String.length K1)
    by (apply Nat.mod_upper_bound; lia).
  rewrite Hch12 by assumption.
  apply cyclicPlus_assoc; apply lettersOnly_charAt; auto; lia.
Qed.

Lemma encrypt_twice_witness :
  fst (encrypt (setText (newVigenere (Some "ATTACK AT DAWN") None)
                  (fst (encrypt (newVigenere (Some "ATTACK AT DAWN") None)
                                (Some "LEMON"))))
               (Some "APPLE"))
  = fst (encrypt (newVigenere (Some "ATTACK AT DAWN") None) (Some "LTBZR")).
Proof.
  apply (encrypt_twice (newVigenere (Some "ATTACK AT DAWN") None)
           "LEMON" "APPLE"); try reflexivity. discriminate.
Defined.

(** ** The two arrays of the examination *)

Lemma examination_ranking (ct : string) (x : Examination) :
  kasiskiExamination ct = Normal x \/ Bundled.kasiskiExamination ct = Normal x ->
  ranking x = rank (factorTable x)
  /\ recurrenceSearch ct = Normal (substringTable x, factorTable x).
Proof.
  unfold kasiskiExamination, Bundled.kasiskiExamination.
  destruct (recurrenceSearch ct) as [[st ft]| |]; cbn [bind fst snd];
    intros [H|H]; try discriminate H.
  - destruct (firstLongEnough _ _ 0) as [i| |]; cbn [bind] in H;
      try discriminate H.
    destruct (factorAt (rank ft) i) as [len| |]; cbn [bind] in H;
      try discriminate H.
    injection H as <-. split; reflexivity.
  - destruct (factorAt (rank ft) 0) as [len| |]; cbn [bind] in H;
      try discriminate H.
    injection H as <-. split; reflexivity.
Qed.

(** X22: in the result of the examination, of either variant, the array
    [candidateFreqs] is indexed by factor: it has an entry exactly at the
    factors that some recorded gap lists, the object at index f carries
    the factor f and its aggregate frequency, and the very same object is
    an element of the sorted array [frequencyRanks]. *)
Theorem candidateFreqs_by_factor (ct : string) (x : Examination) (f : nat) :
  kasiskiExamination ct = Normal x \/ Bundled.kasiskiExamination ct = Normal x ->
  ((exists r, JsArray.get (candidateFreqs (ranking x)) f = Some r)
   <-> candidateFactor (factorTable x) f)
  /\ forall r,
       JsArray.get (candidateFreqs (ranking x)) f = Some r ->
       deref (objects (ranking x)) r
       = {| factor := f; weight := aggregateFrequency (factorTable x) f |}
       /\ In r (JsArray.values (frequencyRanks (ranking x))).
Proof.
  intros H. destruct (examination_ranking ct x H) as [-> _].
  set (ft := factorTable x).
  destruct (tally_inv ft) as [Hsh Hobj Hseen].
  unfold rank. cbn [objects candidateFreqs frequencyRanks]. split.
  - rewrite Hseen. apply visits_candidates.
  - intros r Hr. destruct (Hobj f r Hr) as [_ Hd]. split.
    + rewrite Hd. f_equal. apply weightAfter_visits.
    + unfold JsArray.sort. rewrite values_dense.
      rewrite (sortList_perm_any (rankedAfter (objects (tally ft)))).
      rewrite Hsh. apply in_values. now exists f.
Qed.

Lemma candidateFreqs_by_factor_witness :
  exists x r,
    kasiskiExamination "ABCDEFGHIJKLMNOPQRSTABCZ" = Normal x
    /\ JsArray.get (candidateFreqs (ranking x)) 4 = Some r
    /\ deref (objects (ranking x)) r = {| factor := 4; weight := 3 |}.
Proof.
  destruct (kasiskiExamination "ABCDEFGHIJKLMNOPQRSTABCZ") as [x| |] eqn:Hx;
    try (vm_compute in Hx; discriminate).
  pose proof (candidateFreqs_by_factor _ x 4 (or_introl Hx)) as [_ H].
  exists x, 1. split; [reflexivity|].
  vm_compute in Hx. injection Hx as <-. split; [reflexivity|].
  exact (proj1 (H 1 eq_refl)).
Defined.

(** X23: the bundled variant of the examination returns exactly when the
    search returns and some recorded gap lists a factor; so it throws a
    TypeError on every ciphertext shorter than 6 characters. *)
Theorem bundled_returns_iff (ct : string) :
  ((exists x, Bundled.kasiskiExamination ct = Normal x)
   <-> exists st ft f, recurrenceSearch ct = Normal (st, ft)
                       /\ candidateFactor ft f)
  /\ (String.length ct < 6 ->
      Bundled.kasiskiExamination ct = Throw TypeError).
Proof.
  assert (Hiff : (exists x, Bundled.kasiskiExamination ct = Normal x)
                 <-> exists st ft f, recurrenceSearch ct = Normal (st, ft)
                                     /\ candidateFactor ft f).
  { split.
    - intros [x Hx].
      destruct (examination_ranking ct x (or_intror Hx)) as [Hrk Hs].
      exists (substringTable x), (factorTable x).
      destruct (rank_ranked (factorTable x))
        as (refs & holes & Harr & _ & Hin & _).
      unfold Bundled.kasiskiExamination in Hx. rewrite Hs in Hx.
      cbn [bind fst snd] in Hx. unfold factorAt in Hx. rewrite Harr in Hx.
      destruct refs as [|r refs].
      + destruct holes; cbn in Hx; discriminate Hx.
      + exists (factor (deref (objects (rank (factorTable x))) r)).
        split; [exact Hs|]. apply Hin. now left.
    - intros (st & ft & f & Hs & Hf).
      destruct (rank_ranked ft) as (refs & holes & Harr & _ & Hin & _).
      destruct refs as [|r refs]; [apply Hin in Hf; contradiction|].
      unfold Bundled.kasiskiExamination. rewrite Hs. cbn [bind fst snd].
      unfold factorAt. rewrite Harr. cbn. eauto. }
  split; [exact Hiff|].
  intros Hlen.
  destruct (Bundled.kasiskiExamination ct) as [x|[]|] eqn:Hx;
    [|reflexivity|].
  - destruct (proj1 Hiff (ex_intro _ x eq_refl))
      as (st & ft & f & Hs & n & e & Hget & Hl).
    pose proof (recurrenceSearch_Recorded ct _ _ Hs) as Hrec.
    destruct (Recorded_listed _ n e f Hrec Hget Hl) as (H2 & Hsq & _).
    destruct (recorded_gap_bounds ct _ _ n e Hs Hget) as (_ & _ & _ & Hn).
    nia.
  - exfalso. unfold Bundled.kasiskiExamination in Hx.
    destruct (recurrenceSearch ct) as [[st ft]| |] eqn:Hs;
      cbn [bind fst snd] in Hx; try discriminate Hx.
    + unfold factorAt in Hx.
      destruct (JsArray.get (frequencyRanks (rank ft)) 0);
        cbn [bind] in Hx; discriminate Hx.
    + now apply recurrenceSearch_terminates in Hs.
Qed.

(** ** [reset] *)

(** X24: [reset] sets both outputs to the working text and leaves key and
    working text alone, whatever was called before.  Since the constructor
    stores the text it was given, not the working text, in the outputs,
    [reset] on a fresh engine changes nothing exactly when the text was
    given, not empty, and already in upper case. *)
Theorem reset_outputs (e : Vigenere) (text k : option string) :
  plaintext (reset e) = Some (cryptotext e)
  /\ ciphertext (reset e) = Some (cryptotext e)
  /\ key (reset e) = key e /\ cryptotext (reset e) = cryptotext e
  /\ reset (reset e) = reset e
  /\ (reset (newVigenere text k) = newVigenere text k
      <-> exists t, text = Some t /\ t <> "" /\ toUpperCase t = t).
Proof.
  repeat split; try reflexivity.
  - unfold reset, newVigenere. cbn [key cryptotext plaintext ciphertext].
    intros H. injection H as H _. destruct text as [t|]; [|discriminate H].
    exists t. split; [reflexivity|].
    destruct (String.eqb_spec t "") as [->|Hne]; [discriminate H|].
    split; [exact Hne|]. rewrite orElse_nonempty in H by assumption.
    now injection H.
  - intros (t & -> & Hne & Hup). unfold reset, newVigenere.
    cbn [key cryptotext plaintext ciphertext].
    rewrite (orElse_nonempty t " " Hne), Hup. reflexivity.
Qed.
